(** * Field evaluation pipeline of magpylib: [getBH_level2]

    A shallow embedding of [magpylib/_lib/fields/field_wrap_BH_level2.py]
    and the properties of its path alignment, source grouping, scatter-back,
    collection summation, sensor back-rotation and output shaping; and of
    the list-handling methods of the Collection class in
    [magpylib/_lib/obj_classes/class_Collection.py].

    Conventions of the embedding.
    - Python objects live in a store [gmap objid obj]; an object is named by
      its identity, so that the same object reached twice (a source listed
      directly and inside a Collection, a sensor listed twice) is one entry.
    - numpy arrays whose last axis has length 3 (positions, field vectors)
      are lists of [vec3]; a scipy [Rotation] is the list of its quaternions
      [(x,y,z,w)]; [R.from_quat] and [as_quat] are the identity on that list.
    - where the source works on the flat memory of an array ([np.tile]
      followed by [reshape]), the array is an [ndarray]: a shape and the
      row-major list of its scalars.
    - floats are an abstract type [F] with decidable equality, the constants
      0 and 1 and an addition.
    - exceptions are values of [exn]; a computation that can raise has type
      [res A]. *)

From stdpp Require Import base decidable option numbers list gmap strings
  sorting.
From Stdlib Require Import ZArith Lia.

(** ** Exceptions and the error monad *)

Inductive exn : Type :=
  | MagpylibBadUserInput
  | MagpylibInternalError
  | IndexError
  | ValueError
  | ZeroDivisionError.

Definition res (A : Type) : Type := (exn + A)%type.

Definition raise {A} (e : exn) : res A := inl e.

#[global] Instance res_ret : MRet res := λ A x, inr x.
#[global] Instance res_bind : MBind res := λ A B f x,
  match x with inl e => inl e | inr a => f a end.
#[global] Instance res_fmap : FMap res := λ A B f x,
  match x with inl e => inl e | inr a => inr (f a) end.

Definition require (b : bool) (e : exn) : res unit :=
  if b then inr tt else inl e.

Definition from_option {A} (e : exn) (o : option A) : res A :=
  match o with Some a => inr a | None => inl e end.

Definition is_ok {A} (r : res A) : Prop := ∃ a, r = inr a.

(** [foldlM]: a [for] loop whose body can raise. *)
Fixpoint foldlM {A B} (f : A → B → res A) (a : A) (l : list B) : res A :=
  match l with
  | [] => inr a
  | x :: l' => a' ← f a x; foldlM f a' l'
  end.

(** ** Generic list helpers *)

(** [chunks c l]: the rows of a flat buffer seen as an array with rows of
    length [c] (what [reshape((-1, c))] exposes). *)
Definition chunks {A} (c : nat) (l : list A) : list (list A) :=
  reshape (replicate (length l / c) c) l.

(** [seq[a:b]] on a list, with numpy's clipping of the bounds. *)
Definition slice {A} (a b : nat) (l : list A) : list A :=
  take (b - a) (drop a l).

(** [seq[a:b] = x] on a list, for [x] of the length of the slice. *)
Definition set_slice {A} (a b : nat) (x l : list A) : list A :=
  take a l ++ x ++ drop (a + length (slice a b l)) l.

(** Python's [enumerate]. *)
Definition enumerate {A} (l : list A) : list (nat * A) := imap pair l.

(** ** Shapes and flat arrays *)

Definition shape_size (sh : list nat) : nat := foldr Nat.mul 1 sh.

(** [np.squeeze] on a shape. *)
Definition squeeze_shape (sh : list nat) : list nat :=
  filter (λ n, n ≠ 1) sh.

(** [shape[:-1]]. *)
Definition drop_last {A} (l : list A) : list A := take (length l - 1) l.

(** ** The collaborators outside this file

    Floats with their constants, addition and equality test; the rotations
    of scipy ([rot_apply q v] is [Rotation.apply], [rot_inv q] is
    [Rotation.inv]); and the field kernels behind [getBH_level1]:
    [kernel_row bh tag args pos q obs] is the closed-form field of one
    source of kind [tag] with packed attributes [args], at position [pos]
    with orientation [q], seen from the observation point [obs]. *)
Class Numerics : Type := {
  F : Type;
  F_eq_dec :: EqDecision F;
  F0 : F;
  F1 : F;
  Fadd : F → F → F;
  rot_apply : F * F * F * F → F * F * F → F * F * F;
  rot_inv : F * F * F * F → F * F * F * F;
  kernel_row : bool → string → list F → F * F * F → F * F * F * F → F * F * F
               → F * F * F
}.

Section pipeline.

Context `{!Numerics}.

Record ndarray : Type := NdArray { shape : list nat; data : list F }.

#[global] Instance ndarray_eq_dec : EqDecision ndarray.
Proof. solve_decision. Defined.

Abbreviation vec3 := (F * F * F)%type.
Abbreviation quat := (F * F * F * F)%type.

Definition flat3 (v : vec3) : list F := let '(x, y, z) := v in [x; y; z].
Definition flat4 (q : quat) : list F := let '(x, y, z, w) := q in [x; y; z; w].

Definition row3 (r : list F) : option vec3 :=
  match r with [x; y; z] => Some (x, y, z) | _ => None end.
Definition row4 (r : list F) : option quat :=
  match r with [x; y; z; w] => Some (x, y, z, w) | _ => None end.

(** [a.reshape((-1, 3))] read as a list of vectors; numpy raises
    [ValueError] when the size is not a multiple of 3. *)
Definition rows3 (l : list F) : res (list vec3) :=
  _ ← require (bool_decide (length l `mod` 3 = 0)) ValueError;
  from_option ValueError (mapM row3 (chunks 3 l)).

Definition rows4 (l : list F) : res (list quat) :=
  _ ← require (bool_decide (length l `mod` 4 = 0)) ValueError;
  from_option ValueError (mapM row4 (chunks 4 l)).

(** [a.reshape((-1, c))] for the attribute rows handed to the kernel. *)
Definition rows_of (c : nat) (l : list F) : res (list (list F)) :=
  _ ← require (bool_decide (0 < c ∧ length l `mod` c = 0)) ValueError;
  mret (chunks c l).

Definition vadd (u v : vec3) : vec3 :=
  let '(a, b, c) := u in let '(x, y, z) := v in (Fadd a x, Fadd b y, Fadd c z).

Definition vzero : vec3 := (F0, F0, F0).

(** [unitQ = np.array([0,0,0,1.])] *)
Definition unitQ : quat := (F0, F0, F0, F1).

(** [np.array(xs)] for a list of equally shaped arrays: stacks them along a
    new leading axis. A ragged list is a [ValueError]. *)
Definition np_array (xs : list ndarray) : res ndarray :=
  match xs with
  | [] => mret (NdArray [0] [])
  | x :: _ =>
      _ ← require (forallb (λ y, bool_decide (shape y = shape x)) xs) ValueError;
      mret (NdArray (length xs :: shape x) (concat (data <$> xs)))
  end.

(** [np.tile(a, n)] for an integer [n] and an array of at least one axis:
    [reps] is promoted to [(1,...,1,n)], so every block along the LAST axis
    is repeated [n] times in place. For a 1-d array the last axis is the
    whole array, for a 2-d array a row. *)
Definition np_tile (a : ndarray) (n : nat) : ndarray :=
  let c := List.last (shape a) 1 in
  NdArray (drop_last (shape a) ++ [c * n])
          (concat ((λ blk, concat (replicate n blk)) <$> chunks c (data a))).

(** [np.tile(a, (n, 1))] for a 2-d array: the whole array repeated [n]
    times along the first axis. *)
Definition np_tile_rows {A} (a : list A) (n : nat) : list A :=
  concat (replicate n a).


(** ** Objects and the store *)

Definition objid : Type := nat.

Record obj : Type := Obj {
  _object_type : string;
  _position : list vec3;          (* ndarray of shape (m,3) *)
  _orientation : list quat;       (* Rotation of length m *)
  pixel : ndarray;                (* Sensor: shape (N1,N2,...,3) *)
  magnetization : vec3;
  dimension : list F;
  diameter : F;
  moment : vec3;
  current : F;
  vertices : list vec3;
  sources : list objid            (* Collection: its members *)
}.

#[global] Instance obj_inhabited : Inhabited obj :=
  populate (Obj "" [] [] (NdArray [] []) (F0, F0, F0) [] F0 (F0, F0, F0) F0 [] []).

Definition set_position (o : obj) (p : list vec3) : obj :=
  Obj (_object_type o) p (_orientation o) (pixel o) (magnetization o)
      (dimension o) (diameter o) (moment o) (current o) (vertices o) (sources o).

Definition set_orientation (o : obj) (q : list quat) : obj :=
  Obj (_object_type o) (_position o) q (pixel o) (magnetization o)
      (dimension o) (diameter o) (moment o) (current o) (vertices o) (sources o).

(** The two validation steps of [magpylib._lib.input_checks], which raise on
    an uninitialised dimension or excitation; they are not under [src/].
    [true] means that the check passes. *)
Class InputChecks : Type := {
  check_dimensions : gmap objid obj → list objid → bool;
  check_excitations : gmap objid obj → list objid → bool
}.

Context `{!InputChecks}.

(** What the Python runtime leaves open: [set_iter X] is the order in which
    a set [X] is iterated (the language only promises that every element
    comes once), and [uninit] is the content of freshly allocated memory
    ([np.empty]). *)
Record runtime : Type := Runtime {
  set_iter : gset objid → list objid;
  uninit : nat → F
}.

(** The array views of a path. *)
Definition position_array (p : list vec3) : ndarray :=
  NdArray [length p; 3] (concat (flat3 <$> p)).
Definition quat_array (q : list quat) : ndarray :=
  NdArray [length q; 4] (concat (flat4 <$> q)).

(** ** The tiling helpers *)

Definition tile_mag (group : list obj) (n_pp : nat) : res (list (list F)) :=
  mags ← np_array ((λ src, NdArray [3] (flat3 (magnetization src))) <$> group);
  rows_of 3 (data (np_tile mags n_pp)).

Definition tile_dim_cuboid (group : list obj) (n_pp : nat) : res (list (list F)) :=
  dims ← np_array ((λ src, NdArray [length (dimension src)] (dimension src)) <$> group);
  rows_of 3 (data (np_tile dims n_pp)).

Definition tile_dim_cylinder (group : list obj) (n_pp : nat) : res (list (list F)) :=
  dims ← np_array ((λ src, NdArray [length (dimension src)] (dimension src)) <$> group);
  rows_of 2 (data (np_tile dims n_pp)).

Definition tile_dim_cylinder_section (group : list obj) (n_pp : nat)
  : res (list (list F)) :=
  dims ← np_array ((λ src, NdArray [length (dimension src)] (dimension src)) <$> group);
  rows_of 5 (data (np_tile dims n_pp)).

(** [dims] is a 1-d array here: [np.tile] repeats the whole of it. *)
Definition tile_dia (group : list obj) (n_pp : nat) : res (list (list F)) :=
  dims ← np_array ((λ src, NdArray [] [diameter src]) <$> group);
  mret ((λ d, [d]) <$> data (np_tile dims n_pp)).

Definition tile_moment (group : list obj) (n_pp : nat) : res (list (list F)) :=
  moms ← np_array ((λ src, NdArray [3] (flat3 (moment src))) <$> group);
  rows_of 3 (data (np_tile moms n_pp)).

Definition tile_current (group : list obj) (n_pp : nat) : res (list (list F)) :=
  currs ← np_array ((λ src, NdArray [] [current src]) <$> group);
  mret ((λ d, [d]) <$> data (np_tile currs n_pp)).

(** ** The kernel input *)

(** The dict handed to [getBH_level1]: the entries every kind has, and the
    kind's own entries in the order of the dict literal, each an array given
    by its rows. *)
Record src_dict : Type := SrcDict {
  sd_source_type : string;
  sd_fields : list (string * list (list F));
  sd_position : list vec3;
  sd_observer : list vec3;
  sd_orientation : list quat
}.

Definition get_src_dict (group : list obj) (n_pix n_pp : nat) (poso : list vec3)
  : res src_dict :=
  poss ← np_array (position_array ∘ _position <$> group);
  posv ← rows3 (data (np_tile poss n_pix));
  rots ← np_array (quat_array ∘ _orientation <$> group);
  rotv ← rows4 (data (np_tile rots n_pix));
  let rotobj := rotv in
  let posov := np_tile_rows poso (length group) in
  src_type ← from_option IndexError (_object_type <$> head group);
  if decide (src_type = "Sphere") then
    magv ← tile_mag group n_pp;
    diav ← tile_dia group n_pp;
    mret (SrcDict src_type [("magnetization", magv); ("diameter", diav)]
                  posv posov rotobj)
  else if decide (src_type = "Cuboid") then
    magv ← tile_mag group n_pp;
    dimv ← tile_dim_cuboid group n_pp;
    mret (SrcDict src_type [("magnetization", magv); ("dimension", dimv)]
                  posv posov rotobj)
  else if decide (src_type = "Cylinder") then
    magv ← tile_mag group n_pp;
    dimv ← tile_dim_cylinder group n_pp;
    mret (SrcDict "Cylinder" [("magnetization", magv); ("dimension", dimv)]
                  posv posov rotobj)
  else if decide (src_type = "CylinderSegment") then
    magv ← tile_mag group n_pp;
    dimv ← tile_dim_cylinder_section group n_pp;
    mret (SrcDict "CylinderSegment" [("magnetization", magv); ("dimension", dimv)]
                  posv posov rotobj)
  else if decide (src_type = "Dipole") then
    momv ← tile_moment group n_pp;
    mret (SrcDict src_type [("moment", momv)] posv posov rotobj)
  else if decide (src_type = "Circular") then
    currv ← tile_current group n_pp;
    diav ← tile_dia group n_pp;
    mret (SrcDict src_type [("current", currv); ("diameter", diav)]
                  posv posov rotobj)
  else if decide (src_type = "Line") then
    let currv := (λ src, [current src]) <$> group in
    let vert_list := (λ src, concat (flat3 <$> vertices src)) <$> group in
    mret (SrcDict src_type [("current", currv); ("vertices", vert_list)]
                  posv posov rotobj)
  else raise MagpylibInternalError.

(** The packed attributes of row [r]: the [r]-th row of every entry. *)
Definition args_at (fields : list (string * list (list F))) (r : nat) : list F :=
  concat ((λ kv, default [] (kv.2 !! r)) <$> fields).

(** Modelled from the spec: [getBH_level1] of
    [magpylib/_lib/fields/field_wrap_BH_level1.py], which is not present.
    The spec gives the kernels as external pure functions with the contract
    "packed tensors to a field array of matching row count": row [r] of the
    result is the field of the source described by row [r] of every packed
    tensor at observation point [r]. The polyline kernel receives one
    current and one vertex list per source and tiles them itself, so there
    row [r] belongs to source [r / n_pp]. *)
Definition getBH_level1 (bh : bool) (d : src_dict) : res (list vec3) :=
  let n := length (sd_position d) in
  _ ← require (bool_decide (length (sd_observer d) = n
                            ∧ length (sd_orientation d) = n)) ValueError;
  if decide (sd_source_type d = "Line") then
    let lg := length (default [] (snd <$> head (sd_fields d))) in
    _ ← require (bool_decide (0 < lg ∧ n `mod` lg = 0)
                 && forallb (λ kv, bool_decide (length kv.2 = lg)) (sd_fields d))
                ValueError;
    let n_pp := n / lg in
    mret (imap (λ r pos,
                  kernel_row bh (sd_source_type d)
                             (args_at (sd_fields d) (r / n_pp)) pos
                             (default unitQ (sd_orientation d !! r))
                             (default vzero (sd_observer d !! r)))
               (sd_position d))
  else
    _ ← require (forallb (λ kv, bool_decide (length kv.2 = n)) (sd_fields d))
                ValueError;
    mret (imap (λ r pos,
                  kernel_row bh (sd_source_type d) (args_at (sd_fields d) r) pos
                             (default unitQ (sd_orientation d !! r))
                             (default vzero (sd_observer d !! r)))
               (sd_position d)).

(** ** Helpers of [magpylib._lib.utility] *)

(** Modelled from the spec: [all_same] of [magpylib/_lib/utility.py], which
    is not present: "verify all Observer pixel-array shapes are identical". *)
Definition all_same (shapes : list (list nat)) : bool :=
  match shapes with
  | [] => true
  | s0 :: _ => forallb (λ s, bool_decide (s = s0)) shapes
  end.

(** Modelled from the spec: [check_static_sensor_orient] of
    [magpylib/_lib/utility.py], which is not present: "static rotation"
    is a "single distinct orientation reused across the whole path". *)
Definition static_orient (q : list quat) : bool :=
  match q with
  | [] => true
  | q0 :: _ => forallb (λ r, bool_decide (r = q0)) q
  end.

Definition check_static_sensor_orient (st : gmap objid obj) (sensors : list objid)
  : list bool :=
  (λ sens, static_orient (_orientation (st !!! sens))) <$> sensors.

(** Modelled from the spec: [format_src_inputs] of
    [magpylib/_lib/utility.py], which is not present: it "expands any nested
    source groupings into a flat ordered list" and returns the top-level
    list with it. A Collection stores its members already flattened. *)
Definition format_src_inputs (st : gmap objid obj) (srcs : list objid)
  : list objid * list objid :=
  (srcs,
   srcs ≫= (λ x, if decide (_object_type (st !!! x) = "Collection")
                  then sources (st !!! x) else [x])).

(** ** Path alignment *)

(** The body of the tiling loop for one object; the position is assigned
    before the orientation is read. *)
Definition tile_obj (m m0 : nat) (o : obj) : obj * res unit :=
  let m_tile := m - m0 in
  match last (_position o) with
  | None => (o, raise IndexError)
  | Some p =>
      let tile_pos := replicate m_tile p in
      let o1 := set_position o (_position o ++ tile_pos) in
      match last (_orientation o1) with
      | None => (o1, raise IndexError)
      | Some q =>
          let tile_orient := _orientation o1 ++ replicate m_tile q in
          (set_orientation o1 tile_orient, mret tt)
      end
  end.

Fixpoint tile_loop (m : nat) (st : gmap objid obj) (l : list (objid * nat))
  : gmap objid obj * res unit :=
  match l with
  | [] => (st, mret tt)
  | (x, m0) :: l' =>
      let '(o', r) := tile_obj m m0 (st !!! x) in
      match r with
      | inl e => (<[x := o']> st, inl e)
      | inr _ => tile_loop m (<[x := o']> st) l'
      end
  end.

(** The body of the reset loop. *)
Definition reset_obj_path (m0 : nat) (o : obj) : obj :=
  let o1 := set_position o (take m0 (_position o)) in
  set_orientation o1 (take m0 (_orientation o1)).

Definition reset_loop (st : gmap objid obj) (l : list (objid * nat))
  : gmap objid obj :=
  foldl (λ st '(x, m0), <[x := reset_obj_path m0 (st !!! x)]> st) st l.

Definition path_lengths (st : gmap objid obj) (obj_list : list objid) : list nat :=
  (λ x, length (_position (st !!! x))) <$> obj_list.

Definition mask_reset (m : nat) (pls : list nat) : list bool :=
  (λ pl, bool_decide (m ≠ pl)) <$> pls.

(** [[x for x, mask in zip(xs, masks) if mask]] *)
Definition select {A} (xs : list A) (masks : list bool) : list A :=
  fst <$> filter (λ p, Is_true p.2) (zip xs masks).

(** ** Observer assembly *)

Definition sensor_poso (o : obj) : res (list (list vec3)) :=
  match zip (_orientation o) (_position o) with
  | [] => mret []
  | steps =>
      px ← rows3 (data (pixel o));
      mret ((λ '(r, p), (λ v, vadd (rot_apply r v) p) <$> px) <$> steps)
  end.

(** [np.concatenate(poso, axis=1)]: every sensor contributes an array of
    shape (m, pixels, 3); the arrays must agree on the first axis. *)
Definition np_concatenate_axis1 (xs : list (list (list vec3)))
  : res (list (list vec3)) :=
  match xs with
  | [] => raise ValueError
  | x :: _ =>
      _ ← require (forallb (λ y, bool_decide (length y = length x
                                              ∧ 0 < length y)) xs) ValueError;
      mret ((λ j, concat ((λ y, y !!! j) <$> xs)) <$> seq 0 (length x))
  end.

(** ** Source grouping *)

Definition bucket_of (t : string) : option nat :=
  if decide (t = "Cuboid") then Some 0
  else if decide (t = "Cylinder") then Some 1
  else if decide (t = "CylinderSegment") then Some 2
  else if decide (t = "Sphere") then Some 3
  else if decide (t = "Dipole") then Some 4
  else if decide (t = "Circular") then Some 5
  else if decide (t = "Line") then Some 6
  else None.

Definition group_step (st : gmap objid obj)
    (acc : list (list objid) * list (list nat)) (e : nat * objid)
  : list (list objid) * list (list nat) :=
  let '(src_sorted, order) := acc in
  let '(i, src) := e in
  match bucket_of (_object_type (st !!! src)) with
  | Some b => (alter (λ g, g ++ [src]) b src_sorted,
               alter (λ g, g ++ [i]) b order)
  | None => (src_sorted, order)
  end.

Definition group_sources (st : gmap objid obj) (src_list : list objid)
  : list (list objid) * list (list nat) :=
  foldl (group_step st) (replicate 7 [], replicate 7 []) (enumerate src_list).

(** ** Result assembly *)

(** One row of [B]: the field of one source, of shape (m, n_pix, 3). *)
Abbreviation block := (list (list vec3)).

(** [rows.reshape((l, m, n, 3))] *)
Definition np_reshape4 (l m n : nat) (rows : list vec3) : res (list block) :=
  _ ← require (bool_decide (length rows = l * m * n)) ValueError;
  mret (reshape (replicate l m) (reshape (replicate (l * m) n) rows)).

(** [np.empty((l, m, n, 3))]: whatever the allocator returns. *)
Definition np_empty (uninit : nat → F) (l m n : nat) : list block :=
  reshape (replicate l m)
    (reshape (replicate (l * m) n)
       ((λ i, (uninit (3 * i), uninit (3 * i + 1), uninit (3 * i + 2)))
          <$> seq 0 (l * m * n))).

(** [for i in range(lg): B[order[iii][i]] = B_group[i]] *)
Definition scatter (ord : list nat) (B_group B : list block) (lg : nat)
  : list block :=
  foldl (λ B i, <[ord !!! i := B_group !!! i]> B) B (seq 0 lg).

Definition eval_group (bh : bool) (st : gmap objid obj) (m n_pix n_pp : nat)
    (poso : list vec3) (order : list (list nat))
    (B : list block) (e : nat * list objid) : res (list block) :=
  let '(iii, group) := e in
  if bool_decide (group = []) then mret B
  else
    let lg := length group in
    src_dict ← get_src_dict ((λ x, st !!! x) <$> group) n_pix n_pp poso;
    B_group ← getBH_level1 bh src_dict;
    B_group ← np_reshape4 lg m n_pix B_group;
    mret (scatter (order !!! iii) B_group B lg).

Definition block_shape (blk : block) : list nat := length <$> blk.

Definition block_add (a b : block) : block := zip_with (zip_with vadd) a b.

(** [np.sum(rows, axis=0)] for rows of shape (m, n, 3). *)
Definition np_sum_blocks (m n : nat) (rows : list block) : block :=
  match rows with
  | [] => replicate m (replicate n vzero)
  | b :: bs => foldl block_add b bs
  end.

(** [np.delete(B, np.s_[a:b], 0)] *)
Definition np_delete {A} (a b : nat) (l : list A) : list A :=
  if decide (a < b) then take a l ++ drop b l else l.

Definition collection_step (st : gmap objid obj) (m n_pix : nat)
    (B : list block) (e : nat * objid) : res (list block) :=
  let '(i, src) := e in
  if decide (_object_type (st !!! src) = "Collection") then
    let col_len := length (sources (st !!! src)) in
    let total := np_sum_blocks m n_pix (slice i (i + col_len) B) in
    _ ← require (bool_decide (i < length B)) IndexError;
    mret (np_delete (i + 1) (i + col_len) (<[i := total]> B))
  else mret B.

Definition collection_sum (st : gmap objid obj) (srcs : list objid)
    (l l0 m n_pix : nat) (B : list block) : res (list block) :=
  if decide (l0 < l) then foldlM (collection_step st m n_pix) B (enumerate srcs)
  else mret B.

(** *** Sensor back-rotation *)

(** The static case: one rotation for the whole sub-block of the sensor. *)
Definition rotate_static (o : obj) (i k_pixel l0 m : nat) (B : list block)
  : res (list block) :=
  let a := i * k_pixel in
  let b := (i + 1) * k_pixel in
  let Bpart := (λ blk : list (list vec3), slice a b <$> blk) <$> B in
  let Bpart_flat := concat (concat Bpart) in
  _ ← require (bool_decide (length Bpart_flat = k_pixel * l0 * m)) ValueError;
  q ← from_option IndexError (_orientation o !! 0);
  let Bpart_flat_rot := rot_apply (rot_inv q) <$> Bpart_flat in
  X ← np_reshape4 l0 m k_pixel Bpart_flat_rot;
  _ ← require (bool_decide (block_shape <$> X = block_shape <$> Bpart)) ValueError;
  mret (zip_with (zip_with (set_slice a b)) X B).

(** The general case: the body of the loop over the path index [j]. *)
Definition rotate_step (o : obj) (i k_pixel l0 : nat) (B : list block) (j : nat)
  : res (list block) :=
  let a := i * k_pixel in
  let b := (i + 1) * k_pixel in
  let Bpart := (λ blk, slice a b (blk !!! j)) <$> B in
  let Bpart_flat := concat Bpart in
  _ ← require (bool_decide (length Bpart_flat = k_pixel * l0)) ValueError;
  q ← from_option IndexError (_orientation o !! j);
  let Bpart_flat_rot := rot_apply (rot_inv q) <$> Bpart_flat in
  let X := reshape (replicate l0 k_pixel) Bpart_flat_rot in
  _ ← require (bool_decide (length <$> X = length <$> Bpart)) ValueError;
  mret (zip_with (λ x blk, alter (set_slice a b x) j blk) X B).

Definition rotate_general (o : obj) (i k_pixel l0 m : nat) (B : list block)
  : res (list block) :=
  foldlM (rotate_step o i k_pixel l0) B (seq 0 m).

Definition rotation_step (st : gmap objid obj)
    (unrotated_sensors static_sensor_rot : list bool) (k_pixel l0 m : nat)
    (B : list block) (e : nat * objid) : res (list block) :=
  let '(i, sens) := e in
  if (unrotated_sensors !!! i : bool) then mret B
  else if (static_sensor_rot !!! i : bool)
       then rotate_static (st !!! sens) i k_pixel l0 m B
       else rotate_general (st !!! sens) i k_pixel l0 m B.

Definition apply_sensor_rotations (st : gmap objid obj) (sensors : list objid)
    (unrotated_sensors static_sensor_rot : list bool) (k_pixel l0 m : nat)
    (B : list block) : res (list block) :=
  foldlM (rotation_step st unrotated_sensors static_sensor_rot k_pixel l0 m)
         B (enumerate sensors).

(** *** Output shaping *)

Definition flat_blocks (B : list block) : list F :=
  concat (flat3 <$> concat (concat B)).

(** [B.reshape(sh)] *)
Definition np_reshape (sh : list nat) (B : list block) : res ndarray :=
  _ ← require (bool_decide (length (flat_blocks B) = shape_size sh)) ValueError;
  mret (NdArray sh (flat_blocks B)).

(** [np.sum(a, axis=0)] *)
Definition np_sum_axis0 (a : ndarray) : ndarray :=
  let sh := tail (shape a) in
  let sz := shape_size sh in
  NdArray sh
    (match reshape (replicate (hd 0 (shape a)) sz) (data a) with
     | [] => replicate sz F0
     | c :: cs => foldl (zip_with Fadd) c cs
     end).

(** [np.squeeze(a)] *)
Definition np_squeeze (a : ndarray) : ndarray :=
  NdArray (squeeze_shape (shape a)) (data a).

(** ** The field computation between tiling and reset *)

Definition field_array (rt : runtime) (bh : bool) (st : gmap objid obj)
    (srcs src_list sensors : list objid) (pix_shape : list nat)
    (unrotated_sensors static_sensor_rot : list bool) (m : nat)
    (sumup squeeze : bool) : res ndarray :=
  let l0 := length srcs in
  let l := length src_list in
  let k := length sensors in
  poso ← mapM (λ sens, sensor_poso (st !!! sens)) sensors;
  poso ← np_concatenate_axis1 poso;
  let poso := concat poso in
  let n_pp := length poso in
  _ ← require (bool_decide (m ≠ 0)) ZeroDivisionError;
  let n_pix := n_pp / m in
  let '(src_sorted, order) := group_sources st src_list in
  let B := np_empty (uninit rt) l m n_pix in
  B ← foldlM (eval_group bh st m n_pix n_pp poso order) B (enumerate src_sorted);
  B ← collection_sum st srcs l l0 m n_pix B;
  let k_pixel := shape_size (drop_last pix_shape) in
  B ← apply_sensor_rotations st sensors unrotated_sensors static_sensor_rot
                             k_pixel l0 m B;
  let sens_px_shape := k :: pix_shape in
  B ← np_reshape ([l0; m] ++ sens_px_shape) B;
  let B := if sumup then np_sum_axis0 B else B in
  let B := if squeeze then np_squeeze B else B in
  mret B.

(** ** [getBH_level2] *)

(** [unrotated_sensors]: the sensors whose quaternions all equal [unitQ]. *)
Definition unrotated_sensors (st : gmap objid obj) (sensors : list objid)
  : list bool :=
  (λ sens, forallb (λ r, bool_decide (r = unitQ)) (_orientation (st !!! sens)))
    <$> sensors.

(** [zip(reset_obj, reset_obj_m0)]: the objects to tile and to reset, each
    with its original path length. *)
Definition reset_pairs (st : gmap objid obj) (obj_list : list objid)
  : list (objid * nat) :=
  let pls := path_lengths st obj_list in
  let m := max_list pls in
  let mask := mask_reset m pls in
  let reset_obj := select obj_list mask in
  let reset_obj_m0 := select pls mask in
  zip reset_obj reset_obj_m0.

(** The tiling loop with its guard [if m>1]. *)
Definition tile_paths (m : nat) (st : gmap objid obj) (l : list (objid * nat))
  : gmap objid obj * res unit :=
  if decide (1 < m) then tile_loop m st l else (st, mret tt).

(** [observers] is the list of sensors that [format_obs_inputs] returns.
    The result is the store the call leaves behind, and the array or the
    exception. *)
Definition getBH_level2 (rt : runtime) (bh : bool) (srcs observers : list objid)
    (sumup squeeze : bool) (st : gmap objid obj)
  : gmap objid obj * res ndarray :=
  let '(srcs, src_list) := format_src_inputs st srcs in
  if negb (check_dimensions st srcs) then (st, raise MagpylibBadUserInput)
  else if negb (check_excitations st srcs) then (st, raise MagpylibBadUserInput)
  else
  let sensors := observers in
  let pix_shapes := (λ sens, shape (pixel (st !!! sens))) <$> sensors in
  if negb (all_same pix_shapes) then (st, raise MagpylibBadUserInput)
  else
  match head pix_shapes with
  | None => (st, raise IndexError)
  | Some pix_shape =>
  let unrotated := unrotated_sensors st sensors in
  let static_sensor_rot := check_static_sensor_orient st sensors in
  let obj_list := set_iter rt (list_to_set (src_list ++ sensors)) in
  let pls := path_lengths st obj_list in
  match pls with
  | [] => (st, raise ValueError)
  | _ =>
  let m := max_list pls in
  let '(st1, r) := tile_paths m st (reset_pairs st obj_list) in
  match r with
  | inl e => (st1, inl e)
  | inr _ =>
      match field_array rt bh st1 srcs src_list sensors pix_shape
                        unrotated static_sensor_rot m sumup squeeze with
      | inl e => (st1, inl e)
      | inr B => (reset_loop st1 (reset_pairs st obj_list), inr B)
      end
  end
  end
  end.

(** ** Notions used in the statements *)

(** The evaluation flat list and the sensors of a call. *)
Definition participants (st : gmap objid obj) (srcs sensors : list objid)
  : list objid :=
  (format_src_inputs st srcs).2 ++ sensors.

(** [obj_list]: the unique participants in the order the set yields them. *)
Definition obj_list_of (rt : runtime) (st : gmap objid obj)
    (srcs sensors : list objid) : list objid :=
  set_iter rt (list_to_set (participants st srcs sensors)).

(** The common path length [m]. *)
Definition aligned_length (rt : runtime) (st : gmap objid obj)
    (srcs sensors : list objid) : nat :=
  max_list (path_lengths st (obj_list_of rt st srcs sensors)).

(** What Python promises of a set iteration. *)
Definition valid_iter (rt : runtime) : Prop :=
  ∀ X : gset objid, set_iter rt X ≡ₚ elements X.

(** Every path holds a state, and as many orientations as positions. *)
Definition wf_paths (st : gmap objid obj) (xs : list objid) : Prop :=
  ∀ x, x ∈ xs →
    _position (st !!! x) ≠ []
    ∧ length (_orientation (st !!! x)) = length (_position (st !!! x)).

Definition plen (st : gmap objid obj) (x : objid) : nat :=
  length (_position (st !!! x)).
Definition olen (st : gmap objid obj) (x : objid) : nat :=
  length (_orientation (st !!! x)).

(** The object whose path of length [m0] is padded to length [m] with its
    final state. *)
Definition tiled (m m0 : nat) (o : obj) : obj :=
  set_orientation
    (set_position o
       (_position o ++ replicate (m - m0) (default vzero (last (_position o)))))
    (_orientation o ++ replicate (m - m0) (default unitQ (last (_orientation o)))).


(** The shape that is left of [sh] after the optional sum over the leading
    axis and the optional squeeze. *)
Definition out_shape (sumup squeeze : bool) (sh : list nat) : list nat :=
  let sh := if sumup then tail sh else sh in
  if squeeze then squeeze_shape sh else sh.

(** An array as the pair of its shape and its data. *)
Definition view (r : res ndarray) : res (list nat * list F) :=
  (λ B, (shape B, data B)) <$> r.

(** [B] has the shape (l, m, n, 3). *)
Definition regular (l m n : nat) (B : list block) : Prop :=
  length B = l
  ∧ Forall (λ blk : block, length blk = m ∧ Forall (λ px, length px = n) blk) B.

(** The inverse rotation [q] applied to the pixels [a:b] of one path step. *)
Definition back_rotate_px (q : quat) (a b : nat) (px : list vec3) : list vec3 :=
  set_slice a b (rot_apply (rot_inv q) <$> slice a b px) px.

(** Per-step back-rotation of one row of [B]: step [j] is rotated by the
    inverse of the [j]-th orientation. *)
Definition back_rotate_block (qs : list quat) (a b : nat) (blk : block) : block :=
  zip_with (λ q px, back_rotate_px q a b px) qs blk.

(** The row while the loop over [j] has done the first [t] steps. *)
Definition partial_rotate (qs : list quat) (a b t : nat) (blk : block) : block :=
  zip_with (λ q px, back_rotate_px q a b px) (take t qs) (take t blk) ++ drop t blk.

(** The sensors of a call as the rotation phase meets them: every sensor
    has an orientation, and the store [st1] holds it tiled to length [m]. *)
Definition sensors_tiled (st st1 : gmap objid obj) (sensors : list objid) (m : nat)
  : Prop :=
  ∀ sens, sens ∈ sensors →
    _orientation (st !!! sens) ≠ []
    ∧ st1 !!! sens = tiled m (plen st sens) (st !!! sens)
    ∧ olen st1 sens = m.

(** The flat-list entry [e] (index and source) belongs to bucket [b]. *)
Definition in_bucket (st : gmap objid obj) (b : nat) (e : nat * objid) : Prop :=
  bucket_of (_object_type (st !!! e.2)) = Some b.

#[global] Instance in_bucket_dec st b e : Decision (in_bucket st b e).
Proof. unfold in_bucket. apply _. Defined.

(** The members of bucket [b], and their flat-list indices. *)
Definition bucket_members (st : gmap objid obj) (src_list : list objid) (b : nat)
  : list objid :=
  snd <$> filter (in_bucket st b) (enumerate src_list).
Definition bucket_order (st : gmap objid obj) (src_list : list objid) (b : nat)
  : list nat :=
  fst <$> filter (in_bucket st b) (enumerate src_list).

(** The rows [B_group] that the loop body computes for one bucket. *)
Definition group_rows (bh : bool) (st : gmap objid obj) (m n_pix n_pp : nat)
    (poso : list vec3) (group : list objid) : res (list block) :=
  src_dict ← get_src_dict ((λ x, st !!! x) <$> group) n_pix n_pp poso;
  B_group ← getBH_level1 bh src_dict;
  np_reshape4 (length group) m n_pix B_group.

(** Every source of the flat list carries one of the seven tags. *)
Definition known_tags (st : gmap objid obj) (src_list : list objid) : Prop :=
  ∀ x, x ∈ src_list → is_Some (bucket_of (_object_type (st !!! x))).

(** The call with its phases named. *)
Definition call_tail (rt : runtime) (bh : bool) (srcs sensors : list objid)
    (sumup squeeze : bool) (st : gmap objid obj) (pix_shape : list nat)
    (m : nat) (pairs : list (objid * nat)) : gmap objid obj * res ndarray :=
  let '(st1, r) := tile_paths m st pairs in
  match r with
  | inl e => (st1, inl e)
  | inr _ =>
      match field_array rt bh st1 srcs (format_src_inputs st srcs).2 sensors pix_shape
              (unrotated_sensors st sensors) (check_static_sensor_orient st sensors)
              m sumup squeeze with
      | inl e => (st1, inl e)
      | inr B => (reset_loop st1 pairs, inr B)
      end
  end.

(** *** One source against one sensor *)

(** The attribute row that the kernel of the kind of [o] is handed. *)
Definition packed_args (o : obj) : list F :=
  let tag := _object_type o in
  if decide (tag = "Sphere") then flat3 (magnetization o) ++ [diameter o]
  else if decide (tag = "Cuboid") then flat3 (magnetization o) ++ dimension o
  else if decide (tag = "Cylinder") then flat3 (magnetization o) ++ dimension o
  else if decide (tag = "CylinderSegment")
       then flat3 (magnetization o) ++ dimension o
  else if decide (tag = "Dipole") then flat3 (moment o)
  else if decide (tag = "Circular") then [current o; diameter o]
  else if decide (tag = "Line")
       then [current o] ++ concat (flat3 <$> vertices o)
  else [].

(** The dimension of a magnet has the length its kind asks for. *)
Definition wf_attributes (o : obj) : Prop :=
  (_object_type o = "Cuboid" → length (dimension o) = 3)
  ∧ (_object_type o = "Cylinder" → length (dimension o) = 2)
  ∧ (_object_type o = "CylinderSegment" → length (dimension o) = 5).

(** The field of one source along its path at the observation points of
    every step, before the back-rotation. *)
Definition field_block (bh : bool) (o : obj) (steps : list (list vec3)) : block :=
  zip_with (λ pq pts,
              kernel_row bh (_object_type o) (packed_args o) pq.1 pq.2 <$> pts)
           (zip (_position o) (_orientation o)) steps.

(** The kind's own entries of the kernel input for a group of one source
    and [n] observation tuples. *)
Definition single_fields (o : obj) (n : nat) : list (string * list (list F)) :=
  let tag := _object_type o in
  if decide (tag = "Sphere")
  then [("magnetization", replicate n (flat3 (magnetization o)));
        ("diameter", replicate n [diameter o])]
  else if decide (tag = "Cuboid")
  then [("magnetization", replicate n (flat3 (magnetization o)));
        ("dimension", replicate n (dimension o))]
  else if decide (tag = "Cylinder")
  then [("magnetization", replicate n (flat3 (magnetization o)));
        ("dimension", replicate n (dimension o))]
  else if decide (tag = "CylinderSegment")
  then [("magnetization", replicate n (flat3 (magnetization o)));
        ("dimension", replicate n (dimension o))]
  else if decide (tag = "Dipole")
  then [("moment", replicate n (flat3 (moment o)))]
  else if decide (tag = "Circular")
  then [("current", replicate n [current o]); ("diameter", replicate n [diameter o])]
  else [("current", [[current o]]); ("vertices", [concat (flat3 <$> vertices o)])].

(** The observation points of a sensor with pixels [px], one row per path
    step. *)
Definition obs_steps (o : obj) (px : list vec3) : list (list vec3) :=
  (λ '(r, p), (λ v, vadd (rot_apply r v) p) <$> px)
    <$> zip (_orientation o) (_position o).

(** The object resting at the [j]-th state of its path. *)
Definition at_step (j : nat) (o : obj) : obj :=
  set_orientation (set_position o (take 1 (drop j (_position o))))
                  (take 1 (drop j (_orientation o))).

(** *** The phases of a call in closed form *)

(** What [sumup] and [squeeze] do to the assembled array. *)
Definition finish (sumup squeeze : bool) (B : ndarray) : ndarray :=
  let B := if sumup then np_sum_axis0 B else B in
  if squeeze then np_squeeze B else B.

(** The number of rows that a top-level source contributes to [B]. *)
Definition width (st : gmap objid obj) (src : objid) : nat :=
  if decide (_object_type (st !!! src) = "Collection")
  then length (sources (st !!! src)) else 1.

(** The field vector [B[r, j, c]]. *)
Definition at3 (B : list block) (r j c : nat) : option vec3 :=
  blk ← B !! r; px ← blk !! j; px !! c.

(** The orientation of the sensor that owns pixel column [c], at path step
    [j]. *)
Definition frame_of (st : gmap objid obj) (sensors : list objid) (k_pixel j c : nat)
  : option quat :=
  sens ← sensors !! (c / k_pixel); _orientation (st !!! sens) !! j.

(** *** Sources of the kinds without scalar attributes *)

(** The kinds whose attributes are all tiled source by source. *)
Definition vector_kinds : list string :=
  ["Cuboid"; "Cylinder"; "CylinderSegment"; "Dipole"].

(** The kind's own entries of the kernel input for a group of such a kind. *)
Definition vector_fields (t : string) (group : list obj) (n_pp : nat)
  : list (string * list (list F)) :=
  if decide (t = "Dipole")
  then [("moment", ((λ o, flat3 (moment o)) <$> group) ≫= replicate n_pp)]
  else [("magnetization", ((λ o, flat3 (magnetization o)) <$> group) ≫= replicate n_pp);
        ("dimension", (dimension <$> group) ≫= replicate n_pp)].

(** One row of [B] after the rotation phase: for every sensor in turn, its
    pixel columns turned back step by step. *)
Definition frames (look : objid → obj) (sensors : list objid) (k_pixel : nat)
    (blk : block) : block :=
  foldl (λ blk e, back_rotate_block (_orientation (look e.2))
                    (e.1 * k_pixel) ((e.1 + 1) * k_pixel) blk)
        blk (enumerate sensors).

(** The observation points of a call, one row per path step: the pixels of
    the sensors side by side. *)
Definition obs_rows (look : objid → obj) (sensors : list objid)
    (pxs : objid → list vec3) (m : nat) : list (list vec3) :=
  (λ j, concat ((λ sens, obs_steps (look sens) (pxs sens) !!! j) <$> sensors))
    <$> seq 0 m.

(** The object [x] with its path padded to [m] steps. *)
Definition aligned (st : gmap objid obj) (m : nat) (x : objid) : obj :=
  tiled m (plen st x) (st !!! x).

(** The rows of the array that a call returns for sources of the kinds in
    [vector_kinds]: the field of every source along its padded path, in the
    frames of the sensors. *)
Definition call_rows (bh : bool) (st : gmap objid obj) (srcs sensors : list objid)
    (m : nat) (ps : list nat) (pxs : objid → list vec3) : list block :=
  (λ x, frames (aligned st m) sensors (shape_size ps)
          (field_block bh (aligned st m x) (obs_rows (aligned st m) sensors pxs m)))
    <$> srcs.

(** *** The field of a Collection *)

(** A block of shape (m, n, 3). *)
Definition shaped (m n : nat) (blk : block) : Prop :=
  length blk = m ∧ Forall (λ px, length px = n) blk.

End pipeline.

Abbreviation vec3 := (F * F * F)%type.
Abbreviation quat := (F * F * F * F)%type.
Abbreviation block := (list (list vec3)).

(** ** An instance over the integers

    Scalars are integers, a rotation acts by the rotation matrix of its
    quaternion, and the kernel is a bookkeeping function that records which
    attributes, source state and observation point it was handed. *)
Module ZInstance.

Local Open Scope Z_scope.

Definition rotZ (q : Z * Z * Z * Z) (v : Z * Z * Z) : Z * Z * Z :=
  let '(x, y, z, w) := q in
  let '(a, b, c) := v in
  ((1 - 2 * (y * y + z * z)) * a + 2 * (x * y - z * w) * b + 2 * (x * z + y * w) * c,
   2 * (x * y + z * w) * a + (1 - 2 * (x * x + z * z)) * b + 2 * (y * z - x * w) * c,
   2 * (x * z - y * w) * a + 2 * (y * z + x * w) * b + (1 - 2 * (x * x + y * y)) * c).

Definition invZ (q : Z * Z * Z * Z) : Z * Z * Z * Z :=
  let '(x, y, z, w) := q in (- x, - y, - z, w).

(** The field is (first attribute, last attribute, first coordinate of the
    offset between observation point and source). *)
Definition kernelZ (bh : bool) (tag : string) (args : list Z)
    (pos : Z * Z * Z) (q : Z * Z * Z * Z) (obs : Z * Z * Z) : Z * Z * Z :=
  (hd 0 args, List.last args 0, obs.1.1 - pos.1.1).

#[export] Instance numZ : Numerics :=
  {| F := Z; F0 := 0; F1 := 1; Fadd := Z.add;
     rot_apply := rotZ; rot_inv := invZ; kernel_row := kernelZ |}.

#[export] Instance checksZ : InputChecks :=
  {| check_dimensions := λ _ _, true; check_excitations := λ _ _, true |}.

Definition rtZ : runtime := Runtime elements (λ _, 0).

Definition unit_quat : Z * Z * Z * Z := (0, 0, 0, 1).

Definition source (tag : string) (mag : Z * Z * Z) (dim : list Z) (dia : Z)
    (pos : list (Z * Z * Z)) (ori : list (Z * Z * Z * Z)) : obj :=
  Obj tag pos ori (NdArray [] []) mag dim dia mag dia [] [].

Definition sensor (px_shape : list nat) (px : list Z)
    (pos : list (Z * Z * Z)) (ori : list (Z * Z * Z * Z)) : obj :=
  Obj "Sensor" pos ori (NdArray px_shape px) (0, 0, 0) [] 0 (0, 0, 0) 0 [] [].

Definition collection (members : list nat) : obj :=
  Obj "Collection" [(0, 0, 0)] [unit_quat] (NdArray [] []) (0, 0, 0) [] 0
      (0, 0, 0) 0 [] members.

End ZInstance.

(** ** The Collection class

    [magpylib/_lib/obj_classes/class_Collection.py]. A Collection instance
    holds a reference to the list object [_sources]; the instance and the
    list are two Python objects, and [copy.copy] makes a new instance that
    holds the reference to the same list. *)
Module Collection.

Record heap : Type := Heap {
  instances : gmap objid nat;
  lists : gmap nat (list objid)
}.

(** [self._sources] *)
Definition _sources (h : heap) (self : objid) : list objid :=
  lists h !!! (instances h !!! self).

(** [list.remove(x)]: the first occurrence goes, [ValueError] when there
    is none. *)
Fixpoint list_remove (x : objid) (l : list objid) : res (list objid) :=
  match l with
  | [] => raise ValueError
  | y :: l' => if decide (y = x) then mret l'
               else l'' ← list_remove x l'; mret (y :: l'')
  end.

(** [remove]: the list object is changed in place; the method returns
    [self]. *)
Definition remove (self source : objid) (h : heap) : heap * res objid :=
  let a := instances h !!! self in
  match list_remove source (lists h !!! a) with
  | inl e => (h, inl e)
  | inr l' => (Heap (instances h) (<[a := l']> (lists h)), inr self)
  end.

Definition __sub__ (self source : objid) (h : heap) : heap * res objid :=
  remove self source h.

Definition __iter__ (self : objid) (h : heap) : list objid := _sources h self.

(** [copy.copy(self)]: a new instance with the attributes of [self]. *)
Definition copy (self : objid) (h : heap) : heap * objid :=
  let new := fresh (dom (instances h)) in
  (Heap (<[new := instances h !!! self]> (instances h)) (lists h), new).

Section members.

Context `{!Numerics}.

(** The method of the sources that a loop of the Collection calls, with its
    arguments fixed ([s.move(displacement, start, increment)] and the like):
    it changes the source or raises. *)
Variable method : obj → res obj.

(** [for s in self: s.method(...)] *)
Fixpoint for_sources (l : list objid) (st : gmap objid obj)
  : gmap objid obj * res unit :=
  match l with
  | [] => (st, mret tt)
  | s :: l' =>
      match method (st !!! s) with
      | inl e => (st, inl e)
      | inr o' => for_sources l' (<[s := o']> st)
      end
  end.

(** [move], [rotate], [rotate_from_angax], [reset_path]: the loop, then
    [return self]. *)
Definition apply_to_sources (self : objid) (h : heap) (st : gmap objid obj)
  : gmap objid obj * res objid :=
  let '(st', r) := for_sources (__iter__ self h) st in
  (st', (λ _, self) <$> r).

End members.

End Collection.

(** * Properties *)

(** ** The error monad *)

Lemma bind_inr {A B} (f : A → res B) (r : res A) (b : B) :
  r ≫= f = inr b ↔ ∃ a, r = inr a ∧ f a = inr b.
Proof.
  destruct r as [e|a]; simpl; split.
  - intros [=].
  - intros (a & [=] & _).
  - eauto.
  - by intros (a' & [= <-] & ?).
Qed.

Lemma require_inr (b : bool) (e : exn) (u : unit) : require b e = inr u ↔ b = true.
Proof. destruct b, u; simpl; split; intros; congruence. Qed.

Lemma from_option_inr {A} (e : exn) (o : option A) (a : A) :
  from_option e o = inr a ↔ o = Some a.
Proof. destruct o; simpl; split; intros; congruence. Qed.

Lemma inr_bind {A B} (a : A) (f : A → res B) : (inr a ≫= f) = f a.
Proof. done. Qed.

Lemma require_true_bind {B} (e : exn) (f : unit → res B) :
  (require true e ≫= f) = f tt.
Proof. done. Qed.

Lemma foldlM_snoc {A B} (f : A → B → res A) (a : A) (l : list B) (x : B) :
  foldlM f a (l ++ [x]) = foldlM f a l ≫= λ a', f a' x.
Proof.
  revert a. induction l as [|y l IH]; intros a; simpl.
  - by destruct (f a x).
  - destruct (f a y); simpl; [done|]. apply IH.
Qed.

Lemma foldlM_ext_inv {A B} (P : A → Prop) (f g : A → B → res A) (l : list B) (a : A) :
  P a →
  (∀ a x, x ∈ l → P a → f a x = g a x) →
  (∀ a x a', x ∈ l → P a → g a x = inr a' → P a') →
  foldlM f a l = foldlM g a l.
Proof.
  revert a. induction l as [|x l IH]; intros a Ha Hfg Hg; simpl; [done|].
  rewrite (Hfg a x) by (done || left).
  destruct (g a x) as [e|a'] eqn:E; simpl; [done|].
  apply IH.
  - eapply Hg; [left|done..].
  - intros ????. apply Hfg; [by right|done].
  - intros ?????. eapply Hg; [by right|done..].
Qed.

(** Peel the successful steps off a computation known to return. *)
Ltac res_inv H :=
  repeat match type of H with
  | _ ≫= _ = inr _ =>
      let a := fresh "a" in let H1 := fresh "H" in
      apply bind_inr in H as (a & H1 & H);
      first [ apply require_inr in H1; try apply bool_decide_eq_true in H1
            | apply from_option_inr in H1
            | idtac ]
  | mret _ = inr _ => injection H as H
  | inr _ = inr _ => injection H as H
  | inl _ = inr _ => discriminate H
  | raise _ = inr _ => discriminate H
  end.

(** ** Lists *)

Lemma reshape_concat {A} (n : nat) (X : list (list A)) :
  Forall (λ r, length r = n) X → reshape (replicate (length X) n) (concat X) = X.
Proof.
  induction 1 as [|r X Hr HX IH]; simpl; [done|].
  rewrite take_app_length', drop_app_length' by done. by rewrite IH.
Qed.

Lemma length_concat_regular {A} (n : nat) (X : list (list A)) :
  Forall (λ r, length r = n) X → length (concat X) = length X * n.
Proof.
  induction 1 as [|r X Hr HX IH]; simpl; [done|].
  rewrite length_app. lia.
Qed.

Lemma length_slice {A} (a b : nat) (l : list A) :
  b ≤ length l → length (slice a b l) = b - a.
Proof. intros. unfold slice. rewrite length_take, length_drop. lia. Qed.

Lemma length_set_slice {A} (a b : nat) (x l : list A) :
  a ≤ b → b ≤ length l → length x = b - a → length (set_slice a b x l) = length l.
Proof.
  intros. unfold set_slice. rewrite !length_app, length_take, length_drop.
  rewrite length_slice by done. lia.
Qed.

Lemma set_slice_id {A} (a b : nat) (l : list A) :
  a ≤ b → b ≤ length l → set_slice a b (slice a b l) l = l.
Proof.
  intros. unfold set_slice. rewrite length_slice by done. unfold slice.
  replace (a + (b - a)) with b by lia.
  rewrite <- (take_drop a l) at 4. f_equal.
  rewrite <- (take_drop (b - a) (drop a l)) at 2. f_equal.
  rewrite drop_drop. f_equal. lia.
Qed.

Lemma elem_of_enumerate {A} (l : list A) i x :
  (i, x) ∈ enumerate l ↔ l !! i = Some x.
Proof.
  unfold enumerate. rewrite elem_of_lookup_imap. split.
  - by intros (j & y & [= -> ->] & ?).
  - intros ?. by exists i, x.
Qed.

Lemma all_equal_replicate {A} (l : list A) (x : A) :
  (∀ y, y ∈ l → y = x) → l = replicate (length l) x.
Proof.
  induction l as [|y l IH]; intros Hl; simpl; [done|].
  rewrite (Hl y) by left. f_equal. apply IH. intros. apply Hl. by right.
Qed.

(** ** Path alignment *)

Section alignment.

Context `{!Numerics, !InputChecks}.

Lemma select_zip_fmap {A B} (f : A → B) (h : B → bool) (xs : list A) :
  zip (select xs (h <$> (f <$> xs))) (select (f <$> xs) (h <$> (f <$> xs)))
  = (λ x, (x, f x)) <$> filter (λ x, Is_true (h (f x))) xs.
Proof.
  unfold select. induction xs as [|x xs IH]; [done|]. simpl.
  rewrite !filter_cons. simpl. destruct (h (f x)); simpl; [|done].
  f_equal. apply IH.
Qed.

Lemma reset_pairs_filter st ol :
  reset_pairs st ol
  = (λ x, (x, plen st x)) <$>
      filter (λ x, Is_true (bool_decide (max_list (path_lengths st ol) ≠ plen st x))) ol.
Proof.
  unfold reset_pairs, mask_reset, path_lengths.
  apply (select_zip_fmap (λ x, length (_position (st !!! x)))
           (λ pl, bool_decide (max_list ((λ x, length (_position (st !!! x))) <$> ol) ≠ pl))).
Qed.

Lemma reset_pairs_fst st ol :
  (reset_pairs st ol).*1 = filter (λ x, max_list (path_lengths st ol) ≠ plen st x) ol.
Proof.
  rewrite reset_pairs_filter, <- list_fmap_compose.
  etrans; [apply (list_fmap_id)|]. 
  apply list_filter_iff. intros x. by rewrite bool_decide_spec.
Qed.

Lemma reset_pairs_elem st ol x m0 :
  (x, m0) ∈ reset_pairs st ol ↔
  x ∈ ol ∧ m0 = plen st x ∧ max_list (path_lengths st ol) ≠ plen st x.
Proof.
  rewrite reset_pairs_filter, list_elem_of_fmap. split.
  - intros (y & [= -> ->] & Hy). apply list_elem_of_filter in Hy as [Hy ?].
    apply bool_decide_unpack in Hy. done.
  - intros (? & -> & ?). exists x. split; [done|]. apply list_elem_of_filter.
    split; [|done]. by apply bool_decide_pack.
Qed.

Lemma tile_obj_inr m m0 o o' u :
  tile_obj m m0 o = (o', inr u) ↔
  o' = tiled m m0 o ∧ _position o ≠ [] ∧ _orientation o ≠ [].
Proof.
  unfold tile_obj, tiled. destruct u.
  destruct (last (_position o)) as [p|] eqn:Hp; simpl.
  - destruct (last (_orientation o)) as [q|] eqn:Hq; simpl.
    + split.
      * intros [= <-]. split_and!; [done| |]; intros E; rewrite E in *; done.
      * by intros (-> & _ & _).
    + apply last_None in Hq. split; [intros [=]|]. by intros (_ & _ & ?).
  - apply last_None in Hp. split; [intros [=]|]. by intros (_ & ? & _).
Qed.

Lemma tile_loop_inr m l : ∀ st st1 u,
  NoDup l.*1 →
  tile_loop m st l = (st1, inr u) →
  (∀ y m0, (y, m0) ∈ l →
     st1 !!! y = tiled m m0 (st !!! y)
     ∧ _position (st !!! y) ≠ [] ∧ _orientation (st !!! y) ≠ [])
  ∧ (∀ y, y ∉ l.*1 → st1 !! y = st !! y).
Proof.
  induction l as [|[x m0] l IH]; intros st st1 u Hnd Hl; simpl in Hl.
  - injection Hl as <-. split; [|done]. intros ?? ?%elem_of_nil. done.
  - destruct (tile_obj m m0 (st !!! x)) as [o' [e|[]]] eqn:Ho; [done|].
    apply tile_obj_inr in Ho as (-> & Hp & Hq).
    apply NoDup_cons in Hnd as [Hx Hnd].
    destruct (IH _ _ _ Hnd Hl) as [IH1 IH2]. split.
    + intros y n [[= -> ->]|Hy]%elem_of_cons.
      * split; [|done]. rewrite lookup_total_alt. rewrite IH2 by done.
        by rewrite lookup_insert_eq.
      * assert (y ≠ x).
        { intros ->. apply Hx. apply list_elem_of_fmap. by exists (x, n). }
        pose proof (IH1 _ _ Hy) as IHy.
        by rewrite !lookup_total_insert_ne in IHy.
    + intros y Hy. apply not_elem_of_cons in Hy as [? ?].
      rewrite IH2 by done. by rewrite lookup_insert_ne.
Qed.

Lemma tile_loop_ok m l : ∀ st,
  NoDup l.*1 →
  (∀ y m0, (y, m0) ∈ l → _position (st !!! y) ≠ [] ∧ _orientation (st !!! y) ≠ []) →
  ∃ st1, tile_loop m st l = (st1, inr tt).
Proof.
  induction l as [|[x m0] l IH]; intros st Hnd Hwf; simpl; [by eexists|].
  apply NoDup_cons in Hnd as [Hx Hnd].
  destruct (Hwf x m0) as [Hp Hq]; [left|].
  destruct (tile_obj m m0 (st !!! x)) as [o' r] eqn:Ho.
  assert (r = inr tt) as ->.
  { pose proof (proj2 (tile_obj_inr m m0 (st !!! x) _ tt) (conj eq_refl (conj Hp Hq))).
    congruence. }
  apply IH; [done|]. intros y n Hy.
  assert (y ≠ x).
  { intros ->. apply Hx. apply list_elem_of_fmap. by exists (x, n). }
  rewrite lookup_total_insert_ne by done. apply (Hwf y n). by right.
Qed.

Lemma reset_loop_spec l : ∀ st,
  NoDup l.*1 →
  (∀ y m0, (y, m0) ∈ l → reset_loop st l !!! y = reset_obj_path m0 (st !!! y))
  ∧ (∀ y, y ∉ l.*1 → reset_loop st l !! y = st !! y).
Proof.
  unfold reset_loop.
  induction l as [|[x m0] l IH]; intros st Hnd; simpl.
  - split; [|done]. intros ?? ?%elem_of_nil. done.
  - apply NoDup_cons in Hnd as [Hx Hnd].
    destruct (IH (<[x:=reset_obj_path m0 (st !!! x)]> st) Hnd) as [IH1 IH2]. split.
    + intros y n [[= -> ->]|Hy]%elem_of_cons.
      * rewrite lookup_total_alt. rewrite IH2 by done. by rewrite lookup_insert_eq.
      * assert (y ≠ x).
        { intros ->. apply Hx. apply list_elem_of_fmap. by exists (x, n). }
        rewrite (IH1 _ _ Hy). by rewrite !lookup_total_insert_ne.
    + intros y Hy. apply not_elem_of_cons in Hy as [? ?].
      rewrite IH2 by done. by rewrite lookup_insert_ne.
Qed.

Lemma reset_tiled m o :
  length (_orientation o) = length (_position o) →
  reset_obj_path (length (_position o)) (tiled m (length (_position o)) o) = o.
Proof.
  intros Hlen. destruct o; simpl in *.
  unfold reset_obj_path, tiled, set_orientation, set_position; simpl.
  rewrite take_app_length. rewrite <- Hlen, take_app_length. done.
Qed.


Lemma getBH_level2_inr rt bh srcs sensors sumup squeeze st st' B :
  getBH_level2 rt bh srcs sensors sumup squeeze st = (st', inr B) ↔
  let pix_shapes := (λ sens, shape (pixel (st !!! sens))) <$> sensors in
  let ol := obj_list_of rt st srcs sensors in
  let m := aligned_length rt st srcs sensors in
  check_dimensions st srcs = true ∧ check_excitations st srcs = true
  ∧ all_same pix_shapes = true ∧ ol ≠ []
  ∧ ∃ pix_shape st1,
      head pix_shapes = Some pix_shape
      ∧ tile_paths m st (reset_pairs st ol) = (st1, inr tt)
      ∧ field_array rt bh st1 srcs (format_src_inputs st srcs).2 sensors pix_shape
          (unrotated_sensors st sensors) (check_static_sensor_orient st sensors)
          m sumup squeeze = inr B
      ∧ st' = reset_loop st1 (reset_pairs st ol).
Proof.
  unfold getBH_level2, aligned_length, obj_list_of, participants. simpl.
  set (ol := set_iter rt _).
  destruct (check_dimensions st srcs); simpl;
    [|split; [intros [=]|intros (? & _); done]].
  destruct (check_excitations st srcs); simpl;
    [|split; [intros [=]|intros (_ & ? & _); done]].
  destruct (all_same _); simpl;
    [|split; [intros [=]|intros (_ & _ & ? & _); done]].
  destruct (head _) as [pix_shape|];
    [|split; [intros [=]|intros (_ & _ & _ & _ & ? & ? & ? & _); done]].
  destruct (path_lengths st ol) eqn:Hpl.
  { destruct ol; [|done]. split; [intros [=]|intros (_ & _ & _ & ? & _); done]. }
  rewrite <- Hpl.
  assert (ol ≠ []) by (intros E; by rewrite E in Hpl).
  destruct (tile_paths _ st _) as [st1 [e|[]]] eqn:Ht.
  { split; [intros [=]|intros (_ & _ & _ & _ & ? & ? & _ & [=] & _)]. }
  destruct (field_array _ _ _ _ _ _ _ _ _ _ _ _) as [e|B'] eqn:HB.
  - split; [intros [=]|].
    intros (_ & _ & _ & _ & ? & ? & [= <-] & [= <-] & ? & _). congruence.
  - split.
    + intros [= <- <-]. split_and!; try done. by exists pix_shape, st1.
    + intros (_ & _ & _ & _ & ? & ? & [= <-] & [= <-] & ? & ->). congruence.
Qed.

Lemma valid_iter_NoDup rt X : valid_iter rt → NoDup (set_iter rt X).
Proof. intros Hv. rewrite (Hv X). apply NoDup_elements. Qed.

Lemma valid_iter_elem rt (l : list objid) x :
  valid_iter rt → x ∈ set_iter rt (list_to_set l) ↔ x ∈ l.
Proof. intros Hv. rewrite (Hv _), elem_of_elements, elem_of_list_to_set. done. Qed.

Lemma reset_pairs_NoDup st ol : NoDup ol → NoDup (reset_pairs st ol).*1.
Proof. intros. rewrite reset_pairs_fst. by apply NoDup_filter. Qed.

Lemma plen_le_max st ol x : x ∈ ol → plen st x ≤ max_list (path_lengths st ol).
Proof.
  intros Hx. apply max_list_elem_of_le. unfold path_lengths.
  apply list_elem_of_fmap. by exists x.
Qed.

(** The state of the participants while the field is computed. *)
Lemma tile_paths_aligned st ol st1 :
  NoDup ol → ol ≠ [] → wf_paths st ol →
  tile_paths (max_list (path_lengths st ol)) st (reset_pairs st ol) = (st1, inr tt) →
  ∀ x, x ∈ ol →
    st1 !!! x = tiled (max_list (path_lengths st ol)) (plen st x) (st !!! x)
    ∧ plen st1 x = max_list (path_lengths st ol)
    ∧ olen st1 x = max_list (path_lengths st ol).
Proof.
  intros Hnd Hne Hwf Ht x Hx. set (m := max_list _) in *.
  pose proof (plen_le_max st ol x Hx) as Hle. fold m in Hle.
  destruct (Hwf x Hx) as [Hp Ho].
  assert (0 < plen st x) by (unfold plen; destruct (_position (st !!! x)); simpl; [done|lia]).
  unfold tile_paths in Ht. destruct (decide (1 < m)) as [Hm|Hm].
  - apply tile_loop_inr in Ht as [Ht1 Ht2]; [|by apply reset_pairs_NoDup].
    destruct (decide (m = plen st x)) as [Heq|Hneq].
    + assert (st1 !!! x = st !!! x) as Hst.
      { rewrite !lookup_total_alt. rewrite Ht2; [done|].
        rewrite reset_pairs_fst. intros [? _]%list_elem_of_filter. done. }
      unfold plen, olen in *. rewrite Hst, Ho, <- Heq. split; [|done].
      unfold tiled. rewrite Nat.sub_diag. simpl. rewrite !app_nil_r.
      by destruct (st !!! x).
    + destruct (Ht1 x (plen st x)) as (Hst & _ & _).
      { apply reset_pairs_elem. done. }
      split; [done|]. unfold plen, olen in *. rewrite Hst. unfold tiled; simpl.
      rewrite !length_app, !length_replicate. lia.
  - injection Ht as <-. assert (m = plen st x) as Heq by lia.
    unfold plen, olen in *. rewrite Ho, <- Heq. split; [|done].
    unfold tiled. rewrite Nat.sub_diag. simpl. rewrite !app_nil_r.
    by destruct (st !!! x).
Qed.

Lemma restored_lookup st ol st1 :
  NoDup ol → 
  (∀ x, x ∈ ol → length (_orientation (st !!! x)) = length (_position (st !!! x))) →
  tile_paths (max_list (path_lengths st ol)) st (reset_pairs st ol) = (st1, inr tt) →
  ∀ x, reset_loop st1 (reset_pairs st ol) !!! x = st !!! x.
Proof.
  intros Hnd Hwf Ht x. set (m := max_list _) in *.
  destruct (reset_loop_spec (reset_pairs st ol) st1) as [Hr1 Hr2];
    [by apply reset_pairs_NoDup|].
  unfold tile_paths in Ht. destruct (decide (1 < m)) as [Hm|Hm].
  - apply tile_loop_inr in Ht as [Ht1 Ht2]; [|by apply reset_pairs_NoDup].
    destruct (decide (x ∈ (reset_pairs st ol).*1)) as [Hin|Hin].
    + apply list_elem_of_fmap in Hin as ([y m0] & -> & Hin). simpl.
      rewrite (Hr1 _ _ Hin). destruct (Ht1 _ _ Hin) as (-> & _).
      apply reset_pairs_elem in Hin as (Hy & -> & _).
      apply reset_tiled. by apply Hwf.
    + rewrite !lookup_total_alt. rewrite Hr2 by done. by rewrite Ht2.
  - injection Ht as <-.
    destruct (decide (x ∈ (reset_pairs st ol).*1)) as [Hin|Hin].
    + apply list_elem_of_fmap in Hin as ([y m0] & -> & Hin). simpl.
      rewrite (Hr1 _ _ Hin).
      apply reset_pairs_elem in Hin as (Hy & -> & _).
      unfold reset_obj_path, plen. simpl. rewrite <- (Hwf y Hy) at 2.
      rewrite !firstn_all. by destruct (st !!! y).
    + rewrite !lookup_total_alt. by rewrite Hr2.
Qed.

(** C1: when a call returns, the tiling loop has brought every participating
    source and sensor to the common length [m] by appending copies of its
    final state, the field was computed on that store, and the reset loop
    gives every object back as it was before the call: position and
    orientation paths have their original length again, also for the
    objects whose length was [m] from the start. *)
Theorem paths_restored_after_call rt bh srcs sensors sumup squeeze st st' B :
  valid_iter rt →
  wf_paths st (participants st srcs sensors) →
  getBH_level2 rt bh srcs sensors sumup squeeze st = (st', inr B) →
  let m := aligned_length rt st srcs sensors in
  let pairs := reset_pairs st (obj_list_of rt st srcs sensors) in
  ∃ st1,
    tile_paths m st pairs = (st1, inr tt)
    ∧ (∀ x, x ∈ participants st srcs sensors →
         plen st x ≤ m
         ∧ st1 !!! x = tiled m (plen st x) (st !!! x)
         ∧ plen st1 x = m ∧ olen st1 x = m)
    ∧ st' = reset_loop st1 pairs
    ∧ (∀ x, st' !!! x = st !!! x)
    ∧ (∀ x, plen st' x = plen st x ∧ olen st' x = olen st x).
Proof.
  intros Hv Hwf Hcall m pairs.
  apply getBH_level2_inr in Hcall
    as (_ & _ & _ & Hne & pix_shape & st1 & _ & Ht & _ & ->).
  fold m pairs in Ht. exists st1.
  assert (Hnd : NoDup (obj_list_of rt st srcs sensors)).
  { unfold obj_list_of. by apply valid_iter_NoDup. }
  assert (Hwf' : wf_paths st (obj_list_of rt st srcs sensors)).
  { intros x Hx. apply Hwf. by apply (valid_iter_elem rt _ x Hv). }
  assert (Hrest : ∀ x, reset_loop st1 pairs !!! x = st !!! x).
  { apply restored_lookup; [done| |done]. intros x Hx. by apply Hwf'. }
  split_and!; [done| |done|done|].
  - intros x Hx. apply (valid_iter_elem rt _ x Hv) in Hx.
    fold (obj_list_of rt st srcs sensors) in Hx.
    destruct (tile_paths_aligned st _ st1 Hnd Hne Hwf' Ht x Hx) as (? & ? & ?).
    split_and!; try done. by apply plen_le_max.
  - intros x. unfold plen, olen. by rewrite Hrest.
Qed.

(** C6: when the sensors do not all have the same pixel shape, the call
    raises [MagpylibBadUserInput] and leaves the store as it was: the check
    comes before the tiling loop and before any field is computed, and no
    array is returned. *)
Theorem pixel_shape_mismatch_rejected rt bh srcs sensors sumup squeeze st :
  all_same ((λ sens, shape (pixel (st !!! sens))) <$> sensors) = false →
  getBH_level2 rt bh srcs sensors sumup squeeze st = (st, inl MagpylibBadUserInput).
Proof.
  intros Hshape. unfold getBH_level2. simpl.
  destruct (check_dimensions st srcs); [|done].
  destruct (check_excitations st srcs); [|done].
  simpl. by rewrite Hshape.
Qed.



End alignment.

(** ** Output shape *)

Section shaping.

Context `{!Numerics, !InputChecks}.

Lemma view_inr (r : res ndarray) sh d :
  view r = inr (sh, d) → r = inr (NdArray sh d).
Proof. destruct r as [e|[sh' d']]; simpl; [done|]. by intros [= -> ->]. Qed.

Lemma call_returns rt bh srcs sensors sumup squeeze st sh d :
  view (getBH_level2 rt bh srcs sensors sumup squeeze st).2 = inr (sh, d) →
  getBH_level2 rt bh srcs sensors sumup squeeze st
  = ((getBH_level2 rt bh srcs sensors sumup squeeze st).1, inr (NdArray sh d)).
Proof.
  intros Hv%view_inr. rewrite <- Hv. apply surjective_pairing.
Qed.

Lemma field_array_shape rt bh st srcs src_list sensors pix_shape unrot static m
    sumup squeeze B :
  field_array rt bh st srcs src_list sensors pix_shape unrot static m sumup squeeze
    = inr B →
  ∃ B0, shape B0 = [length srcs; m; length sensors] ++ pix_shape
    ∧ length (data B0) = shape_size (shape B0)
    ∧ B = (if squeeze then np_squeeze else id) ((if sumup then np_sum_axis0 else id) B0)
    ∧ shape B = out_shape sumup squeeze (shape B0).
Proof.
  unfold field_array. intros H1.
  destruct (group_sources st src_list) as [src_sorted order].
  res_inv H1. subst B.
  match goal with Hr : np_reshape _ _ = inr ?a |- _ =>
    exists a; unfold np_reshape in Hr; res_inv Hr; subst end.
  unfold out_shape. simpl. split_and!; try done; by destruct sumup, squeeze.
Qed.

Lemma all_same_spec (shapes : list (list nat)) s0 :
  all_same shapes = true → head shapes = Some s0 → ∀ s, s ∈ shapes → s = s0.
Proof.
  destruct shapes as [|s1 shapes]; [done|]. intros Hall [= ->] s Hs.
  unfold all_same in Hall. rewrite forallb_forall in Hall.
  apply list_elem_of_In, Hall in Hs. by apply bool_decide_eq_true in Hs.
Qed.

(** C4: a call that returns has reshaped the field to
    (L0, m, K, pixel-shape..., 3): L0 top-level sources, the aligned path
    length m, K sensors and the pixel shape that all sensors share. With
    [sumup] the leading axis is summed away first, and with [squeeze] every
    axis of length 1 is dropped after that; without both the array has the
    full shape. *)
Theorem output_shape rt bh srcs sensors sumup squeeze st st' B ps :
  getBH_level2 rt bh srcs sensors sumup squeeze st = (st', inr B) →
  (∃ sens, sens ∈ sensors ∧ shape (pixel (st !!! sens)) = ps ++ [3]) →
  let full := [length srcs; aligned_length rt st srcs sensors; length sensors]
              ++ ps ++ [3] in
  (∀ sens, sens ∈ sensors → shape (pixel (st !!! sens)) = ps ++ [3])
  ∧ ∃ B0, shape B0 = full
      ∧ length (data B0) = shape_size full
      ∧ B = (if squeeze then np_squeeze else id)
              ((if sumup then np_sum_axis0 else id) B0)
      ∧ shape B = out_shape sumup squeeze full.
Proof.
  intros Hcall (sens0 & Hs0 & Hps) full.
  apply getBH_level2_inr in Hcall
    as (_ & _ & Hsame & Hne & pix_shape & st1 & Hhd & Ht & HB & ->).
  assert (Hall : ∀ sens, sens ∈ sensors → shape (pixel (st !!! sens)) = pix_shape).
  { intros sens Hs. eapply all_same_spec; [done..|].
    apply list_elem_of_fmap. by exists sens. }
  assert (pix_shape = ps ++ [3]) as -> by (by rewrite <- (Hall sens0 Hs0)).
  split; [done|].
  apply field_array_shape in HB as (B0 & Hsh & Hlen & -> & Hout).
  exists B0. rewrite Hout, Hlen, Hsh. done.
Qed.

End shaping.

(** ** Sensor back-rotation *)

Section rotation.

Context `{!Numerics, !InputChecks}.

Lemma np_reshape4_concat (l m n : nat) (X : list block) :
  regular l m n X → np_reshape4 l m n (concat (concat X)) = inr X.
Proof.
  intros [Hl HX]. unfold np_reshape4.
  assert (Hc : Forall (λ r : list vec3, length r = n) (concat X)).
  { apply Forall_concat. eapply Forall_impl; [done|]. by intros ? [_ ?]. }
  assert (Hm : Forall (λ r : list (list vec3), length r = m) X).
  { eapply Forall_impl; [done|]. by intros ? [? _]. }
  assert (length (concat X) = l * m).
  { rewrite (length_concat_regular m) by done. by rewrite Hl. }
  rewrite (length_concat_regular n) by done.
  rewrite bool_decide_eq_true_2 by congruence. simpl. f_equal.
  replace (l * m) with (length (concat X)) by done.
  rewrite reshape_concat by done. rewrite <- Hl. by rewrite reshape_concat.
Qed.

Lemma regular_slice l m n a b (B : list block) :
  regular l m n B → b ≤ n →
  regular l m (b - a) ((λ blk : list (list vec3), slice a b <$> blk) <$> B).
Proof.
  intros [Hl HB] Hb. split; [by rewrite length_fmap|].
  apply Forall_fmap. eapply Forall_impl; [done|]. intros blk [Hm Hpx]. simpl.
  split; [by rewrite length_fmap|]. apply Forall_fmap.
  eapply Forall_impl; [done|]. intros px Hlen. simpl. apply length_slice. by rewrite Hlen.
Qed.

Lemma regular_fmap3 l m n (f : vec3 → vec3) (B : list block) :
  regular l m n B →
  regular l m n ((λ blk : list (list vec3), (λ px : list vec3, f <$> px) <$> blk) <$> B).
Proof.
  intros [Hl HB]. split; [by rewrite length_fmap|].
  apply Forall_fmap. eapply Forall_impl; [done|]. intros blk [Hm Hpx]. simpl.
  split; [by rewrite length_fmap|]. apply Forall_fmap.
  eapply Forall_impl; [done|]. intros px Hlen. simpl. by rewrite length_fmap.
Qed.

Lemma concat_fmap3 (f : vec3 → vec3) (B : list block) :
  f <$> concat (concat B)
  = concat (concat ((λ blk : list (list vec3), (λ px : list vec3, f <$> px) <$> blk) <$> B)).
Proof.
  induction B as [|blk B IH]; simpl; [done|].
  rewrite !concat_app, fmap_app, IH. f_equal.
  clear. induction blk as [|px blk IH]; simpl; [done|].
  by rewrite fmap_app, IH.
Qed.

Lemma rotate_static_spec o i k_pixel l0 m n q (B : list block) :
  regular l0 m n B → (i + 1) * k_pixel ≤ n →
  _orientation o !! 0 = Some q →
  rotate_static o i k_pixel l0 m B
  = inr (back_rotate_block (replicate m q) (i * k_pixel) ((i + 1) * k_pixel) <$> B).
Proof.
  intros HB Hn Hq. unfold rotate_static.
  set (a := i * k_pixel). set (b := (i + 1) * k_pixel).
  assert (b - a = k_pixel) as Hba by (unfold a, b; lia).
  pose proof (regular_slice l0 m n a b B HB Hn) as HBp. rewrite Hba in HBp.
  set (Bpart := (λ blk : list (list vec3), slice a b <$> blk) <$> B) in *.
  pose proof (regular_fmap3 _ _ _ (rot_apply (rot_inv q)) _ HBp) as HX.
  assert (length (concat (concat Bpart)) = k_pixel * l0 * m) as Hlen.
  { destruct HBp as [Hl HBp].
    rewrite (length_concat_regular k_pixel).
    - rewrite (length_concat_regular m); [lia|].
      eapply Forall_impl; [done|]. by intros ? [? _].
    - apply Forall_concat. eapply Forall_impl; [done|]. by intros ? [_ ?]. }
  rewrite bool_decide_eq_true_2, require_true_bind by done. cbv beta.
  rewrite Hq. cbn [from_option]. rewrite inr_bind. cbv beta.
  rewrite concat_fmap3, (np_reshape4_concat _ _ _ _ HX), inr_bind. cbv beta.
  rewrite bool_decide_eq_true_2, require_true_bind.
  2:{ unfold Bpart. rewrite <- !list_fmap_compose. apply list_fmap_ext.
      intros _ blk _. simpl. unfold block_shape. rewrite <- !list_fmap_compose.
      apply list_fmap_ext. intros _ px _. simpl. by rewrite length_fmap. }
  simpl. f_equal. unfold Bpart. rewrite <- list_fmap_compose.
  rewrite zip_with_fmap_l, zip_with_diag.
  apply Forall_fmap_ext_1. destruct HB as [_ HB].
  eapply Forall_impl; [done|]. intros blk [Hm Hpx]. simpl.
  rewrite <- list_fmap_compose, zip_with_fmap_l, zip_with_diag.
  unfold back_rotate_block. rewrite <- Hm. rewrite zip_with_replicate_l by done.
  done.
Qed.

Lemma concat_fmap2 (f : vec3 → vec3) (X : list (list vec3)) :
  f <$> concat X = concat ((λ px : list vec3, f <$> px) <$> X).
Proof.
  induction X as [|px X IH]; simpl; [done|]. by rewrite fmap_app, IH.
Qed.

Lemma rotate_step_spec o i k_pixel l0 m n q j (B : list block) :
  regular l0 m n B → (i + 1) * k_pixel ≤ n → j < m →
  _orientation o !! j = Some q →
  rotate_step o i k_pixel l0 B j
  = inr ((λ blk : block,
            alter (λ px, back_rotate_px q (i * k_pixel) ((i + 1) * k_pixel) px) j blk)
           <$> B).
Proof.
  intros [Hl HB] Hn Hj Hq. unfold rotate_step.
  set (a := i * k_pixel). set (b := (i + 1) * k_pixel).
  assert (b - a = k_pixel) as Hba by (unfold a, b; lia).
  set (Bpart := (λ blk : block, slice a b (blk !!! j)) <$> B).
  assert (HBp : Forall (λ r : list vec3, length r = k_pixel) Bpart).
  { apply Forall_fmap. eapply Forall_impl; [done|]. intros blk [Hm Hpx]. simpl.
    rewrite length_slice; [done|].
    destruct (lookup_lt_is_Some_2 blk j) as [px Hpx']; [lia|].
    rewrite (list_lookup_total_correct _ _ _ Hpx').
    rewrite Forall_forall in Hpx. rewrite (Hpx px); [done|].
    by eapply list_elem_of_lookup_2. }
  assert (length Bpart = l0) as HlB by (unfold Bpart; by rewrite length_fmap).
  rewrite (length_concat_regular k_pixel), HlB by done.
  rewrite bool_decide_eq_true_2, require_true_bind by lia. cbv beta.
  rewrite Hq. cbn [from_option]. rewrite inr_bind. cbv beta zeta.
  rewrite concat_fmap2.
  replace (replicate l0 k_pixel) with
    (replicate (length ((λ px : list vec3, rot_apply (rot_inv q) <$> px) <$> Bpart))
               k_pixel) by (by rewrite length_fmap, HlB).
  rewrite reshape_concat.
  2:{ apply Forall_fmap. eapply Forall_impl; [done|]. intros px Hpx. simpl.
      by rewrite length_fmap. }
  rewrite bool_decide_eq_true_2, require_true_bind.
  2:{ rewrite <- list_fmap_compose. apply list_fmap_ext. intros _ px _. simpl.
      by rewrite length_fmap. }
  cbv beta. f_equal. unfold Bpart. rewrite <- list_fmap_compose.
  rewrite zip_with_fmap_l, zip_with_diag.
  apply list_fmap_ext. intros _ blk _. simpl.
  apply list_alter_ext; [|done]. intros px Hpx.
  by rewrite (list_lookup_total_correct _ _ _ Hpx).
Qed.

Lemma regular_back_rotate_alter l0 m n q a b j (B : list block) :
  regular l0 m n B → a ≤ b → b ≤ n →
  regular l0 m n ((λ blk : block, alter (λ px, back_rotate_px q a b px) j blk) <$> B).
Proof.
  intros [Hl HB] Hab Hb. split; [by rewrite length_fmap|].
  apply Forall_fmap. eapply Forall_impl; [done|]. intros blk [Hm Hpx]. simpl.
  split; [by rewrite length_alter|].
  rewrite Forall_lookup in Hpx. apply Forall_lookup. intros k px Hk.
  rewrite list_lookup_alter in Hk. case_decide.
  - subst. destruct (blk !! k) as [px'|] eqn:E; [|done]. simpl in Hk.
    injection Hk as <-. pose proof (Hpx _ _ E). unfold back_rotate_px.
    rewrite length_set_slice; [done..|lia|].
    rewrite length_fmap, length_slice; lia.
  - by eapply Hpx.
Qed.

Lemma partial_rotate_S qs a b t q (blk : block) :
  qs !! t = Some q → t < length blk →
  alter (λ px, back_rotate_px q a b px) t (partial_rotate qs a b t blk)
  = partial_rotate qs a b (S t) blk.
Proof.
  intros Hq Ht. unfold partial_rotate.
  destruct (lookup_lt_is_Some_2 blk t Ht) as [px Hpx].
  pose proof (lookup_lt_Some _ _ _ Hq) as Hqt.
  rewrite alter_app_r_alt; rewrite length_zip_with, !length_take; [|lia].
  replace (t - _) with 0 by lia.
  rewrite (drop_S _ _ _ Hpx). simpl.
  rewrite (take_S_r _ _ _ Hq), (take_S_r _ _ _ Hpx).
  rewrite zip_with_app; [|rewrite !length_take; lia]. simpl.
  by rewrite <- app_assoc.
Qed.

Lemma rotate_general_partial o i k_pixel l0 m n (B : list block) t :
  regular l0 m n B → (i + 1) * k_pixel ≤ n → t ≤ m → m ≤ length (_orientation o) →
  foldlM (rotate_step o i k_pixel l0) B (seq 0 t)
  = inr (partial_rotate (_orientation o) (i * k_pixel) ((i + 1) * k_pixel) t <$> B).
Proof.
  intros HB Hn Ht Hm. induction t as [|t IH].
  - simpl. f_equal. symmetry. etrans; [|apply list_fmap_id].
    apply list_fmap_ext. intros _ blk _. unfold partial_rotate. simpl. by rewrite drop_0.
  - rewrite seq_S. simpl. rewrite foldlM_snoc, IH by lia. rewrite inr_bind.
    destruct (lookup_lt_is_Some_2 (_orientation o) t) as [q Hq]; [lia|].
    assert (HBt : regular l0 m n
              (partial_rotate (_orientation o) (i * k_pixel) ((i + 1) * k_pixel) t <$> B)).
    { destruct HB as [Hl HB]. split; [by rewrite length_fmap|].
      apply Forall_fmap. eapply Forall_impl; [done|]. intros blk [Hlm Hpx]. simpl.
      unfold partial_rotate. split.
      - rewrite length_app, length_zip_with, !length_take, length_drop. lia.
      - apply Forall_app. split; [|by apply Forall_drop].
        apply Forall_zip_with_snd with (P := λ px : list vec3, length px = n).
        + apply Forall_true. intros q' px Hlen. unfold back_rotate_px.
          rewrite length_set_slice; [done|lia|lia|].
          rewrite length_fmap, length_slice; lia.
        + by apply Forall_take. }
    rewrite (rotate_step_spec _ _ _ _ m n q t _ HBt) by (done || lia).
    f_equal. rewrite <- list_fmap_compose. destruct HB as [_ HB].
    apply Forall_fmap_ext_1. eapply Forall_impl; [done|]. intros blk [Hlm _]. simpl.
    apply partial_rotate_S; [done|lia].
Qed.

Lemma rotate_general_spec o i k_pixel l0 m n (B : list block) :
  regular l0 m n B → (i + 1) * k_pixel ≤ n → m ≤ length (_orientation o) →
  rotate_general o i k_pixel l0 m B
  = inr (back_rotate_block (take m (_orientation o)) (i * k_pixel) ((i + 1) * k_pixel)
           <$> B).
Proof.
  intros HB Hn Hm. unfold rotate_general.
  rewrite (rotate_general_partial _ _ _ _ m n) by done. f_equal.
  destruct HB as [_ HB]. apply Forall_fmap_ext_1.
  eapply Forall_impl; [done|]. intros blk [Hlm _]. simpl.
  unfold partial_rotate, back_rotate_block.
  rewrite drop_ge, app_nil_r by lia. by rewrite (take_ge blk) by lia.
Qed.

Lemma back_rotate_block_unit m n a b (blk : block) :
  (∀ v, rot_apply (rot_inv unitQ) v = v) →
  length blk = m → Forall (λ px, length px = n) blk → a ≤ b → b ≤ n →
  back_rotate_block (replicate m unitQ) a b blk = blk.
Proof.
  intros Hid <- Hpx Hab Hb. unfold back_rotate_block.
  rewrite zip_with_replicate_l by done.
  etrans; [|apply list_fmap_id]. apply Forall_fmap_ext_1.
  eapply Forall_impl; [done|]. intros px Hlen. simpl. unfold back_rotate_px.
  rewrite (list_fmap_ext (rot_apply (rot_inv unitQ)) id (slice a b px));
    [|intros; by apply Hid].
  rewrite list_fmap_id. simpl in Hlen. apply set_slice_id; lia.
Qed.

Lemma forallb_tiled (P : quat → bool) (qs : list quat) t d :
  qs ≠ [] → forallb P qs = true →
  ∀ q, q ∈ qs ++ replicate t (default d (last qs)) → P q = true.
Proof.
  intros Hne Hall q Hq. rewrite forallb_forall in Hall.
  apply Hall, list_elem_of_In. apply elem_of_app in Hq as [Hq|Hq]; [done|].
  apply elem_of_replicate in Hq as [-> _].
  destruct (last qs) as [q'|] eqn:E; [|by apply last_None in E].
  simpl. by eapply last_Some_elem_of.
Qed.

Section agree.
Variables (st st1 : gmap objid obj) (sens : objid) (m : nat).
Hypothesis Hne : _orientation (st !!! sens) ≠ [].
Hypothesis Htiled : st1 !!! sens = tiled m (plen st sens) (st !!! sens).
Hypothesis Holen : olen st1 sens = m.

Lemma unit_orientation_path :
  forallb (λ r, bool_decide (r = unitQ)) (_orientation (st !!! sens)) = true →
  take m (_orientation (st1 !!! sens)) = replicate m unitQ.
Proof using Hne Htiled Holen.
  intros Hall. rewrite take_ge by (unfold olen in Holen; lia).
  rewrite <- Holen. unfold olen. apply all_equal_replicate.
  rewrite Htiled. simpl. intros q Hq.
  apply (forallb_tiled _ _ _ _ Hne Hall) in Hq. by apply bool_decide_eq_true in Hq.
Qed.

Lemma static_orientation_path q0 :
  static_orient (_orientation (st !!! sens)) = true →
  _orientation (st1 !!! sens) !! 0 = Some q0 →
  take m (_orientation (st1 !!! sens)) = replicate m q0.
Proof using Hne Htiled Holen.
  intros Hall Hq0. rewrite take_ge by (unfold olen in Holen; lia).
  rewrite <- Holen. unfold olen. apply all_equal_replicate.
  rewrite Htiled in *. simpl in *. intros q Hq.
  destruct (_orientation (st !!! sens)) as [|q1 qs] eqn:E; [done|].
  simpl in Hq0. injection Hq0 as ->. unfold static_orient in Hall.
  rewrite <- E in Hq, Hall, Hne.
  apply (forallb_tiled _ _ _ _ Hne Hall) in Hq. by apply bool_decide_eq_true in Hq.
Qed.
End agree.

Lemma rotation_step_general st st1 sensors k_pixel l0 m (B : list block) i sens :
  (∀ v, rot_apply (rot_inv unitQ) v = v) →
  sensors !! i = Some sens →
  _orientation (st !!! sens) ≠ [] →
  st1 !!! sens = tiled m (plen st sens) (st !!! sens) →
  olen st1 sens = m →
  regular l0 m (length sensors * k_pixel) B →
  rotation_step st1 (unrotated_sensors st sensors)
    (check_static_sensor_orient st sensors) k_pixel l0 m B (i, sens)
  = rotate_general (st1 !!! sens) i k_pixel l0 m B.
Proof.
  intros Hid Hi Hne Ht Ho HB. unfold rotation_step.
  pose proof (lookup_lt_Some _ _ _ Hi) as Hlt.
  assert ((i + 1) * k_pixel ≤ length sensors * k_pixel) as Hn by nia.
  rewrite (rotate_general_spec _ _ _ _ _ _ _ HB Hn) by (unfold olen in Ho; lia).
  unfold unrotated_sensors, check_static_sensor_orient.
  rewrite !list_lookup_total_alt, !list_lookup_fmap, Hi. cbn [fmap option_fmap option_map default].
  destruct (forallb _ _) eqn:Hunit.
  - rewrite (unit_orientation_path st st1 sens m) by done. f_equal.
    symmetry. etrans; [|apply list_fmap_id]. destruct HB as [_ HB].
    apply Forall_fmap_ext_1. eapply Forall_impl; [done|]. intros blk [Hm Hpx]. simpl.
    eapply back_rotate_block_unit; [done..|lia|done].
  - destruct (static_orient _) eqn:Hstatic; [|done].
    destruct (lookup_lt_is_Some_2 (_orientation (st1 !!! sens)) 0) as [q0 Hq0].
    { unfold olen in Ho. rewrite Ho. unfold tiled in Ht.
      destruct (decide (m = 0)) as [->|]; [|lia].
      rewrite Ht in Ho. simpl in Ho. rewrite length_app in Ho.
      destruct (_orientation (st !!! sens)); [done|simpl in Ho; lia]. }
    rewrite (rotate_static_spec _ _ _ _ _ _ q0 _ HB Hn Hq0).
    by rewrite (static_orientation_path st st1 sens m) with (q0 := q0).
Qed.

Lemma regular_back_rotate_block l0 m n qs a b (B : list block) :
  regular l0 m n B → a ≤ b → b ≤ n → length qs = m →
  regular l0 m n (back_rotate_block qs a b <$> B).
Proof.
  intros [Hl HB] Hab Hb Hqs. split; [by rewrite length_fmap|].
  apply Forall_fmap. eapply Forall_impl; [done|]. intros blk [Hm Hpx]. simpl.
  unfold back_rotate_block. split; [rewrite length_zip_with; lia|].
  apply Forall_zip_with_snd with (P := λ px : list vec3, length px = n); [|done].
  apply Forall_true. intros q' px Hlen. unfold back_rotate_px.
  rewrite length_set_slice; [done|lia|lia|].
  rewrite length_fmap, length_slice; lia.
Qed.

Lemma rotation_step_all_general st1 k k_pixel l0 m (B : list block) i sens :
  i < k →
  rotation_step st1 (replicate k false) (replicate k false) k_pixel l0 m B (i, sens)
  = rotate_general (st1 !!! sens) i k_pixel l0 m B.
Proof.
  intros Hi. unfold rotation_step.
  by rewrite !list_lookup_total_alt, !lookup_replicate_2.
Qed.

(** C8: the rotation phase with the flags the call computes (no rotation for
    a sensor with unit orientation throughout, one batched inverse rotation
    for a sensor with one orientation throughout) gives the same array as
    the phase that takes the loop over the path steps for every sensor. *)
Theorem fast_rotation_paths_agree st st1 sensors k_pixel l0 m (B : list block) :
  (∀ v, rot_apply (rot_inv unitQ) v = v) →
  sensors_tiled st st1 sensors m →
  regular l0 m (length sensors * k_pixel) B →
  apply_sensor_rotations st1 sensors (unrotated_sensors st sensors)
    (check_static_sensor_orient st sensors) k_pixel l0 m B
  = apply_sensor_rotations st1 sensors (replicate (length sensors) false)
      (replicate (length sensors) false) k_pixel l0 m B.
Proof.
  intros Hid Hs HB. unfold apply_sensor_rotations.
  apply (foldlM_ext_inv (regular l0 m (length sensors * k_pixel))); [done| |].
  - intros B' [i sens] Hin HB'. apply elem_of_enumerate in Hin.
    destruct (Hs sens) as (Hne & Ht & Ho); [by eapply list_elem_of_lookup_2|].
    rewrite (rotation_step_general st st1 sensors k_pixel l0 m B' i sens) by done.
    symmetry. apply rotation_step_all_general. by eapply lookup_lt_Some.
  - intros B' [i sens] B'' Hin HB' Hstep. apply elem_of_enumerate in Hin.
    pose proof (lookup_lt_Some _ _ _ Hin) as Hlt.
    destruct (Hs sens) as (Hne & Ht & Ho); [by eapply list_elem_of_lookup_2|].
    rewrite rotation_step_all_general in Hstep by done.
    assert ((i + 1) * k_pixel ≤ length sensors * k_pixel) as Hn by nia.
    rewrite (rotate_general_spec _ _ _ _ _ _ _ HB' Hn) in Hstep
      by (unfold olen in Ho; lia).
    injection Hstep as <-. apply regular_back_rotate_block; [done|lia|done|].
    rewrite length_take. unfold olen in Ho. lia.
Qed.
End rotation.

(** ** Grouping and scatter-back *)

Section grouping.

Context `{!Numerics, !InputChecks}.

Lemma bucket_of_lt t b : bucket_of t = Some b → b < 7.
Proof.
  unfold bucket_of. repeat case_decide; intros [= <-]; lia.
Qed.

Lemma group_foldl st (l : list (nat * objid)) : ∀ acc1 acc2,
  foldl (group_step st) (acc1, acc2) l
  = (imap (λ b g, g ++ (snd <$> filter (in_bucket st b) l)) acc1,
     imap (λ b g, g ++ (fst <$> filter (in_bucket st b) l)) acc2).
Proof.
  induction l as [|[i src] l IH]; intros acc1 acc2; simpl.
  - f_equal; apply list_eq; intros b; rewrite list_lookup_imap;
      destruct (_ !! b); simpl; by rewrite ?app_nil_r.
  - destruct (bucket_of (_object_type (st !!! src))) as [b|] eqn:Hb; rewrite IH.
    + f_equal; apply list_eq; intros b'; rewrite !list_lookup_imap, list_lookup_alter;
        (destruct (decide (b = b')) as [->|Hne];
         [rewrite filter_cons_True by done; destruct (_ !! b'); simpl; [|done];
          by rewrite <- app_assoc
         |rewrite filter_cons_False; [done|unfold in_bucket; simpl; congruence]]).
    + f_equal; apply imap_ext; intros b g _;
        (rewrite filter_cons_False; [done|unfold in_bucket; simpl; congruence]).
Qed.

Lemma group_sources_spec st src_list :
  group_sources st src_list
  = (bucket_members st src_list <$> seq 0 7, bucket_order st src_list <$> seq 0 7).
Proof.
  unfold group_sources. rewrite group_foldl. done.
Qed.

Lemma length_bucket st src_list b :
  length (bucket_order st src_list b) = length (bucket_members st src_list b).
Proof. unfold bucket_order, bucket_members. by rewrite !length_fmap. Qed.

Lemma elem_of_bucket_order st src_list b i :
  i ∈ bucket_order st src_list b ↔
  ∃ src, src_list !! i = Some src ∧ bucket_of (_object_type (st !!! src)) = Some b.
Proof.
  unfold bucket_order. rewrite list_elem_of_fmap. split.
  - intros ([j src] & -> & [Hb Hin]%list_elem_of_filter).
    apply elem_of_enumerate in Hin. by exists src.
  - intros (src & Hi & Hb). exists (i, src). split; [done|].
    apply list_elem_of_filter. split; [done|]. by apply elem_of_enumerate.
Qed.

Lemma elem_of_bucket_members st src_list b src :
  src ∈ bucket_members st src_list b ↔
  src ∈ src_list ∧ bucket_of (_object_type (st !!! src)) = Some b.
Proof.
  unfold bucket_members. rewrite list_elem_of_fmap. split.
  - intros ([j src'] & -> & [Hb Hin]%list_elem_of_filter).
    apply elem_of_enumerate in Hin. split; [|done]. by eapply list_elem_of_lookup_2.
  - intros ([i Hi]%list_elem_of_lookup_1 & Hb). exists (i, src). split; [done|].
    apply list_elem_of_filter. split; [done|]. by apply elem_of_enumerate.
Qed.

Lemma bucket_order_lt st src_list b i :
  i ∈ bucket_order st src_list b → i < length src_list.
Proof.
  intros (src & Hi & _)%elem_of_bucket_order. by eapply lookup_lt_Some.
Qed.

Lemma eval_group_rows bh st m n_pix n_pp poso order (B : list block) iii group :
  eval_group bh st m n_pix n_pp poso order B (iii, group)
  = if bool_decide (group = []) then inr B
    else group_rows bh st m n_pix n_pp poso group
         ≫= λ B_group, inr (scatter (order !!! iii) B_group B (length group)).
Proof.
  unfold eval_group, group_rows. case_bool_decide; [done|].
  destruct (get_src_dict _ _ _ _) as [e|d]; simpl; [done|].
  destruct (getBH_level1 bh d) as [e|Bg]; simpl; [done|]. done.
Qed.

Lemma scatter_agree (ord : list nat) (Bg : list block) (js : list nat) :
  ∀ (W : nat → Prop) (B B' : list block),
  length B = length B' → (∀ i, W i → B !! i = B' !! i) →
  length (foldl (λ B i, <[ord !!! i := Bg !!! i]> B) B js)
  = length (foldl (λ B i, <[ord !!! i := Bg !!! i]> B) B' js)
  ∧ ∀ i, (W i ∨ ∃ j, j ∈ js ∧ ord !!! j = i) →
      foldl (λ B i, <[ord !!! i := Bg !!! i]> B) B js !! i
      = foldl (λ B i, <[ord !!! i := Bg !!! i]> B) B' js !! i.
Proof.
  induction js as [|j js IH]; intros W B B' Hlen HW; simpl.
  - split; [done|]. intros i [Hi|(j & Hj & _)]; [by apply HW|by apply elem_of_nil in Hj].
  - destruct (IH (λ i, W i ∨ ord !!! j = i) (<[ord !!! j := Bg !!! j]> B)
                (<[ord !!! j := Bg !!! j]> B')) as [IH1 IH2].
    + by rewrite !length_insert.
    + intros i Hi. rewrite !list_lookup_insert, Hlen.
      case_decide as Hd; [done|]. destruct Hi as [Hi| <-]; [by apply HW|].
      rewrite !lookup_ge_None_2; [done|lia..].
    + split; [done|]. intros i Hi. apply IH2.
      destruct Hi as [Hi|(j' & [->|Hj']%elem_of_cons & Hi)]; eauto.
Qed.

Lemma eval_groups_agree bh st m n_pix n_pp poso order
    (es : list (nat * list objid)) :
  ∀ (W : nat → Prop) (B B' : list block),
  length B = length B' → (∀ i, W i → B !! i = B' !! i) →
  (∀ e, e ∈ es → length (order !!! e.1) = length e.2) →
  match foldlM (eval_group bh st m n_pix n_pp poso order) B es,
        foldlM (eval_group bh st m n_pix n_pp poso order) B' es with
  | inr C, inr C' =>
      length C = length C'
      ∧ ∀ i, (W i ∨ ∃ e, e ∈ es ∧ e.2 ≠ [] ∧ i ∈ order !!! e.1) → C !! i = C' !! i
  | inl x, inl x' => x = x'
  | _, _ => False
  end.
Proof.
  induction es as [|[iii group] es IH]; intros W B B' Hlen HW Hord; cbn [foldlM].
  - split; [done|]. intros i [Hi|(e & He & _)]; [by apply HW|by apply elem_of_nil in He].
  - assert (Hord' : ∀ e, e ∈ es → length (order !!! e.1) = length e.2)
      by (intros; apply Hord; by right).
    rewrite !eval_group_rows. case_bool_decide as Hg.
    + rewrite !inr_bind. specialize (IH W B B' Hlen HW Hord').
      destruct (foldlM _ B es), (foldlM _ B' es); try done.
      destruct IH as [IH1 IH2]. split; [done|].
      intros i [Hi|(e & [->|He]%elem_of_cons & Hne & Hi)];
        [apply IH2; by left|done|apply IH2; right; by exists e].
    + destruct (group_rows _ _ _ _ _ _ _) as [x|Bg]; [done|].
      rewrite !inr_bind. unfold scatter.
      destruct (scatter_agree (order !!! iii) Bg (seq 0 (length group)) W B B' Hlen HW)
        as [Hs1 Hs2].
      specialize (IH (λ i, W i ∨ ∃ j, j ∈ seq 0 (length group) ∧ (order !!! iii) !!! j = i)
                    _ _ Hs1 Hs2 Hord').
      destruct (foldlM _ _ es), (foldlM _ _ es); try done.
      destruct IH as [IH1 IH2]. split; [done|].
      intros i [Hi|(e & [->|He]%elem_of_cons & Hne & Hi)].
      * apply IH2. left. by left.
      * apply IH2. left. right. simpl in Hi.
        apply list_elem_of_lookup_1 in Hi as [j Hj].
        exists j. split.
        -- apply elem_of_seq. pose proof (lookup_lt_Some _ _ _ Hj) as Hlt.
           pose proof (Hord (iii, group) ltac:(left)) as Hlg. simpl in Hlg. lia.
        -- by apply list_lookup_total_correct.
      * apply IH2. right. by exists e.
Qed.

Lemma length_scatter (ord : list nat) (Bg B : list block) lg :
  length (scatter ord Bg B lg) = length B.
Proof.
  unfold scatter. generalize (seq 0 lg). intros js. revert B.
  induction js as [|j js IH]; intros B; simpl; [done|].
  by rewrite IH, length_insert.
Qed.

Lemma eval_groups_length bh st m n_pix n_pp poso order
    (es : list (nat * list objid)) : ∀ (B C : list block),
  foldlM (eval_group bh st m n_pix n_pp poso order) B es = inr C →
  length C = length B.
Proof.
  induction es as [|[iii group] es IH]; intros B C; cbn [foldlM].
  - by intros [= ->].
  - rewrite eval_group_rows. case_bool_decide.
    + rewrite inr_bind. apply IH.
    + destruct (group_rows _ _ _ _ _ _ _) as [x|Bg]; [done|].
      rewrite !inr_bind. intros ->%IH. apply length_scatter.
Qed.

Lemma length_np_empty u l m n : length (np_empty u l m n) = l.
Proof. unfold np_empty. by rewrite length_reshape, length_replicate. Qed.

Lemma lookup_buckets {A} (f : nat → A) b :
  ((f <$> seq 0 7) !! b = if decide (b < 7) then Some (f b) else None).
Proof.
  rewrite list_lookup_fmap. case_decide.
  - by rewrite lookup_seq_lt.
  - by rewrite lookup_seq_ge by lia.
Qed.

Lemma eval_groups_uninit bh st m n_pix n_pp poso src_list (B B' : list block) :
  known_tags st src_list →
  length B = length src_list → length B' = length src_list →
  foldlM (eval_group bh st m n_pix n_pp poso (bucket_order st src_list <$> seq 0 7))
         B (enumerate (bucket_members st src_list <$> seq 0 7))
  = foldlM (eval_group bh st m n_pix n_pp poso (bucket_order st src_list <$> seq 0 7))
         B' (enumerate (bucket_members st src_list <$> seq 0 7)).
Proof.
  intros Hk HB HB'.
  set (order := bucket_order st src_list <$> seq 0 7).
  set (es := enumerate (bucket_members st src_list <$> seq 0 7)).
  assert (Hes : ∀ b g, (b, g) ∈ es ↔ b < 7 ∧ g = bucket_members st src_list b).
  { intros b g. unfold es. rewrite elem_of_enumerate, lookup_buckets.
    case_decide; [|split; [done|intros [? _]; lia]].
    split; [by intros [= <-]|by intros [_ ->]]. }
  assert (Hord : ∀ b, b < 7 → order !!! b = bucket_order st src_list b).
  { intros b Hb. apply list_lookup_total_correct. unfold order.
    rewrite lookup_buckets. by rewrite decide_True. }
  pose proof (eval_groups_agree bh st m n_pix n_pp poso order es (λ _, False) B B') as H1.
  pose proof (eval_groups_length bh st m n_pix n_pp poso order es B) as H2.
  pose proof (eval_groups_length bh st m n_pix n_pp poso order es B') as H3.
  destruct (foldlM _ B es) as [x|C], (foldlM _ B' es) as [x'|C'].
  - f_equal. apply H1; [congruence|done|].
    intros [b g] [Hb ->]%Hes. simpl. rewrite Hord by done. apply length_bucket.
  - destruct H1; [congruence|done|].
    intros [b g] [Hb ->]%Hes. simpl. rewrite Hord by done. apply length_bucket.
  - destruct H1; [congruence|done|].
    intros [b g] [Hb ->]%Hes. simpl. rewrite Hord by done. apply length_bucket.
  - destruct H1 as [Hl Hag]; [congruence|done| |].
    { intros [b g] [Hb ->]%Hes. simpl. rewrite Hord by done. apply length_bucket. }
    f_equal. apply list_eq. intros i.
    destruct (src_list !! i) as [src|] eqn:Hi.
    + apply Hag. right. destruct (Hk src) as [b Hb]; [by eapply list_elem_of_lookup_2|].
      pose proof (bucket_of_lt _ _ Hb) as Hlt.
      exists (b, bucket_members st src_list b). split_and!.
      * by apply Hes.
      * simpl. intros Hnil.
        assert (src ∈ bucket_members st src_list b) as Hin.
        { apply elem_of_bucket_members. split; [by eapply list_elem_of_lookup_2|done]. }
        rewrite Hnil in Hin. by apply elem_of_nil in Hin.
      * simpl. rewrite Hord by done. apply elem_of_bucket_order. by exists src.
    + apply lookup_ge_None in Hi.
      rewrite !lookup_ge_None_2; [done| |].
      * rewrite (H3 C') by done. lia.
      * rewrite (H2 C) by done. lia.
Qed.

Lemma field_array_uninit rt rt' bh st srcs src_list sensors pix_shape unrot static m
    sumup squeeze :
  known_tags st src_list →
  field_array rt bh st srcs src_list sensors pix_shape unrot static m sumup squeeze
  = field_array rt' bh st srcs src_list sensors pix_shape unrot static m sumup squeeze.
Proof.
  intros Hk. unfold field_array.
  destruct (mapM _ sensors) as [x|poso]; [done|]. rewrite !inr_bind.
  destruct (np_concatenate_axis1 poso) as [x|poso']; [done|]. rewrite !inr_bind.
  destruct (require _ _) as [x|[]]; [done|]. rewrite !inr_bind.
  rewrite group_sources_spec.
  set (n_pp := length (concat poso')). set (n_pix := n_pp / m).
  rewrite (eval_groups_uninit bh st m n_pix n_pp (concat poso') src_list
             (np_empty (uninit rt) (length src_list) m n_pix)
             (np_empty (uninit rt') (length src_list) m n_pix));
    [done|done|apply length_np_empty..].
Qed.

End grouping.

(** ** Determinism *)

Section determinism.

Context `{!Numerics, !InputChecks}.

Lemma tile_loop_lookup m l : ∀ st st1 u,
  NoDup l.*1 →
  tile_loop m st l = (st1, inr u) →
  ∀ y m0, (y, m0) ∈ l → st1 !! y = Some (tiled m m0 (st !!! y)).
Proof.
  induction l as [|[x m0] l IH]; intros st st1 u Hnd Hl y n Hy; simpl in Hl.
  - by apply elem_of_nil in Hy.
  - destruct (tile_obj m m0 (st !!! x)) as [o' [e|[]]] eqn:Ho; [done|].
    apply tile_obj_inr in Ho as (-> & Hp & Hq).
    apply NoDup_cons in Hnd as [Hx Hnd].
    apply elem_of_cons in Hy as [[= -> ->]|Hy].
    + destruct (tile_loop_inr _ _ _ _ _ Hnd Hl) as [_ H2].
      rewrite H2 by done. by rewrite lookup_insert_eq.
    + assert (y ≠ x).
      { intros ->. apply Hx. apply list_elem_of_fmap. by exists (x, n). }
      rewrite (IH _ _ _ Hnd Hl y n Hy). by rewrite lookup_total_insert_ne.
Qed.

Lemma tile_loop_inl m l : ∀ st st1 e, tile_loop m st l = (st1, inl e) → e = IndexError.
Proof.
  induction l as [|[x m0] l IH]; intros st st1 e Hl; simpl in Hl; [done|].
  destruct (tile_obj m m0 (st !!! x)) as [o' [e'|[]]] eqn:Ho.
  - injection Hl as _ <-. unfold tile_obj in Ho.
    destruct (last (_position (st !!! x))); [|by injection Ho as _ <-].
    destruct (last (_orientation _)); [done|by injection Ho as _ <-].
  - by eapply IH.
Qed.

Lemma reset_loop_lookup l : ∀ st,
  NoDup l.*1 →
  ∀ y m0, (y, m0) ∈ l → reset_loop st l !! y = Some (reset_obj_path m0 (st !!! y)).
Proof.
  unfold reset_loop.
  induction l as [|[x m0] l IH]; intros st Hnd y n Hy; simpl.
  - by apply elem_of_nil in Hy.
  - apply NoDup_cons in Hnd as [Hx Hnd].
    apply elem_of_cons in Hy as [[= -> ->]|Hy].
    + destruct (reset_loop_spec l (<[x:=reset_obj_path m0 (st !!! x)]> st) Hnd) as [_ H2].
      unfold reset_loop in H2. rewrite H2 by done. by rewrite lookup_insert_eq.
    + assert (y ≠ x).
      { intros ->. apply Hx. apply list_elem_of_fmap. by exists (x, n). }
      rewrite (IH _ Hnd y n Hy). by rewrite lookup_total_insert_ne.
Qed.

Lemma reset_loop_perm l l' st :
  NoDup l.*1 → l ≡ₚ l' → reset_loop st l = reset_loop st l'.
Proof.
  intros Hnd Hp.
  assert (Hnd' : NoDup l'.*1) by (by rewrite <- Hp).
  apply map_eq. intros y.
  destruct (decide (y ∈ l.*1)) as [Hin|Hin].
  - apply list_elem_of_fmap in Hin as ([y' m0] & -> & Hin). simpl.
    rewrite (reset_loop_lookup l st Hnd _ _ Hin).
    rewrite Hp in Hin. by rewrite (reset_loop_lookup l' st Hnd' _ _ Hin).
  - destruct (reset_loop_spec l st Hnd) as [_ ->]; [|done].
    rewrite Hp in Hin. by destruct (reset_loop_spec l' st Hnd') as [_ ->].
Qed.

Lemma tile_loop_perm m l l' st :
  NoDup l.*1 → l ≡ₚ l' →
  (tile_loop m st l).2 = (tile_loop m st l').2
  ∧ ((tile_loop m st l).2 = inr tt → tile_loop m st l = tile_loop m st l').
Proof.
  intros Hnd Hp.
  assert (Hnd' : NoDup l'.*1) by (by rewrite <- Hp).
  destruct (tile_loop m st l) as [st1 [e|[]]] eqn:H1;
    destruct (tile_loop m st l') as [st1' [e'|[]]] eqn:H1'; simpl.
  - apply tile_loop_inl in H1, H1'. subst. done.
  - exfalso. destruct (tile_loop_inr _ _ _ _ _ Hnd' H1') as [Hok _].
    destruct (tile_loop_ok m l st Hnd) as [st2 H2]; [|congruence].
    intros y m0 Hy. rewrite Hp in Hy. by destruct (Hok y m0 Hy) as (_ & ? & ?).
  - exfalso. destruct (tile_loop_inr _ _ _ _ _ Hnd H1) as [Hok _].
    destruct (tile_loop_ok m l' st Hnd') as [st2 H2]; [|congruence].
    intros y m0 Hy. rewrite <- Hp in Hy. by destruct (Hok y m0 Hy) as (_ & ? & ?).
  - split; [done|]. intros _. f_equal. apply map_eq. intros y.
    destruct (decide (y ∈ l.*1)) as [Hin|Hin].
    + apply list_elem_of_fmap in Hin as ([y' m0] & -> & Hin). simpl.
      rewrite (tile_loop_lookup _ _ _ _ _ Hnd H1 _ _ Hin).
      rewrite Hp in Hin. by rewrite (tile_loop_lookup _ _ _ _ _ Hnd' H1' _ _ Hin).
    + destruct (tile_loop_inr _ _ _ _ _ Hnd H1) as [_ ->]; [|done].
      rewrite Hp in Hin. by destruct (tile_loop_inr _ _ _ _ _ Hnd' H1') as [_ ->].
Qed.

Lemma reset_pairs_perm st ol ol' :
  ol ≡ₚ ol' → reset_pairs st ol ≡ₚ reset_pairs st ol'.
Proof.
  intros Hp. rewrite !reset_pairs_filter.
  assert (max_list (path_lengths st ol) = max_list (path_lengths st ol')) as ->.
  { unfold path_lengths. by rewrite Hp. }
  by rewrite Hp.
Qed.

Lemma obj_list_perm rt1 rt2 st srcs sensors :
  valid_iter rt1 → valid_iter rt2 →
  obj_list_of rt1 st srcs sensors ≡ₚ obj_list_of rt2 st srcs sensors.
Proof. intros H1 H2. unfold obj_list_of. by rewrite (H1 _), (H2 _). Qed.

Lemma tile_paths_perm m l l' st :
  NoDup l.*1 → l ≡ₚ l' →
  (tile_paths m st l).2 = (tile_paths m st l').2
  ∧ ((tile_paths m st l).2 = inr tt → tile_paths m st l = tile_paths m st l').
Proof.
  intros Hnd Hp. unfold tile_paths. case_decide; [by apply tile_loop_perm|done].
Qed.

Ltac not_ok := unfold is_ok; simpl; intros [? ?]; discriminate.

Lemma getBH_level2_eq rt bh srcs sensors sumup squeeze st :
  getBH_level2 rt bh srcs sensors sumup squeeze st
  = if negb (check_dimensions st srcs) then (st, raise MagpylibBadUserInput)
    else if negb (check_excitations st srcs) then (st, raise MagpylibBadUserInput)
    else if negb (all_same ((λ sens, shape (pixel (st !!! sens))) <$> sensors))
    then (st, raise MagpylibBadUserInput)
    else match head ((λ sens, shape (pixel (st !!! sens))) <$> sensors) with
         | None => (st, raise IndexError)
         | Some pix_shape =>
             match path_lengths st (obj_list_of rt st srcs sensors) with
             | [] => (st, raise ValueError)
             | _ => call_tail rt bh srcs sensors sumup squeeze st pix_shape
                      (aligned_length rt st srcs sensors)
                      (reset_pairs st (obj_list_of rt st srcs sensors))
             end
         end.
Proof. reflexivity. Qed.

Lemma tile_paths_type m l st st1 :
  NoDup l.*1 → tile_paths m st l = (st1, inr tt) →
  ∀ x, _object_type (st1 !!! x) = _object_type (st !!! x).
Proof.
  intros Hnd Ht x. unfold tile_paths in Ht. case_decide; [|by injection Ht as <-].
  destruct (tile_loop_inr _ _ _ _ _ Hnd Ht) as [Hin1 Hout].
  destruct (decide (x ∈ l.*1)) as [Hin|Hin].
  - apply list_elem_of_fmap in Hin as ([y m0] & -> & Hin). simpl.
    by destruct (Hin1 _ _ Hin) as (-> & _).
  - by rewrite !lookup_total_alt, Hout.
Qed.

Lemma call_tail_perm rt1 rt2 bh srcs sensors sumup squeeze st pix_shape m l l' :
  known_tags st (format_src_inputs st srcs).2 →
  NoDup l.*1 → l ≡ₚ l' →
  (call_tail rt1 bh srcs sensors sumup squeeze st pix_shape m l).2
  = (call_tail rt2 bh srcs sensors sumup squeeze st pix_shape m l').2
  ∧ (is_ok (call_tail rt1 bh srcs sensors sumup squeeze st pix_shape m l).2 →
     call_tail rt1 bh srcs sensors sumup squeeze st pix_shape m l
     = call_tail rt2 bh srcs sensors sumup squeeze st pix_shape m l').
Proof.
  intros Hk Hnd Hp. unfold call_tail.
  destruct (tile_paths_perm m l l' st Hnd Hp) as [Ht1 Ht2].
  destruct (tile_paths m st l) as [st1 [e|[]]] eqn:T1.
  - destruct (tile_paths m st l') as [st1' r']. simpl in Ht1. subst r'.
    split; [done|]. not_ok.
  - rewrite <- (Ht2 eq_refl).
    rewrite (field_array_uninit rt1 rt2).
    2:{ intros x Hx. rewrite (tile_paths_type _ _ _ _ Hnd T1). by apply Hk. }
    destruct (field_array rt2 _ _ _ _ _ _ _ _ _ _ _); [split; [done|not_ok]|].
    split; [done|]. intros _. f_equal. by apply reset_loop_perm.
Qed.

(** Two calls on the same store with the same arguments return the same
    array (or raise the same exception) whatever order the set of unique
    participants is iterated in and whatever the fresh result buffer holds,
    provided every flat-list source carries one of the seven tags; a call
    that returns leaves the same store as well. The maximum path length and
    the objects tiled and reset do not depend on the iteration order. This
    is what C9 asks, on the sources of the seven kinds. *)
Theorem evaluation_deterministic rt1 rt2 bh srcs sensors sumup squeeze st :
  valid_iter rt1 → valid_iter rt2 →
  known_tags st (format_src_inputs st srcs).2 →
  (getBH_level2 rt1 bh srcs sensors sumup squeeze st).2
  = (getBH_level2 rt2 bh srcs sensors sumup squeeze st).2
  ∧ (is_ok (getBH_level2 rt1 bh srcs sensors sumup squeeze st).2 →
     getBH_level2 rt1 bh srcs sensors sumup squeeze st
     = getBH_level2 rt2 bh srcs sensors sumup squeeze st)
  ∧ aligned_length rt1 st srcs sensors = aligned_length rt2 st srcs sensors
  ∧ reset_pairs st (obj_list_of rt1 st srcs sensors)
    ≡ₚ reset_pairs st (obj_list_of rt2 st srcs sensors).
Proof.
  intros Hv1 Hv2 Hk.
  pose proof (obj_list_perm rt1 rt2 st srcs sensors Hv1 Hv2) as Hol.
  assert (Hm : aligned_length rt1 st srcs sensors = aligned_length rt2 st srcs sensors).
  { unfold aligned_length, path_lengths. by rewrite Hol. }
  pose proof (reset_pairs_perm st _ _ Hol) as Hpairs.
  assert (Hnd : NoDup (reset_pairs st (obj_list_of rt1 st srcs sensors)).*1).
  { apply reset_pairs_NoDup. unfold obj_list_of. by apply valid_iter_NoDup. }
  assert (Hnil : path_lengths st (obj_list_of rt1 st srcs sensors) = []
                 ↔ path_lengths st (obj_list_of rt2 st srcs sensors) = []).
  { unfold path_lengths.
    split; intros E%fmap_nil_inv; rewrite E in Hol.
    - symmetry in Hol. apply Permutation_nil_r in Hol. by rewrite Hol.
    - apply Permutation_nil_r in Hol. by rewrite Hol. }
  destruct (call_tail_perm rt1 rt2 bh srcs sensors sumup squeeze st
              (default [] (head ((λ sens, shape (pixel (st !!! sens))) <$> sensors)))
              (aligned_length rt1 st srcs sensors) _ _ Hk Hnd Hpairs) as [Hc1 Hc2].
  rewrite !getBH_level2_eq, <- Hm.
  destruct (check_dimensions st srcs); cbn [negb]; [|split_and!; [done|not_ok|done..]].
  destruct (check_excitations st srcs); cbn [negb]; [|split_and!; [done|not_ok|done..]].
  destruct (all_same _); cbn [negb]; [|split_and!; [done|not_ok|done..]].
  destruct (head _) as [pix_shape|]; [|split_and!; [done|not_ok|done..]].
  simpl in Hc1, Hc2.
  destruct (path_lengths st (obj_list_of rt1 st srcs sensors)) eqn:E1;
    destruct (path_lengths st (obj_list_of rt2 st srcs sensors)) eqn:E2.
  - split_and!; [done|not_ok|done..].
  - destruct Hnil as [Hn _]. discriminate (Hn eq_refl).
  - destruct Hnil as [_ Hn]. discriminate (Hn eq_refl).
  - by split_and!.
Qed.

End determinism.

(** ** One source against one sensor *)

Section static_source.

Context `{!Numerics, !InputChecks}.

Lemma chunks_concat {A} (c : nat) (X : list (list A)) :
  0 < c → Forall (λ r, length r = c) X → chunks c (concat X) = X.
Proof.
  intros Hc HX. unfold chunks. rewrite (length_concat_regular c) by done.
  rewrite Nat.div_mul by lia. by apply reshape_concat.
Qed.

Lemma concat_replicate_bind {A} (n : nat) (X : list (list A)) :
  concat ((λ r, concat (replicate n r)) <$> X) = concat (X ≫= replicate n).
Proof.
  induction X as [|r X IH]; simpl; [done|].
  rewrite concat_app. f_equal. apply IH.
Qed.

Lemma length_flat3 (v : vec3) : length (flat3 v) = 3.
Proof. by destruct v as [[??]?]. Qed.

Lemma length_flat4 (q : quat) : length (flat4 q) = 4.
Proof. by destruct q as [[[??]?]?]. Qed.

Lemma mapM_row3 (vs : list vec3) : mapM row3 (flat3 <$> vs) = Some vs.
Proof.
  apply mapM_Some, Forall2_fmap_l, Forall_Forall2_diag, Forall_true.
  by intros [[x y] z].
Qed.

Lemma mapM_row4 (qs : list quat) : mapM row4 (flat4 <$> qs) = Some qs.
Proof.
  apply mapM_Some, Forall2_fmap_l, Forall_Forall2_diag, Forall_true.
  by intros [[[x y] z] w].
Qed.

Lemma rows3_flat3 (vs : list vec3) : rows3 (concat (flat3 <$> vs)) = inr vs.
Proof.
  unfold rows3.
  assert (Forall (λ r : list F, length r = 3) (flat3 <$> vs)) as Hreg.
  { apply Forall_fmap, Forall_true. intros v. apply length_flat3. }
  rewrite (length_concat_regular 3) by done. rewrite Nat.Div0.mod_mul.
  rewrite bool_decide_eq_true_2, require_true_bind by done.
  rewrite chunks_concat by (done || lia). by rewrite mapM_row3.
Qed.

Lemma rows4_flat4 (qs : list quat) : rows4 (concat (flat4 <$> qs)) = inr qs.
Proof.
  unfold rows4.
  assert (Forall (λ r : list F, length r = 4) (flat4 <$> qs)) as Hreg.
  { apply Forall_fmap, Forall_true. intros v. apply length_flat4. }
  rewrite (length_concat_regular 4) by done. rewrite Nat.Div0.mod_mul.
  rewrite bool_decide_eq_true_2, require_true_bind by done.
  rewrite chunks_concat by (done || lia). by rewrite mapM_row4.
Qed.

(** [np.tile] on an array whose last axis has length [c]: every row of
    length [c] is repeated [n] times in place. *)
Lemma np_tile_rows_data (sh : list nat) (c n : nat) (X : list (list F)) :
  0 < c → Forall (λ r, length r = c) X →
  data (np_tile (NdArray (sh ++ [c]) (concat X)) n) = concat (X ≫= replicate n).
Proof.
  intros Hc HX. unfold np_tile. simpl. rewrite last_last.
  rewrite chunks_concat by done. apply concat_replicate_bind.
Qed.

Lemma fmap_bind_replicate {A B} (f : A → B) (n : nat) (l : list A) :
  f <$> (l ≫= replicate n) = (f <$> l) ≫= replicate n.
Proof.
  induction l as [|x l IH]; simpl; [done|].
  rewrite fmap_app, fmap_replicate. f_equal. apply IH.
Qed.

Lemma np_array_single (x : ndarray) :
  np_array [x] = inr (NdArray (1 :: shape x) (data x)).
Proof.
  unfold np_array. simpl. rewrite bool_decide_eq_true_2 by done. simpl.
  by rewrite app_nil_r.
Qed.

(** The positions of a group of one source, tiled for [n] observation
    points per step. *)
Lemma tile_positions_single (p : list vec3) (n : nat) :
  np_array [position_array p] ≫= (λ poss, rows3 (data (np_tile poss n)))
  = inr (p ≫= replicate n).
Proof.
  rewrite np_array_single, inr_bind. unfold position_array. cbn [shape data].
  rewrite (np_tile_rows_data [1; length p] 3 n (flat3 <$> p)); [|lia|].
  - rewrite <- fmap_bind_replicate. apply rows3_flat3.
  - apply Forall_fmap, Forall_true. intros v. apply length_flat3.
Qed.

Lemma tile_orientations_single (q : list quat) (n : nat) :
  np_array [quat_array q] ≫= (λ rots, rows4 (data (np_tile rots n)))
  = inr (q ≫= replicate n).
Proof.
  rewrite np_array_single, inr_bind. unfold quat_array. cbn [shape data].
  rewrite (np_tile_rows_data [1; length q] 4 n (flat4 <$> q)); [|lia|].
  - rewrite <- fmap_bind_replicate. apply rows4_flat4.
  - apply Forall_fmap, Forall_true. intros v. apply length_flat4.
Qed.

Lemma rows_of_replicate (c n : nat) (row : list F) :
  0 < c → length row = c →
  rows_of c (concat (replicate n row)) = inr (replicate n row).
Proof.
  intros Hc Hrow. unfold rows_of.
  assert (Forall (λ r : list F, length r = c) (replicate n row)) as Hreg.
  { apply Forall_replicate. done. }
  rewrite (length_concat_regular c) by done. rewrite Nat.Div0.mod_mul.
  rewrite bool_decide_eq_true_2, require_true_bind by done.
  by rewrite chunks_concat.
Qed.

(** An attribute row of length [c] of a group of one source. *)
Lemma tile_row_single (c n : nat) (row : list F) :
  0 < c → length row = c →
  np_array [NdArray [length row] row] ≫= (λ a, rows_of c (data (np_tile a n)))
  = inr (replicate n row).
Proof.
  intros Hc Hrow. rewrite np_array_single, inr_bind. cbn [shape data].
  rewrite Hrow.
  replace row with (concat [row]) at 1 by (simpl; by rewrite app_nil_r).
  change [1; c] with ([1] ++ [c]).
  rewrite (np_tile_rows_data [1] c n [row]); [|done|by constructor].
  simpl. rewrite app_nil_r. by apply rows_of_replicate.
Qed.

(** A scalar attribute of a group of one source. *)
Lemma tile_scalar_single (d : F) (n : nat) :
  np_array [NdArray [] [d]] ≫= (λ a, mret ((λ d, [d]) <$> data (np_tile a n)))
  = inr (replicate n [d]).
Proof.
  rewrite np_array_single, inr_bind. cbn [shape data].
  change (NdArray [1] [d]) with (NdArray ([] ++ [1]) (concat [[d]])).
  rewrite (np_tile_rows_data [] 1 n [[d]]); [|lia|by constructor].
  assert (concat ([[d]] ≫= replicate n) = replicate n d) as ->.
  { simpl. rewrite app_nil_r. induction n as [|n IH]; simpl; [done|]. by f_equal. }
  by rewrite fmap_replicate.
Qed.

Lemma length_bind_replicate {A} (n : nat) (l : list A) :
  length (l ≫= replicate n) = length l * n.
Proof.
  induction l as [|x l IH]; simpl; [done|].
  rewrite length_app, length_replicate. unfold mbind in IH. rewrite IH. lia.
Qed.

Lemma imap_lookup_block {A B C D} (K : A → B → C → D) (dB : B) (dC : C) (n : nat)
    (pos : list A) : ∀ (ori : list B) (steps : list (list C)),
  length ori = length pos → length steps = length pos →
  Forall (λ s, length s = n) steps →
  imap (λ r p, K p (default dB ((ori ≫= replicate n) !! r))
                   (default dC (concat steps !! r)))
       (pos ≫= replicate n)
  = concat (zip_with (λ pq pts, K pq.1 pq.2 <$> pts) (zip pos ori) steps).
Proof.
  induction pos as [|p pos IH]; intros [|q ori] [|pts steps] Ho Hs Hreg;
    simpl in *; try done.
  apply Forall_cons in Hreg as [Hpts Hreg].
  rewrite imap_app. f_equal.
  - apply list_eq. intros r. rewrite list_lookup_imap, list_lookup_fmap.
    destruct (decide (r < n)) as [Hr|Hr].
    + rewrite lookup_replicate_2 by done. simpl.
      rewrite lookup_app_l by (by rewrite length_replicate).
      rewrite lookup_replicate_2 by done. simpl.
      rewrite lookup_app_l by lia.
      destruct (lookup_lt_is_Some_2 pts r) as [c Hc]; [lia|]. by rewrite Hc.
    + rewrite (proj1 (lookup_replicate_None n p r)) by lia. simpl.
      by rewrite lookup_ge_None_2 by lia.
  - rewrite length_replicate. rewrite <- (IH ori steps) by (done || lia).
    apply imap_ext. intros r x _. simpl.
    rewrite lookup_app_r by (rewrite length_replicate; lia).
    rewrite lookup_app_r by lia.
    rewrite length_replicate, Hpts. by replace (n + r - n) with r by lia.
Qed.

Lemma tile_positions_rows (p : list vec3) (n : nat) :
  rows3 (data (np_tile (NdArray [1; length p; 3] (concat (flat3 <$> p))) n))
  = inr (p ≫= replicate n).
Proof.
  change [1; length p; 3] with ([1; length p] ++ [3]).
  rewrite (np_tile_rows_data [1; length p] 3 n (flat3 <$> p)); [|lia|].
  - rewrite <- fmap_bind_replicate. apply rows3_flat3.
  - apply Forall_fmap, Forall_true. intros v. apply length_flat3.
Qed.

Lemma tile_orientations_rows (q : list quat) (n : nat) :
  rows4 (data (np_tile (NdArray [1; length q; 4] (concat (flat4 <$> q))) n))
  = inr (q ≫= replicate n).
Proof.
  change [1; length q; 4] with ([1; length q] ++ [4]).
  rewrite (np_tile_rows_data [1; length q] 4 n (flat4 <$> q)); [|lia|].
  - rewrite <- fmap_bind_replicate. apply rows4_flat4.
  - apply Forall_fmap, Forall_true. intros v. apply length_flat4.
Qed.

Lemma tile_mag_single o n : tile_mag [o] n = inr (replicate n (flat3 (magnetization o))).
Proof.
  unfold tile_mag. cbn [fmap list_fmap].
  pose proof (tile_row_single 3 n (flat3 (magnetization o))) as Ht.
  rewrite length_flat3 in Ht. apply Ht; [lia|done].
Qed.

Lemma tile_moment_single o n : tile_moment [o] n = inr (replicate n (flat3 (moment o))).
Proof.
  unfold tile_moment. cbn [fmap list_fmap].
  pose proof (tile_row_single 3 n (flat3 (moment o))) as Ht.
  rewrite length_flat3 in Ht. apply Ht; [lia|done].
Qed.

Lemma tile_dim_cuboid_single o n :
  length (dimension o) = 3 → tile_dim_cuboid [o] n = inr (replicate n (dimension o)).
Proof. intros. unfold tile_dim_cuboid. cbn [fmap list_fmap]. apply tile_row_single; [lia|done]. Qed.

Lemma tile_dim_cylinder_single o n :
  length (dimension o) = 2 → tile_dim_cylinder [o] n = inr (replicate n (dimension o)).
Proof. intros. unfold tile_dim_cylinder. cbn [fmap list_fmap]. apply tile_row_single; [lia|done]. Qed.

Lemma tile_dim_cylinder_section_single o n :
  length (dimension o) = 5 →
  tile_dim_cylinder_section [o] n = inr (replicate n (dimension o)).
Proof. intros. unfold tile_dim_cylinder_section. cbn [fmap list_fmap]. apply tile_row_single; [lia|done]. Qed.

Lemma tile_dia_single o n : tile_dia [o] n = inr (replicate n [diameter o]).
Proof. unfold tile_dia. cbn [fmap list_fmap]. apply tile_scalar_single. Qed.

Lemma tile_current_single o n : tile_current [o] n = inr (replicate n [current o]).
Proof. unfold tile_current. cbn [fmap list_fmap]. apply tile_scalar_single. Qed.

Lemma args_at_replicate2 (k1 k2 : string) (n r : nat) (r1 r2 : list F) :
  r < n → args_at [(k1, replicate n r1); (k2, replicate n r2)] r = r1 ++ r2.
Proof.
  intros Hr. unfold args_at. simpl. rewrite !lookup_replicate_2 by done.
  simpl. by rewrite app_nil_r.
Qed.

Lemma args_at_replicate1 (k1 : string) (n r : nat) (r1 : list F) :
  r < n → args_at [(k1, replicate n r1)] r = r1.
Proof.
  intros Hr. unfold args_at. simpl. rewrite !lookup_replicate_2 by done.
  simpl. by rewrite app_nil_r.
Qed.

Lemma get_src_dict_single o n_pix n_pp poso :
  is_Some (bucket_of (_object_type o)) → wf_attributes o →
  get_src_dict [o] n_pix n_pp poso
  = inr (SrcDict (_object_type o) (single_fields o n_pp)
                 (_position o ≫= replicate n_pix) poso
                 (_orientation o ≫= replicate n_pix)).
Proof.
  intros Hk (Hcub & Hcyl & Hseg). unfold get_src_dict, single_fields.
  cbn [fmap list_fmap compose length head].
  rewrite (np_array_single (position_array _)), inr_bind.
  unfold position_array. cbn [shape data].
  rewrite tile_positions_rows, inr_bind.
  rewrite (np_array_single (quat_array _)), inr_bind.
  unfold quat_array. cbn [shape data].
  rewrite tile_orientations_rows, inr_bind.
  cbn [option_fmap option_map from_option]. rewrite inr_bind.
  unfold np_tile_rows. cbn [replicate concat]. rewrite app_nil_r.
  destruct (decide (_object_type o = "Sphere")) as [E|N1].
  { by rewrite tile_mag_single, inr_bind, tile_dia_single, inr_bind. }
  destruct (decide (_object_type o = "Cuboid")) as [E|N2].
  { by rewrite tile_mag_single, inr_bind, tile_dim_cuboid_single, inr_bind by auto. }
  destruct (decide (_object_type o = "Cylinder")) as [E|N3].
  { rewrite tile_mag_single, inr_bind, tile_dim_cylinder_single, inr_bind by auto.
    by rewrite E. }
  destruct (decide (_object_type o = "CylinderSegment")) as [E|N4].
  { rewrite tile_mag_single, inr_bind, tile_dim_cylinder_section_single, inr_bind by auto.
    by rewrite E. }
  destruct (decide (_object_type o = "Dipole")) as [E|N5].
  { by rewrite tile_moment_single, inr_bind. }
  destruct (decide (_object_type o = "Circular")) as [E|N6].
  { by rewrite tile_current_single, inr_bind, tile_dia_single, inr_bind. }
  destruct (decide (_object_type o = "Line")) as [E|N7]; [done|].
  exfalso. destruct Hk as [b Hb]. unfold bucket_of in Hb.
  repeat (case_decide; [congruence|]). done.
Qed.

Lemma single_fields_spec o n :
  is_Some (bucket_of (_object_type o)) →
  (_object_type o ≠ "Line"
   ∧ Forall (λ kv, length kv.2 = n) (single_fields o n)
   ∧ ∀ r, r < n → args_at (single_fields o n) r = packed_args o)
  ∨ (_object_type o = "Line"
     ∧ Forall (λ kv, length kv.2 = 1) (single_fields o n)
     ∧ length (default [] (snd <$> head (single_fields o n))) = 1
     ∧ args_at (single_fields o n) 0 = packed_args o).
Proof.
  intros Hk. unfold single_fields, packed_args.
  destruct (decide (_object_type o = "Sphere")) as [E|N1].
  { left. split_and!; [by rewrite E|repeat constructor; simpl; by rewrite length_replicate|].
    intros r Hr. by apply args_at_replicate2. }
  destruct (decide (_object_type o = "Cuboid")) as [E|N2].
  { left. split_and!; [by rewrite E|repeat constructor; simpl; by rewrite length_replicate|].
    intros r Hr. by apply args_at_replicate2. }
  destruct (decide (_object_type o = "Cylinder")) as [E|N3].
  { left. split_and!; [by rewrite E|repeat constructor; simpl; by rewrite length_replicate|].
    intros r Hr. by apply args_at_replicate2. }
  destruct (decide (_object_type o = "CylinderSegment")) as [E|N4].
  { left. split_and!; [by rewrite E|repeat constructor; simpl; by rewrite length_replicate|].
    intros r Hr. by apply args_at_replicate2. }
  destruct (decide (_object_type o = "Dipole")) as [E|N5].
  { left. split_and!; [by rewrite E|repeat constructor; simpl; by rewrite length_replicate|].
    intros r Hr. by apply args_at_replicate1. }
  destruct (decide (_object_type o = "Circular")) as [E|N6].
  { left. split_and!; [by rewrite E|repeat constructor; simpl; by rewrite length_replicate|].
    intros r Hr. by apply (args_at_replicate2 _ _ _ _ [current o] [diameter o]). }
  destruct (decide (_object_type o = "Line")) as [E|N7].
  { right. split_and!; [done|repeat constructor|done|].
    unfold args_at. simpl. by rewrite app_nil_r. }
  exfalso. destruct Hk as [b Hb]. unfold bucket_of in Hb.
  repeat (case_decide; [congruence|]). done.
Qed.

Lemma forallb_Forall {A} (f : A → bool) (l : list A) :
  Forall (λ x, f x = true) l → forallb f l = true.
Proof. induction 1; simpl; [done|]. by rewrite H1, IHForall. Qed.

Lemma regular_field_block bh o m n (steps : list (list vec3)) :
  length (_position o) = m → length (_orientation o) = m →
  length steps = m → Forall (λ pts, length pts = n) steps →
  regular 1 m n [field_block bh o steps].
Proof.
  intros Hp Ho Hs Hreg. split; [done|]. constructor; [|done]. split.
  - unfold field_block. rewrite length_zip_with, length_zip_with. lia.
  - unfold field_block.
    apply Forall_zip_with_snd with (P := λ pts : list vec3, length pts = n); [|done].
    apply Forall_true. intros pq pts Hpts. by rewrite length_fmap.
Qed.

Lemma level1_single bh o m n_pix (steps : list (list vec3)) :
  is_Some (bucket_of (_object_type o)) →
  length (_position o) = m → length (_orientation o) = m →
  length steps = m → Forall (λ pts, length pts = n_pix) steps →
  getBH_level1 bh (SrcDict (_object_type o) (single_fields o (m * n_pix))
                     (_position o ≫= replicate n_pix) (concat steps)
                     (_orientation o ≫= replicate n_pix))
  = inr (concat (field_block bh o steps)).
Proof.
  intros Hk Hp Ho Hs Hreg. unfold getBH_level1. cbn [sd_position sd_observer
    sd_orientation sd_source_type sd_fields].
  rewrite !length_bind_replicate, (length_concat_regular n_pix steps Hreg).
  rewrite Hp, Ho, Hs.
  rewrite (bool_decide_eq_true_2 (m * n_pix = m * n_pix ∧ m * n_pix = m * n_pix))
    by done.
  rewrite require_true_bind.
  assert (Hblk :
    imap (λ r p, kernel_row bh (_object_type o) (packed_args o) p
                   (default unitQ ((_orientation o ≫= replicate n_pix) !! r))
                   (default vzero (concat steps !! r)))
         (_position o ≫= replicate n_pix)
    = concat (field_block bh o steps)).
  { apply (imap_lookup_block
             (λ p q obs, kernel_row bh (_object_type o) (packed_args o) p q obs)
             unitQ vzero n_pix (_position o) (_orientation o) steps); (done || lia). }
  rewrite <- Hblk. clear Hblk.
  destruct (single_fields_spec o (m * n_pix) Hk)
    as [(Hnl & Hlen & Hargs)|(Hl & Hlen & Hhd & Hargs)].
  - rewrite decide_False by done.
    rewrite forallb_Forall, require_true_bind.
    2:{ eapply Forall_impl; [done|]. intros kv Hkv. by apply bool_decide_eq_true_2. }
    cbv beta. f_equal. apply imap_ext. intros r p Hr.
    apply lookup_lt_Some in Hr. rewrite length_bind_replicate, Hp in Hr.
    by rewrite Hargs.
  - rewrite decide_True by done. cbv zeta. rewrite Hhd.
    rewrite Nat.mod_1_r, Nat.div_1_r.
    rewrite (bool_decide_eq_true_2 (0 < 1 ∧ 0 = 0)) by (split; [lia|done]).
    rewrite forallb_Forall.
    2:{ eapply Forall_impl; [done|]. intros kv Hkv. by apply bool_decide_eq_true_2. }
    cbn [andb]. rewrite require_true_bind. cbv beta. f_equal.
    apply imap_ext. intros r p Hr.
    apply lookup_lt_Some in Hr. rewrite length_bind_replicate, Hp in Hr.
    rewrite Nat.div_small by done. by rewrite Hargs.
Qed.

Lemma group_rows_single bh st s m n_pix (steps : list (list vec3)) :
  is_Some (bucket_of (_object_type (st !!! s))) → wf_attributes (st !!! s) →
  length (_position (st !!! s)) = m → length (_orientation (st !!! s)) = m →
  length steps = m → Forall (λ pts, length pts = n_pix) steps →
  group_rows bh st m n_pix (m * n_pix) (concat steps) [s]
  = inr [field_block bh (st !!! s) steps].
Proof.
  intros Hk Hwf Hp Ho Hs Hreg. unfold group_rows. cbn [fmap list_fmap length].
  rewrite get_src_dict_single, inr_bind by done.
  rewrite (level1_single bh _ m) by done. rewrite inr_bind.
  replace (concat (field_block bh (st !!! s) steps))
    with (concat (concat [field_block bh (st !!! s) steps]))
    by (simpl; by rewrite app_nil_r).
  apply np_reshape4_concat. by apply regular_field_block.
Qed.

Lemma bucket_members_single st s b b' :
  bucket_of (_object_type (st !!! s)) = Some b →
  bucket_members st [s] b' = (if decide (b' = b) then [s] else [])
  ∧ bucket_order st [s] b' = (if decide (b' = b) then [0] else []).
Proof.
  intros Hb. unfold bucket_members, bucket_order, enumerate. cbn [imap].
  case_decide as Hd.
  - subst. by rewrite filter_cons_True by done.
  - rewrite filter_cons_False; [done|]. unfold in_bucket. simpl. congruence.
Qed.

Lemma eval_groups_single bh st s m n_pix n_pp poso (x blk : block) :
  is_Some (bucket_of (_object_type (st !!! s))) →
  group_rows bh st m n_pix n_pp poso [s] = inr [blk] →
  foldlM (eval_group bh st m n_pix n_pp poso (group_sources st [s]).2) [x]
         (enumerate (group_sources st [s]).1)
  = inr [blk].
Proof.
  intros [b Hb] Hrows. rewrite group_sources_spec. cbn [fst snd].
  pose proof (bucket_of_lt _ _ Hb) as Hlt.
  assert (Hm : ∀ b', bucket_members st [s] b' = if decide (b' = b) then [s] else [])
    by (intros; by apply bucket_members_single).
  assert (Ho : ∀ b', bucket_order st [s] b' = if decide (b' = b) then [0] else [])
    by (intros; by apply bucket_members_single).
  cbn [seq fmap list_fmap enumerate imap compose]. rewrite !Hm, !Ho.
  destruct b as [|[|[|[|[|[|[|?]]]]]]]; [..|lia]; cbn [foldlM];
    repeat (case_decide; try lia);
    repeat first
      [ rewrite eval_group_rows
      | rewrite (bool_decide_eq_true_2 (@nil objid = [])) by done
      | rewrite (bool_decide_eq_false_2 ([s] = [])) by done
      | rewrite Hrows
      | rewrite inr_bind; cbv beta ];
    cbn [length]; reflexivity.
Qed.

Lemma sensor_poso_steps o (px : list vec3) :
  data (pixel o) = concat (flat3 <$> px) →
  sensor_poso o = inr (obs_steps o px).
Proof.
  intros Hd. unfold sensor_poso, obs_steps.
  destruct (zip (_orientation o) (_position o)) as [|e l] eqn:E; [done|].
  by rewrite Hd, rows3_flat3, inr_bind.
Qed.

Lemma length_obs_steps o px :
  length (_orientation o) = length (_position o) →
  length (obs_steps o px) = length (_position o).
Proof. intros Hl. unfold obs_steps. rewrite length_fmap, length_zip. lia. Qed.

Lemma regular_obs_steps o (px : list vec3) :
  Forall (λ pts : list vec3, length pts = length px) (obs_steps o px).
Proof.
  unfold obs_steps. apply Forall_fmap, Forall_true. intros [r p]. simpl.
  by rewrite length_fmap.
Qed.

Lemma np_concatenate_axis1_single (X : list (list vec3)) :
  X ≠ [] → np_concatenate_axis1 [X] = inr X.
Proof.
  intros HX. unfold np_concatenate_axis1. cbn [forallb andb].
  rewrite bool_decide_eq_true_2.
  2:{ split; [done|]. destruct X; simpl; [done|lia]. }
  cbn [andb]. rewrite require_true_bind. f_equal.
  apply list_eq. intros j. rewrite list_lookup_fmap.
  destruct (decide (j < length X)) as [Hj|Hj].
  - rewrite lookup_seq_lt by done. simpl. rewrite app_nil_r.
    rewrite list_lookup_total_alt.
    destruct (X !! j) eqn:E; [done|]. apply lookup_ge_None in E. lia.
  - rewrite lookup_seq_ge by lia. simpl. symmetry. apply lookup_ge_None. lia.
Qed.

Lemma mapM_single {A B} (f : A → res B) (x : A) (y : B) :
  f x = inr y → mapM f [x] = inr [y].
Proof. intros Hf. simpl. by rewrite Hf. Qed.

Lemma shape_size_app (a b : list nat) :
  shape_size (a ++ b) = shape_size a * shape_size b.
Proof.
  unfold shape_size. induction a as [|x a IH]; simpl; [lia|]. rewrite IH. lia.
Qed.

Lemma drop_last_snoc {A} (l : list A) (x : A) : drop_last (l ++ [x]) = l.
Proof.
  unfold drop_last. rewrite length_app. simpl.
  replace (length l + 1 - 1) with (length l) by lia. by rewrite take_app_length.
Qed.

Lemma length_flat_blocks (l m n : nat) (B : list block) :
  regular l m n B → length (flat_blocks B) = l * m * n * 3.
Proof.
  intros [Hl HB]. unfold flat_blocks.
  rewrite (length_concat_regular 3).
  2:{ apply Forall_fmap, Forall_true. intros v. apply length_flat3. }
  rewrite length_fmap. rewrite (length_concat_regular n).
  2:{ apply Forall_concat. eapply Forall_impl; [done|]. by intros ? [_ ?]. }
  rewrite (length_concat_regular m).
  2:{ eapply Forall_impl; [done|]. by intros ? [? _]. }
  by rewrite Hl.
Qed.

Lemma mret_bind {A B} (a : A) (f : A → res B) : (mret a ≫= f) = f a.
Proof. done. Qed.

Lemma field_array_single rt bh st st1 s o m ps (px : list vec3) :
  (∀ v, rot_apply (rot_inv unitQ) v = v) →
  0 < m →
  is_Some (bucket_of (_object_type (st1 !!! s))) → wf_attributes (st1 !!! s) →
  plen st1 s = m → olen st1 s = m →
  _orientation (st !!! o) ≠ [] →
  st1 !!! o = tiled m (plen st o) (st !!! o) →
  plen st1 o = m → olen st1 o = m →
  data (pixel (st1 !!! o)) = concat (flat3 <$> px) → length px = shape_size ps →
  field_array rt bh st1 [s] [s] [o] (ps ++ [3]) (unrotated_sensors st [o])
    (check_static_sensor_orient st [o]) m false false
  = inr (NdArray ([1; m; 1] ++ ps ++ [3])
           (flat_blocks
              [back_rotate_block (_orientation (st1 !!! o)) 0 (shape_size ps)
                 (field_block bh (st1 !!! s) (obs_steps (st1 !!! o) px))])).
Proof.
  intros Hid Hm Hk Hwf Hps Hos Hne Ht Hpo Hoo Hpx Hlen.
  unfold plen, olen in Hps, Hos, Hpo, Hoo.
  unfold field_array.
  rewrite (mapM_single _ o (obs_steps (st1 !!! o) px))
    by (by apply sensor_poso_steps).
  rewrite inr_bind.
  assert (Hls : length (obs_steps (st1 !!! o) px) = m).
  { rewrite length_obs_steps; [done|]. lia. }
  rewrite np_concatenate_axis1_single, inr_bind.
  2:{ intros E. rewrite E in Hls. simpl in Hls. lia. }
  pose proof (regular_obs_steps (st1 !!! o) px) as Hreg.
  rewrite (length_concat_regular (length px)) by done. rewrite Hls.
  rewrite (bool_decide_eq_true_2 (m ≠ 0)) by lia. rewrite require_true_bind.
  rewrite Nat.mul_comm, Nat.div_mul by lia. rewrite (Nat.mul_comm (length px) m).
  destruct (group_sources st1 [s]) as [src_sorted order] eqn:Eg.
  assert (Hev : foldlM (eval_group bh st1 m (length px) (m * length px)
                           (concat (obs_steps (st1 !!! o) px)) order)
                  (np_empty (uninit rt) (length [s]) m (length px))
                  (enumerate src_sorted)
                = inr [field_block bh (st1 !!! s) (obs_steps (st1 !!! o) px)]).
  { assert (∃ x, np_empty (uninit rt) (length [s]) m (length px) = [x]) as [x ->].
    { pose proof (length_np_empty (uninit rt) (length [s]) m (length px)) as Hl.
      destruct (np_empty _ _ _ _) as [|x [|??]]; simpl in Hl; try lia. by exists x. }
    replace src_sorted with (group_sources st1 [s]).1 by (by rewrite Eg).
    replace order with (group_sources st1 [s]).2 by (by rewrite Eg).
    apply eval_groups_single; [done|]. by apply group_rows_single. }
  rewrite Hev, inr_bind.
  unfold collection_sum. cbn [length]. rewrite decide_False by lia.
  rewrite mret_bind. rewrite drop_last_snoc.
  unfold apply_sensor_rotations. cbn [enumerate imap foldlM].
  assert (HB : regular 1 m (length [o] * shape_size ps)
                 [field_block bh (st1 !!! s) (obs_steps (st1 !!! o) px)]).
  { cbn [length]. rewrite Nat.mul_1_l, <- Hlen. by apply regular_field_block. }
  rewrite (rotation_step_general st st1 [o] (shape_size ps) 1 m _ 0 o)
    by done.
  rewrite (rotate_general_spec _ 0 (shape_size ps) 1 m (length [o] * shape_size ps))
    by first [done | cbn [length]; lia].
  rewrite !inr_bind. cbn [fmap list_fmap].
  rewrite take_ge by lia. rewrite Nat.mul_0_l, Nat.add_0_l, Nat.mul_1_l.
  unfold np_reshape.
  assert (HB' : regular 1 m (shape_size ps)
            (back_rotate_block (_orientation (st1 !!! o)) 0 (shape_size ps)
               <$> [field_block bh (st1 !!! s) (obs_steps (st1 !!! o) px)])).
  { apply regular_back_rotate_block; [|lia|done|done].
    by rewrite <- (Nat.mul_1_l (shape_size ps)). }
  rewrite (length_flat_blocks 1 m (shape_size ps)) by done.
  rewrite bool_decide_eq_true_2.
  2:{ cbn [app]. change (1 :: ps ++ [3]) with ([1] ++ ps ++ [3]).
      change (1 :: m :: [1] ++ ps ++ [3]) with ([1; m; 1] ++ ps ++ [3]).
      rewrite !shape_size_app. simpl. lia. }
  by rewrite require_true_bind.
Qed.

Lemma max_list_bound (m : nat) (l : list nat) :
  Forall (λ x, x ≤ m) l → max_list l ≤ m.
Proof. induction 1; simpl; lia. Qed.

Lemma bucket_not_collection (t : string) :
  is_Some (bucket_of t) → t ≠ "Collection".
Proof. intros [b Hb] ->. vm_compute in Hb. done. Qed.

Lemma tiled_type m m0 o : _object_type (tiled m m0 o) = _object_type o.
Proof. done. Qed.

Lemma packed_args_tiled m m0 o : packed_args (tiled m m0 o) = packed_args o.
Proof. done. Qed.

Lemma wf_attributes_tiled m m0 o : wf_attributes (tiled m m0 o) ↔ wf_attributes o.
Proof. done. Qed.

Lemma tiled_same_position m o : _position (tiled m m o) = _position o.
Proof. unfold tiled. simpl. rewrite Nat.sub_diag. apply app_nil_r. Qed.

Lemma tiled_same_orientation m o : _orientation (tiled m m o) = _orientation o.
Proof. unfold tiled. simpl. rewrite Nat.sub_diag. apply app_nil_r. Qed.

Lemma call_single rt bh st s o m ps (px : list vec3) :
  valid_iter rt →
  (∀ v, rot_apply (rot_inv unitQ) v = v) →
  s ≠ o →
  is_Some (bucket_of (_object_type (st !!! s))) → wf_attributes (st !!! s) →
  plen st s = 1 → olen st s = 1 →
  plen st o = m → olen st o = m → 0 < m →
  shape (pixel (st !!! o)) = ps ++ [3] →
  data (pixel (st !!! o)) = concat (flat3 <$> px) →
  length px = shape_size ps →
  check_dimensions st [s] = true → check_excitations st [s] = true →
  ∃ st',
    getBH_level2 rt bh [s] [o] false false st
    = (st', inr (NdArray ([1; m; 1] ++ ps ++ [3])
                   (flat_blocks
                      [back_rotate_block (_orientation (st !!! o)) 0 (shape_size ps)
                         (field_block bh (tiled m 1 (st !!! s))
                            (obs_steps (st !!! o) px))]))).
Proof.
  intros Hv Hid Hso Hk Hwf Hps Hos Hpo Hoo Hm Hsh Hpx Hlen Hcd Hce.
  assert (Hfmt : (format_src_inputs st [s]).2 = [s]).
  { unfold format_src_inputs. cbn [snd mbind list_bind]. 
    rewrite decide_False by (by apply bucket_not_collection). done. }
  assert (Hpart : participants st [s] [o] = [s; o]).
  { unfold participants. by rewrite Hfmt. }
  set (ol := obj_list_of rt st [s] [o]).
  assert (Hol : ∀ x, x ∈ ol ↔ x = s ∨ x = o).
  { intros x. unfold ol, obj_list_of. rewrite valid_iter_elem, Hpart by done.
    rewrite !elem_of_cons, elem_of_nil. tauto. }
  assert (Hnd : NoDup ol) by (by apply valid_iter_NoDup).
  assert (Hne : ol ≠ []).
  { intros E. assert (s ∈ ol) as Hin by (apply Hol; by left).
    rewrite E in Hin. by apply elem_of_nil in Hin. }
  assert (Hwfp : wf_paths st ol).
  { intros x [->| ->]%Hol; unfold plen, olen in *.
    - split; [|lia]. intros E. rewrite E in Hps. done.
    - split; [|lia]. intros E. rewrite E in Hpo. simpl in Hpo. lia. }
  assert (Hmax : max_list (path_lengths st ol) = m).
  { apply Nat.le_antisymm.
    - apply max_list_bound. unfold path_lengths. apply Forall_fmap, Forall_forall.
      intros x [->| ->]%Hol; simpl; unfold plen in *; lia.
    - rewrite <- Hpo. apply plen_le_max, Hol. by right. }
  assert (∃ st1, tile_paths m st (reset_pairs st ol) = (st1, inr tt)) as [st1 Ht].
  { unfold tile_paths. case_decide; [|by eexists].
    apply tile_loop_ok; [by apply reset_pairs_NoDup|].
    intros y m0 (Hy & _)%reset_pairs_elem. destruct (Hwfp y Hy) as [Hp Ho].
    split; [done|]. intros E. rewrite E in Ho. simpl in Ho.
    by destruct (_position (st !!! y)). }
  pose proof Ht as Ht'. rewrite <- Hmax in Ht'.
  pose proof (tile_paths_aligned st ol st1 Hnd Hne Hwfp Ht') as Hal.
  rewrite Hmax in Hal.
  destruct (Hal s) as (Hs1 & Hs2 & Hs3); [apply Hol; by left|].
  destruct (Hal o) as (Ho1 & Ho2 & Ho3); [apply Hol; by right|].
  exists (reset_loop st1 (reset_pairs st ol)).
  apply getBH_level2_inr. cbv zeta. fold ol.
  unfold aligned_length. fold ol. rewrite Hmax, Hfmt.
  split_and!; [done|done| |done|].
  { simpl. by rewrite bool_decide_eq_true_2. }
  exists (ps ++ [3]), st1.
  split; [simpl; by rewrite Hsh|]. split; [done|]. split; [|reflexivity].
  rewrite (field_array_single rt bh st st1 s o m ps px); try done.
  - rewrite Hs1, Hps, Ho1, Hpo. unfold obs_steps.
    by rewrite tiled_same_position, !tiled_same_orientation.
  - by rewrite Hs1.
  - by rewrite Hs1.
  - intros E. unfold olen in Hoo. rewrite E in Hoo. simpl in Hoo. lia.
  - by rewrite Ho1.
Qed.

Lemma drop_concat_regular {A} (c j : nat) (X : list (list A)) :
  Forall (λ r, length r = c) X → drop (j * c) (concat X) = concat (drop j X).
Proof.
  intros HX. revert j. induction HX as [|r X Hr HX IH]; intros [|j]; simpl;
    try done.
  - by rewrite drop_nil.
  - rewrite drop_app_ge by lia. rewrite <- IH. f_equal. lia.
Qed.

Lemma take_concat_regular {A} (c : nat) (X : list (list A)) :
  Forall (λ r, length r = c) X → take c (concat X) = concat (take 1 X).
Proof.
  destruct 1 as [|r X Hr HX]; simpl.
  - by rewrite take_nil.
  - subst c. rewrite take_app_length. destruct X; simpl; by rewrite app_nil_r.
Qed.

Lemma slice_concat_regular {A} (c j : nat) (X : list (list A)) :
  Forall (λ r, length r = c) X →
  slice (j * c) ((j + 1) * c) (concat X) = concat (take 1 (drop j X)).
Proof.
  intros HX. unfold slice. rewrite drop_concat_regular by done.
  replace ((j + 1) * c - j * c) with c by lia.
  apply take_concat_regular. by apply Forall_drop.
Qed.

Lemma flat_blocks_rows (blk : block) :
  flat_blocks [blk] = concat ((λ row, concat (flat3 <$> row)) <$> blk).
Proof.
  unfold flat_blocks. simpl. rewrite app_nil_r.
  induction blk as [|row blk IH]; simpl; [done|].
  by rewrite fmap_app, concat_app, IH.
Qed.

Lemma flat_blocks_step (n j : nat) (blk : block) :
  Forall (λ row, length row = n) blk →
  flat_blocks [take 1 (drop j blk)]
  = slice (j * (n * 3)) ((j + 1) * (n * 3)) (flat_blocks [blk]).
Proof.
  intros Hblk. rewrite !flat_blocks_rows.
  rewrite slice_concat_regular.
  - by rewrite fmap_take, fmap_drop.
  - apply Forall_fmap. eapply Forall_impl; [done|]. intros row Hrow. simpl.
    rewrite (length_concat_regular 3).
    + rewrite length_fmap. by rewrite Hrow.
    + apply Forall_fmap, Forall_true. intros v. apply length_flat3.
Qed.

Lemma back_rotate_block_step qs a b j (blk : block) :
  take 1 (drop j (back_rotate_block qs a b blk))
  = back_rotate_block (take 1 (drop j qs)) a b (take 1 (drop j blk)).
Proof. unfold back_rotate_block. by rewrite zip_with_drop, zip_with_take. Qed.

Lemma obs_steps_at_step j o px :
  obs_steps (at_step j o) px = take 1 (drop j (obs_steps o px)).
Proof.
  unfold obs_steps, at_step. simpl.
  by rewrite <- fmap_drop, <- fmap_take, zip_with_drop, zip_with_take.
Qed.

Lemma step_of_replicate {A B} (a : A) (b : B) (n j : nat) :
  j < n → take 1 (drop j (zip (replicate n a) (replicate n b))) = [(a, b)].
Proof.
  revert j. induction n as [|n IH]; intros [|j] Hj; simpl; try lia.
  - by rewrite take_0.
  - apply IH. lia.
Qed.

Lemma field_block_step bh o m j (steps : list (list vec3)) :
  length (_position o) = 1 → length (_orientation o) = 1 → j < m →
  take 1 (drop j (field_block bh (tiled m 1 o) steps))
  = field_block bh (tiled 1 1 o) (take 1 (drop j steps)).
Proof.
  intros Hp Ho Hj. unfold field_block.
  rewrite zip_with_drop, zip_with_take. f_equal.
  rewrite tiled_same_position, tiled_same_orientation.
  unfold tiled. simpl.
  destruct (_position o) as [|p0 [|??]]; try done.
  destruct (_orientation o) as [|q0 [|??]]; try done. simpl.
  apply (step_of_replicate p0 q0 (S (m - 1)) j). lia.
Qed.

Lemma length_step {A} (j : nat) (l : list A) :
  j < length l → length (take 1 (drop j l)) = 1.
Proof. intros. rewrite length_take, length_drop. lia. Qed.

(** C7: a source with a path of length 1, evaluated against a sensor with a
    path of length [m], gives at every path index [j] the field that the
    same call gives when the sensor rests at the [j]-th state of its path:
    padding the source's path with its final state does not change what is
    computed per index. *)
Theorem static_source_field_at_each_index rt bh st s o m ps (px : list vec3) j :
  valid_iter rt →
  (∀ v, rot_apply (rot_inv unitQ) v = v) →
  s ≠ o →
  is_Some (bucket_of (_object_type (st !!! s))) → wf_attributes (st !!! s) →
  plen st s = 1 → olen st s = 1 →
  plen st o = m → olen st o = m → j < m →
  shape (pixel (st !!! o)) = ps ++ [3] →
  data (pixel (st !!! o)) = concat (flat3 <$> px) →
  length px = shape_size ps →
  let stj := <[o := at_step j (st !!! o)]> st in
  check_dimensions st [s] = true → check_excitations st [s] = true →
  check_dimensions stj [s] = true → check_excitations stj [s] = true →
  ∃ st' stj' B Bj,
    getBH_level2 rt bh [s] [o] false false st = (st', inr B)
    ∧ getBH_level2 rt bh [s] [o] false false stj = (stj', inr Bj)
    ∧ shape B = [1; m; 1] ++ ps ++ [3]
    ∧ shape Bj = [1; 1; 1] ++ ps ++ [3]
    ∧ data Bj = slice (j * shape_size (ps ++ [3])) ((j + 1) * shape_size (ps ++ [3]))
                  (data B).
Proof.
  intros Hv Hid Hso Hk Hwf Hps Hos Hpo Hoo Hj Hsh Hpx Hlen stj Hcd Hce Hcdj Hcej.
  assert (Hs : stj !!! s = st !!! s) by (unfold stj; by rewrite lookup_total_insert_ne).
  assert (Ho : stj !!! o = at_step j (st !!! o))
    by (unfold stj; by rewrite lookup_total_insert_eq).
  unfold plen, olen in Hps, Hos, Hpo, Hoo.
  assert (0 < m) as Hm by lia.
  destruct (call_single rt bh st s o m ps px Hv Hid Hso Hk Hwf Hps Hos Hpo Hoo Hm
              Hsh Hpx Hlen Hcd Hce) as [st' Hfull].
  assert (Hpj : plen stj o = 1).
  { unfold plen. rewrite Ho. simpl. apply length_step. lia. }
  assert (Hoj : olen stj o = 1).
  { unfold olen. rewrite Ho. simpl. apply length_step. lia. }
  assert (Hstep : ∃ stj', getBH_level2 rt bh [s] [o] false false stj
            = (stj', inr (NdArray ([1; 1; 1] ++ ps ++ [3])
                 (flat_blocks
                    [back_rotate_block (_orientation (stj !!! o)) 0 (shape_size ps)
                       (field_block bh (tiled 1 1 (stj !!! s))
                          (obs_steps (stj !!! o) px))])))).
  { apply call_single; unfold plen, olen; rewrite ?Hs; try done.
    - lia.
    - by rewrite Ho.
    - by rewrite Ho. }
  destruct Hstep as [stj' Hstep].
  eexists _, _, _, _. split; [exact Hfull|]. split; [exact Hstep|].
  split; [done|]. split; [done|]. cbn [data].
  rewrite Hs, Ho, obs_steps_at_step.
  replace (_orientation (at_step j (st !!! o)))
    with (take 1 (drop j (_orientation (st !!! o)))) by done.
  rewrite <- (field_block_step bh (st !!! s) m j) by done.
  rewrite <- back_rotate_block_step.
  rewrite shape_size_app. change (shape_size [3]) with 3.
  apply flat_blocks_step.
  assert (Hreg : regular 1 m (shape_size ps)
            (back_rotate_block (_orientation (st !!! o)) 0 (shape_size ps)
               <$> [field_block bh (tiled m 1 (st !!! s)) (obs_steps (st !!! o) px)])).
  { apply regular_back_rotate_block; [|lia|done|done].
    rewrite <- Hlen. apply regular_field_block; try done.
    - unfold tiled. simpl. rewrite length_app, length_replicate. lia.
    - unfold tiled. simpl. rewrite length_app, length_replicate. lia.
    - rewrite length_obs_steps; lia.
    - apply regular_obs_steps. }
  destruct Hreg as [_ Hreg]. apply Forall_cons in Hreg as [[_ Hrows] _]. done.
Qed.

End static_source.

(** ** The tiling helpers and the kernel input *)

Section kernel_input.

Context `{!Numerics, !InputChecks}.

Lemma np_array_same_shape (xs : list ndarray) (sh : list nat) :
  xs ≠ [] → Forall (λ x, shape x = sh) xs →
  np_array xs = inr (NdArray (length xs :: sh) (concat (data <$> xs))).
Proof.
  intros Hne Hsh. destruct xs as [|x xs]; [done|]. unfold np_array.
  rewrite forallb_Forall, require_true_bind.
  - apply Forall_cons in Hsh as [-> _]. done.
  - eapply Forall_impl; [done|]. intros y Hy. apply bool_decide_eq_true_2.
    apply Forall_cons in Hsh as [-> _]. done.
Qed.

Lemma rows_of_concat (c : nat) (X : list (list F)) :
  0 < c → Forall (λ r, length r = c) X → rows_of c (concat X) = inr X.
Proof.
  intros Hc HX. unfold rows_of.
  rewrite (length_concat_regular c) by done. rewrite Nat.Div0.mod_mul.
  rewrite bool_decide_eq_true_2, require_true_bind by done.
  by rewrite chunks_concat.
Qed.

Lemma Forall_bind_replicate {A} (P : A → Prop) (n : nat) (l : list A) :
  Forall P l → Forall P (l ≫= replicate n).
Proof.
  induction 1 as [|x l Hx Hl IH]; simpl; [done|].
  apply Forall_app. split; [by apply Forall_replicate|done].
Qed.

(** The rows of a group's attribute of fixed length [c], tiled. *)
Lemma tile_rows_group {A} (c n : nat) (f : A → list F) (group : list A) :
  0 < c → Forall (λ x, length (f x) = c) group →
  np_array ((λ x, NdArray [length (f x)] (f x)) <$> group)
    ≫= (λ a, rows_of c (data (np_tile a n)))
  = inr ((f <$> group) ≫= replicate n).
Proof.
  intros Hc Hf. destruct group as [|x group].
  { simpl. unfold rows_of, np_tile, chunks. simpl.
    rewrite bool_decide_eq_true_2 by (split; [done|apply Nat.Div0.mod_0_l]).
    rewrite require_true_bind, Nat.Div0.div_0_l. done. }
  rewrite (np_array_same_shape _ [c]), inr_bind; [|done|].
  2:{ apply Forall_fmap. eapply Forall_impl; [done|]. intros y Hy. simpl. by rewrite Hy. }
  rewrite length_fmap, <- list_fmap_compose.
  change (data ∘ _) with f.
  change [length (x :: group); c] with ([length (x :: group)] ++ [c]).
  rewrite np_tile_rows_data; [|done|by apply Forall_fmap].
  apply rows_of_concat; [done|].
  apply Forall_bind_replicate. by apply Forall_fmap.
Qed.

Lemma concat_one {A} (l : list A) : concat [l] = l.
Proof. simpl. apply app_nil_r. Qed.

Lemma concat_singletons {A B} (f : A → B) (l : list A) :
  concat ((λ x, [f x]) <$> l) = f <$> l.
Proof. induction l as [|y l IH]; simpl; [done|]. f_equal. apply IH. Qed.

(** A scalar attribute of a group, tiled. *)
Lemma tile_scalars_group {A} (n : nat) (f : A → F) (group : list A) :
  np_array ((λ x, NdArray [] [f x]) <$> group)
    ≫= (λ a, mret ((λ d, [d]) <$> data (np_tile a n)))
  = inr (concat (replicate n ((λ x, [f x]) <$> group))).
Proof.
  destruct group as [|x group].
  { simpl. unfold np_tile, chunks. simpl. f_equal.
    induction n as [|n IH]; simpl; [done|]. done. }
  rewrite (np_array_same_shape _ []), inr_bind; [|done|].
  2:{ apply Forall_fmap, Forall_true. done. }
  rewrite length_fmap, <- list_fmap_compose.
  change (data ∘ _) with (λ x : A, [f x]).
  rewrite concat_singletons. unfold np_tile. cbn [shape data List.last].
  assert (chunks (length (x :: group)) (f <$> x :: group) = [f <$> x :: group]) as ->.
  { unfold chunks. rewrite length_fmap, Nat.div_same by (simpl; lia).
    simpl. rewrite firstn_all2 by (rewrite length_fmap; simpl; lia). done. }
  rewrite list_fmap_singleton, concat_one. cbn [mret res_ret]. f_equal.
  generalize (x :: group). intros l.
  induction n as [|n IH]; [done|].
  cbn [replicate concat]. rewrite fmap_app, IH. f_equal.
  by rewrite <- list_fmap_compose.
Qed.

Lemma lookup_bind_replicate {A} (n r : nat) (l : list A) :
  r < length l * n → (l ≫= replicate n) !! r = l !! (r / n).
Proof.
  revert r. induction l as [|x l IH]; intros r Hr; simpl in *; [lia|].
  destruct (decide (r < n)) as [Hlt|Hge].
  - rewrite lookup_app_l by (by rewrite length_replicate).
    rewrite Nat.div_small by done. simpl. by apply lookup_replicate_2.
  - rewrite lookup_app_r by (rewrite length_replicate; lia).
    rewrite length_replicate. rewrite IH by lia.
    replace r with ((r - n) + 1 * n) at 2 by lia.
    rewrite Nat.div_add by lia. by rewrite Nat.add_1_r.
Qed.

Lemma lookup_concat_replicate {A} (n r : nat) (l : list A) :
  r < n * length l → concat (replicate n l) !! r = l !! (r mod length l).
Proof.
  revert r. induction n as [|n IH]; intros r Hr; simpl in *; [lia|].
  destruct (decide (r < length l)) as [Hlt|Hge].
  - rewrite lookup_app_l by done. by rewrite Nat.mod_small.
  - rewrite lookup_app_r by lia. rewrite IH by lia.
    replace r with ((r - length l) + 1 * length l) at 2 by lia.
    by rewrite Nat.Div0.mod_add.
Qed.

Lemma length_concat_replicate {A} (n : nat) (l : list A) :
  length (concat (replicate n l)) = n * length l.
Proof. induction n as [|n IH]; simpl; [done|]. rewrite length_app, IH. lia. Qed.

Lemma tile_mag_group (group : list obj) (n : nat) :
  tile_mag group n = inr (((λ src, flat3 (magnetization src)) <$> group) ≫= replicate n).
Proof.
  unfold tile_mag.
  pose proof (tile_rows_group 3 n (λ src, flat3 (magnetization src)) group) as Ht.
  etrans; [|apply Ht; [lia|apply Forall_true; intros; apply length_flat3]].
  f_equal. f_equal. apply list_fmap_ext. intros _ o _. by rewrite length_flat3.
Qed.

Lemma tile_moment_group (group : list obj) (n : nat) :
  tile_moment group n = inr (((λ src, flat3 (moment src)) <$> group) ≫= replicate n).
Proof.
  unfold tile_moment.
  pose proof (tile_rows_group 3 n (λ src, flat3 (moment src)) group) as Ht.
  etrans; [|apply Ht; [lia|apply Forall_true; intros; apply length_flat3]].
  f_equal. f_equal. apply list_fmap_ext. intros _ o _. by rewrite length_flat3.
Qed.

Lemma tile_dia_group (group : list obj) (n : nat) :
  tile_dia group n = inr (concat (replicate n ((λ src, [diameter src]) <$> group))).
Proof. apply (tile_scalars_group n diameter group). Qed.

Lemma tile_current_group (group : list obj) (n : nat) :
  tile_current group n = inr (concat (replicate n ((λ src, [current src]) <$> group))).
Proof. apply (tile_scalars_group n current group). Qed.

(** The vector attributes are tiled source by source: of the rows that
    [tile_mag] and [tile_moment] return for a group and [n_pp] observation
    tuples, row [r] holds the vector of source [r / n_pp]. *)
Theorem tile_vectors_source_major (group : list obj) (n_pp : nat) :
  ∃ magv momv,
    tile_mag group n_pp = inr magv ∧ tile_moment group n_pp = inr momv
    ∧ length magv = length group * n_pp ∧ length momv = length group * n_pp
    ∧ ∀ r, r < length group * n_pp →
        magv !! r = (λ src, flat3 (magnetization src)) <$> group !! (r / n_pp)
        ∧ momv !! r = (λ src, flat3 (moment src)) <$> group !! (r / n_pp).
Proof.
  exists (((λ src, flat3 (magnetization src)) <$> group) ≫= replicate n_pp),
         (((λ src, flat3 (moment src)) <$> group) ≫= replicate n_pp).
  split_and!.
  - apply tile_mag_group.
  - apply tile_moment_group.
  - by rewrite length_bind_replicate, length_fmap.
  - by rewrite length_bind_replicate, length_fmap.
  - intros r Hr.
    rewrite !lookup_bind_replicate, !list_lookup_fmap by (by rewrite length_fmap).
    done.
Qed.

Lemma tile_dimensions_rows (group : list obj) (n c : nat) :
  Forall (λ src, length (dimension src) = c) group →
  (c = 3 → tile_dim_cuboid group n = inr ((dimension <$> group) ≫= replicate n))
  ∧ (c = 2 → tile_dim_cylinder group n = inr ((dimension <$> group) ≫= replicate n))
  ∧ (c = 5 → tile_dim_cylinder_section group n
             = inr ((dimension <$> group) ≫= replicate n)).
Proof.
  intros Hc. split_and!.
  - intros ->. apply (tile_rows_group 3 n dimension group); [lia|done].
  - intros ->. apply (tile_rows_group 2 n dimension group); [lia|done].
  - intros ->. apply (tile_rows_group 5 n dimension group); [lia|done].
Qed.

(** The dimension helpers tile source by source as well, when every
    dimension of the group has the length the helper reshapes to. *)
Theorem tile_dimensions_source_major (group : list obj) (n_pp c : nat) :
  Forall (λ src, length (dimension src) = c) group →
  let rows := (dimension <$> group) ≫= replicate n_pp in
  (c = 3 → tile_dim_cuboid group n_pp = inr rows)
  ∧ (c = 2 → tile_dim_cylinder group n_pp = inr rows)
  ∧ (c = 5 → tile_dim_cylinder_section group n_pp = inr rows)
  ∧ ∀ r, r < length group * n_pp → rows !! r = dimension <$> group !! (r / n_pp).
Proof.
  intros Hc rows. destruct (tile_dimensions_rows group n_pp c Hc) as (H3 & H2 & H5).
  split_and!; [done..|]. intros r Hr. unfold rows.
    by rewrite lookup_bind_replicate, list_lookup_fmap by (by rewrite length_fmap).
Qed.

(** The scalar attributes are tiled differently: [tile_dia] and
    [tile_current] repeat the whole list of the group's scalars [n_pp]
    times, so that entry [r] belongs to source [r mod len(group)]. *)
Theorem tile_scalars_cyclic (group : list obj) (n_pp : nat) :
  ∃ diav currv,
    tile_dia group n_pp = inr diav ∧ tile_current group n_pp = inr currv
    ∧ length diav = n_pp * length group ∧ length currv = n_pp * length group
    ∧ ∀ r, r < n_pp * length group →
        diav !! r = (λ src, [diameter src]) <$> group !! (r mod length group)
        ∧ currv !! r = (λ src, [current src]) <$> group !! (r mod length group).
Proof.
  exists (concat (replicate n_pp ((λ src, [diameter src]) <$> group))),
         (concat (replicate n_pp ((λ src, [current src]) <$> group))).
  split_and!.
  - apply tile_dia_group.
  - apply tile_current_group.
  - by rewrite length_concat_replicate, length_fmap.
  - by rewrite length_concat_replicate, length_fmap.
  - intros r Hr.
    rewrite !lookup_concat_replicate, !list_lookup_fmap, !length_fmap
      by (by rewrite length_fmap).
    done.
Qed.

Lemma concat_fmap_bind {A B} (f : B → list F) (g : A → list B) (l : list A) :
  concat ((λ x, concat (f <$> g x)) <$> l) = concat (f <$> (l ≫= g)).
Proof.
  induction l as [|x l IH]; simpl; [done|].
  rewrite fmap_app, concat_app. f_equal. apply IH.
Qed.

(** The positions of a group whose paths all have [m] steps, tiled. *)
Lemma tile_positions_group (group : list obj) (m n : nat) :
  group ≠ [] → Forall (λ src, length (_position src) = m) group →
  np_array (position_array ∘ _position <$> group)
    ≫= (λ poss, rows3 (data (np_tile poss n)))
  = inr ((group ≫= _position) ≫= replicate n).
Proof.
  intros Hne Hm.
  rewrite (np_array_same_shape _ [m; 3]), inr_bind.
  2:{ by destruct group. }
  2:{ apply Forall_fmap. eapply Forall_impl; [done|]. intros o Ho. simpl. by rewrite Ho. }
  rewrite <- list_fmap_compose.
  change (data ∘ (position_array ∘ _position))
    with (λ o : obj, concat (flat3 <$> _position o)).
  rewrite (concat_fmap_bind flat3 _position).
  change (length (position_array ∘ _position <$> group) :: [m; 3])
    with ([length (position_array ∘ _position <$> group); m] ++ [3]).
  rewrite np_tile_rows_data; [|lia|].
  2:{ apply Forall_fmap, Forall_true. intros v. apply length_flat3. }
  rewrite <- fmap_bind_replicate. apply rows3_flat3.
Qed.

Lemma tile_orientations_group (group : list obj) (m n : nat) :
  group ≠ [] → Forall (λ src, length (_orientation src) = m) group →
  np_array (quat_array ∘ _orientation <$> group)
    ≫= (λ rots, rows4 (data (np_tile rots n)))
  = inr ((group ≫= _orientation) ≫= replicate n).
Proof.
  intros Hne Hm.
  rewrite (np_array_same_shape _ [m; 4]), inr_bind.
  2:{ by destruct group. }
  2:{ apply Forall_fmap. eapply Forall_impl; [done|]. intros o Ho. simpl. by rewrite Ho. }
  rewrite <- list_fmap_compose.
  change (data ∘ (quat_array ∘ _orientation))
    with (λ o : obj, concat (flat4 <$> _orientation o)).
  rewrite (concat_fmap_bind flat4 _orientation).
  change (length (quat_array ∘ _orientation <$> group) :: [m; 4])
    with ([length (quat_array ∘ _orientation <$> group); m] ++ [4]).
  rewrite np_tile_rows_data; [|lia|].
  2:{ apply Forall_fmap, Forall_true. intros v. apply length_flat4. }
  rewrite <- fmap_bind_replicate. apply rows4_flat4.
Qed.

Lemma bind_assoc_inr {A B C} (r : res A) (f : A → res B) (g : B → res C) (b : B) :
  r ≫= f = inr b → (r ≫= λ a, f a ≫= g) = g b.
Proof. destruct r as [e|a]; simpl; [done|]. by intros ->. Qed.

(** [get_src_dict] ends in the internal error for a group whose first
    source carries none of the seven tags, once the arrays that every kind
    has are built. *)
Theorem get_src_dict_unknown_type (src : obj) (group : list obj)
    (m n_pix n_pp : nat) (poso : list vec3) :
  _object_type src ∉ ["Sphere"; "Cuboid"; "Cylinder"; "CylinderSegment"; "Dipole";
                      "Circular"; "Line"] →
  Forall (λ x, length (_position x) = m ∧ length (_orientation x) = m) (src :: group) →
  get_src_dict (src :: group) n_pix n_pp poso = inl MagpylibInternalError.
Proof.
  intros Ht Hm. unfold get_src_dict.
  erewrite bind_assoc_inr.
  2:{ apply (tile_positions_group _ m); [done|].
      eapply Forall_impl; [done|]. by intros ? [? _]. }
  erewrite bind_assoc_inr.
  2:{ apply (tile_orientations_group _ m); [done|].
      eapply Forall_impl; [done|]. by intros ? [_ ?]. }
  cbn [head fmap option_fmap option_map from_option]. rewrite inr_bind.
  do 7 (apply not_elem_of_cons in Ht as [? Ht]).
  by rewrite !decide_False by done.
Qed.

(** For a group of one kind whose paths all have [m] steps, [get_src_dict]
    returns the positions and orientations source by source and step by
    step, each repeated [n_pix] times, the observation points repeated once
    per source, and the kind's own entries with one row per source and
    observation tuple (one row per source for a Line). *)
Theorem get_src_dict_layout (t : string) (group : list obj)
    (m n_pix n_pp : nat) (poso : list vec3) :
  group ≠ [] →
  t ∈ ["Sphere"; "Cuboid"; "Cylinder"; "CylinderSegment"; "Dipole"; "Circular";
       "Line"] →
  Forall (λ x, _object_type x = t ∧ wf_attributes x
               ∧ length (_position x) = m ∧ length (_orientation x) = m) group →
  ∃ d, get_src_dict group n_pix n_pp poso = inr d
    ∧ sd_source_type d = t
    ∧ sd_position d = (group ≫= _position) ≫= replicate n_pix
    ∧ sd_orientation d = (group ≫= _orientation) ≫= replicate n_pix
    ∧ sd_observer d = concat (replicate (length group) poso)
    ∧ Forall (λ kv, length kv.2 = if decide (t = "Line") then length group
                                  else length group * n_pp) (sd_fields d).
Proof.
  intros Hne Ht Hg. unfold get_src_dict.
  erewrite bind_assoc_inr.
  2:{ apply (tile_positions_group _ m); [done|].
      eapply Forall_impl; [done|]. by intros ? (_ & _ & ? & _). }
  erewrite bind_assoc_inr.
  2:{ apply (tile_orientations_group _ m); [done|].
      eapply Forall_impl; [done|]. by intros ? (_ & _ & _ & ?). }
  destruct group as [|src group]; [done|].
  cbn [head fmap option_fmap option_map from_option]. rewrite inr_bind.
  assert (Hsrc : _object_type src = t).
  { apply Forall_cons in Hg as [[? _] _]. done. }
  rewrite Hsrc.
  set (g := src :: group) in *.
  assert (Hdim : ∀ c,
            (∀ x, _object_type x = t → wf_attributes x → length (dimension x) = c) →
            Forall (λ x, length (dimension x) = c) g).
  { intros c Hx. eapply Forall_impl; [done|]. intros x (? & ? & _). by apply Hx. }
  unfold np_tile_rows.
  repeat (apply elem_of_cons in Ht as [->|Ht]); [..|by apply elem_of_nil in Ht].
  - rewrite decide_True by done.
    rewrite tile_mag_group, inr_bind, tile_dia_group, inr_bind.
    eexists. split; [done|]. split_and!; try done. cbn [sd_fields].
    rewrite decide_False by done. repeat constructor; cbn [snd].
    + by rewrite length_bind_replicate, length_fmap.
    + rewrite length_concat_replicate, length_fmap. lia.
  - rewrite decide_False, decide_True by done.
    rewrite tile_mag_group, inr_bind.
    destruct (tile_dimensions_rows g n_pp 3) as (Hd & _).
    { apply Hdim. intros x Hx (W & _). by apply W. }
    rewrite Hd by done. rewrite inr_bind.
    eexists. split; [done|]. split_and!; try done. cbn [sd_fields].
    rewrite decide_False by done. repeat constructor; cbn [snd].
    + by rewrite length_bind_replicate, length_fmap.
    + by rewrite length_bind_replicate, length_fmap.
  - do 2 rewrite decide_False by done. rewrite decide_True by done.
    rewrite tile_mag_group, inr_bind.
    destruct (tile_dimensions_rows g n_pp 2) as (_ & Hd & _).
    { apply Hdim. intros x Hx (_ & W & _). by apply W. }
    rewrite Hd by done. rewrite inr_bind.
    eexists. split; [done|]. split_and!; try done. cbn [sd_fields].
    rewrite decide_False by done. repeat constructor; cbn [snd].
    + by rewrite length_bind_replicate, length_fmap.
    + by rewrite length_bind_replicate, length_fmap.
  - do 3 rewrite decide_False by done. rewrite decide_True by done.
    rewrite tile_mag_group, inr_bind.
    destruct (tile_dimensions_rows g n_pp 5) as (_ & _ & Hd).
    { apply Hdim. intros x Hx (_ & _ & W). by apply W. }
    rewrite Hd by done. rewrite inr_bind.
    eexists. split; [done|]. split_and!; try done. cbn [sd_fields].
    rewrite decide_False by done. repeat constructor; cbn [snd].
    + by rewrite length_bind_replicate, length_fmap.
    + by rewrite length_bind_replicate, length_fmap.
  - do 4 rewrite decide_False by done. rewrite decide_True by done.
    rewrite tile_moment_group, inr_bind.
    eexists. split; [done|]. split_and!; try done. cbn [sd_fields].
    rewrite decide_False by done. repeat constructor; cbn [snd].
    by rewrite length_bind_replicate, length_fmap.
  - do 5 rewrite decide_False by done. rewrite decide_True by done.
    rewrite tile_current_group, inr_bind, tile_dia_group, inr_bind.
    eexists. split; [done|]. split_and!; try done. cbn [sd_fields].
    rewrite decide_False by done. repeat constructor; cbn [snd].
    + rewrite length_concat_replicate, length_fmap. lia.
    + rewrite length_concat_replicate, length_fmap. lia.
  - do 6 rewrite decide_False by done. rewrite decide_True by done.
    eexists. split; [done|]. split_and!; try done. cbn [sd_fields].
    rewrite decide_True by done. repeat constructor; cbn [snd].
    + by rewrite length_fmap.
    + by rewrite length_fmap.
Qed.

End kernel_input.
(** ** What a call leaves behind *)

Section call_effects.

Context `{!Numerics, !InputChecks}.

Lemma tile_loop_frame m l : ∀ st st1 r y,
  tile_loop m st l = (st1, r) → y ∉ l.*1 → st1 !! y = st !! y.
Proof.
  induction l as [|[x m0] l IH]; intros st st1 r y Hl Hy; simpl in Hl.
  - by injection Hl as <- _.
  - apply not_elem_of_cons in Hy as [Hyx Hy]. simpl in Hyx.
    destruct (tile_obj m m0 (st !!! x)) as [o' [e|[]]] eqn:Ho.
    + injection Hl as <- _. by rewrite lookup_insert_ne.
    + rewrite (IH _ _ _ _ Hl Hy). by rewrite lookup_insert_ne.
Qed.

Lemma reset_loop_frame l : ∀ st y,
  y ∉ l.*1 → reset_loop st l !! y = st !! y.
Proof.
  unfold reset_loop.
  induction l as [|[x m0] l IH]; intros st y Hy; simpl; [done|].
  apply not_elem_of_cons in Hy as [Hyx Hy]. simpl in Hyx.
  rewrite IH by done. by rewrite lookup_insert_ne.
Qed.

Lemma tile_paths_frame m l st st1 r y :
  tile_paths m st l = (st1, r) → y ∉ l.*1 → st1 !! y = st !! y.
Proof.
  unfold tile_paths. case_decide.
  - apply tile_loop_frame.
  - by intros [= <- _].
Qed.

Lemma call_tail_frame rt bh srcs sensors sumup squeeze st pix_shape m l y :
  y ∉ l.*1 →
  (call_tail rt bh srcs sensors sumup squeeze st pix_shape m l).1 !! y = st !! y.
Proof.
  intros Hy. unfold call_tail.
  destruct (tile_paths m st l) as [st1 r] eqn:Ht.
  pose proof (tile_paths_frame _ _ _ _ _ _ Ht Hy) as Hst1.
  destruct r as [e|[]]; [done|].
  destruct (field_array _ _ _ _ _ _ _ _ _ _ _ _) as [e|B]; [done|].
  simpl. by rewrite reset_loop_frame.
Qed.

(** The call writes to no object outside the flat source list and the
    sensors, and to no object whose path already has the aligned length,
    whether it returns or raises. *)
Theorem call_touches_only_short_paths rt bh srcs sensors sumup squeeze st x :
  valid_iter rt →
  x ∉ participants st srcs sensors
  ∨ plen st x = aligned_length rt st srcs sensors →
  (getBH_level2 rt bh srcs sensors sumup squeeze st).1 !! x = st !! x.
Proof.
  intros Hv Hx. rewrite getBH_level2_eq.
  repeat (match goal with |- context [if ?b then _ else _] => destruct b end;
          [done|]); simpl.
  destruct (head _); [|done].
  destruct (path_lengths _ _); [done|].
  apply call_tail_frame. rewrite reset_pairs_fst.
  intros [Hne Hin]%list_elem_of_filter.
  destruct Hx as [Hx|Hx].
  - apply Hx. unfold obj_list_of in Hin. by apply valid_iter_elem in Hin.
  - apply Hne. by rewrite Hx.
Qed.

Lemma tile_paths_ok m st ol :
  NoDup ol → wf_paths st ol →
  ∃ st1, tile_paths m st (reset_pairs st ol) = (st1, inr tt).
Proof.
  intros Hnd Hwf. unfold tile_paths. case_decide; [|by eexists].
  apply tile_loop_ok; [by apply reset_pairs_NoDup|].
  intros y m0 (Hy & _)%reset_pairs_elem. destruct (Hwf y Hy) as [Hp Ho].
  split; [done|]. intros E. rewrite E in Ho. simpl in Ho.
  by destruct (_position (st !!! y)).
Qed.

Lemma wf_paths_obj_list rt st srcs sensors :
  valid_iter rt → wf_paths st (participants st srcs sensors) →
  wf_paths st (obj_list_of rt st srcs sensors).
Proof.
  intros Hv Hwf x Hx. apply Hwf. unfold obj_list_of in Hx.
  by apply valid_iter_elem in Hx.
Qed.

(** The reset loop stands at the end of the function and nothing catches an
    exception before it: a call that gets past the input checks and then
    raises leaves every participant with its path padded to the aligned
    length. *)
Theorem failed_call_leaves_paths_padded rt bh srcs sensors sumup squeeze st st' e :
  valid_iter rt →
  wf_paths st (participants st srcs sensors) →
  sensors ≠ [] →
  getBH_level2 rt bh srcs sensors sumup squeeze st = (st', inl e) →
  e ≠ MagpylibBadUserInput →
  let m := aligned_length rt st srcs sensors in
  ∀ x, x ∈ participants st srcs sensors →
    st' !!! x = tiled m (plen st x) (st !!! x) ∧ plen st' x = m ∧ olen st' x = m.
Proof.
  intros Hv Hwf Hsens Hcall He m x Hx.
  rewrite getBH_level2_eq in Hcall.
  repeat (match type of Hcall with context [if ?b then _ else _] => destruct b end;
          [injection Hcall as _ <-; done|]); simpl in Hcall.
  destruct sensors as [|s0 sensors]; [done|]. cbn [head fmap list_fmap] in Hcall.
  set (sens := s0 :: sensors) in *.
  set (ol := obj_list_of rt st srcs sens) in *.
  assert (Hnd : NoDup ol) by (by apply valid_iter_NoDup).
  assert (Hin : x ∈ ol) by (unfold ol, obj_list_of; by apply valid_iter_elem).
  assert (Hne : ol ≠ []).
  { intros E. rewrite E in Hin. by apply elem_of_nil in Hin. }
  assert (Hwfo : wf_paths st ol) by (by apply wf_paths_obj_list).
  destruct (path_lengths st ol) eqn:Epl.
  { destruct ol; [done|]. done. }
  clear Epl. unfold call_tail in Hcall.
  destruct (tile_paths_ok (aligned_length rt st srcs sens) st ol Hnd Hwfo) as [st1 Ht].
  rewrite Ht in Hcall.
  destruct (field_array _ _ _ _ _ _ _ _ _ _ _ _) as [e'|B]; [|done].
  injection Hcall as <- <-.
  by apply (tile_paths_aligned st ol st1).
Qed.

Lemma fmap_bind_res {A B C} (f : B → C) (r : res A) (k : A → res B) :
  f <$> (r ≫= k) = r ≫= (λ a, f <$> k a).
Proof. by destruct r. Qed.

Lemma field_array_flags rt bh st srcs src_list sensors pix_shape unrot static m
    sumup squeeze :
  field_array rt bh st srcs src_list sensors pix_shape unrot static m sumup squeeze
  = finish sumup squeeze
      <$> field_array rt bh st srcs src_list sensors pix_shape unrot static m
            false false.
Proof.
  unfold field_array.
  destruct (mapM _ sensors) as [e|poso]; [done|]. rewrite !inr_bind.
  destruct (np_concatenate_axis1 poso) as [e|poso']; [done|]. rewrite !inr_bind.
  destruct (require _ _) as [e|[]]; [done|]. rewrite !inr_bind.
  destruct (group_sources st src_list) as [src_sorted order].
  destruct (foldlM _ _ _) as [e|B]; [done|]. rewrite !inr_bind.
  destruct (collection_sum _ _ _ _ _ _ _) as [e|B1]; [done|]. rewrite !inr_bind.
  destruct (apply_sensor_rotations _ _ _ _ _ _ _ _) as [e|B2]; [done|].
  rewrite !inr_bind.
  destruct (np_reshape _ _) as [e|B3]; [done|]. done.
Qed.

(** [sumup] and [squeeze] only post-process the array: with them the call
    raises exactly when it raises without them, leaves the same store
    behind, and returns the unsummed, unsqueezed array summed over its
    first axis and squeezed, in this order. *)
Theorem flags_only_postprocess rt bh srcs sensors sumup squeeze st :
  getBH_level2 rt bh srcs sensors sumup squeeze st
  = ((getBH_level2 rt bh srcs sensors false false st).1,
     finish sumup squeeze <$> (getBH_level2 rt bh srcs sensors false false st).2).
Proof.
  rewrite !getBH_level2_eq.
  repeat (match goal with |- context [if ?b then _ else _] => destruct b end;
          [done|]); simpl.
  destruct (head _); [|done].
  destruct (path_lengths _ _); [done|].
  unfold call_tail.
  destruct (tile_paths _ _ _) as [st1 [e|[]]]; [done|].
  rewrite (field_array_flags _ _ _ _ _ _ _ _ _ _ sumup squeeze).
  by destruct (field_array _ _ _ _ _ _ _ _ _ _ false false).
Qed.

End call_effects.
(** ** Collection rows and buckets *)

Section row_order.

Context `{!Numerics, !InputChecks}.

Lemma np_sum_blocks_single m n (b : block) : np_sum_blocks m n [b] = b.
Proof. done. Qed.

Lemma collection_step_group st m n_pix (done_rows : list block) (g : list block)
    (rest : list block) (src : objid) :
  length g = width st src → 0 < length g →
  collection_step st m n_pix (done_rows ++ g ++ rest) (length done_rows, src)
  = inr (done_rows ++ np_sum_blocks m n_pix g :: rest).
Proof.
  intros Hg Hpos. unfold collection_step, width in *.
  destruct (decide (_object_type (st !!! src) = "Collection")) as [Hc|Hc].
  - rewrite <- Hg. set (i := length done_rows).
    assert (slice i (i + length g) (done_rows ++ g ++ rest) = g) as ->.
    { unfold slice, i. rewrite drop_app_length.
      replace (length done_rows + length g - length done_rows) with (length g) by lia.
      by rewrite take_app_length. }
    rewrite bool_decide_eq_true_2, require_true_bind.
    2:{ rewrite !length_app. unfold i. lia. }
    cbn [mret res_ret]. f_equal.
    destruct g as [|b g]; [simpl in Hpos; lia|].
    unfold i. rewrite insert_app_r_alt, Nat.sub_diag by lia. cbn [app insert list_insert].
    unfold np_delete. case_decide as Hlt.
    + rewrite take_app_ge by lia. rewrite drop_app_ge by lia.
      replace (length done_rows + 1 - length done_rows) with 1 by lia.
      replace (length done_rows + length (b :: g) - length done_rows)
        with (S (length g)) by (simpl; lia).
      cbn [take drop]. rewrite take_0, drop_app_length. by rewrite <- app_assoc.
    + destruct g; [done|]. simpl in Hlt. lia.
  - destruct g as [|b [|??]]; simpl in Hg; try lia. done.
Qed.

Lemma collection_loop_groups st m n_pix (srcs : list objid) :
  ∀ (groups : list (list block)) (done_rows : list block),
  Forall2 (λ src g, length g = width st src ∧ 0 < length g) srcs groups →
  foldlM (collection_step st m n_pix) (done_rows ++ concat groups)
         (imap (λ i src, (length done_rows + i, src)) srcs)
  = inr (done_rows ++ (np_sum_blocks m n_pix <$> groups)).
Proof.
  induction srcs as [|src srcs IH]; intros groups done_rows Hg.
  - apply Forall2_nil_inv_l in Hg as ->. done.
  - apply Forall2_cons_inv_l in Hg as (g & groups' & [Hw Hpos] & Hg & ->).
    cbn [imap foldlM concat]. rewrite Nat.add_0_r.
    rewrite collection_step_group, inr_bind by done.
    replace (done_rows ++ np_sum_blocks m n_pix g :: concat groups')
      with ((done_rows ++ [np_sum_blocks m n_pix g]) ++ concat groups')
      by (by rewrite <- app_assoc).
    rewrite (imap_ext _ (λ i src0, (length (done_rows ++ [np_sum_blocks m n_pix g]) + i,
                                    src0))).
    2:{ intros i y _. simpl. rewrite length_app. simpl. f_equal. lia. }
    rewrite IH by done. by rewrite <- app_assoc.
Qed.

Lemma length_concat_nonempty st (srcs : list objid) (groups : list (list block)) :
  Forall2 (λ src g, length g = width st src ∧ 0 < length g) srcs groups →
  length srcs ≤ length (concat groups).
Proof.
  induction 1 as [|src g srcs groups [_ Hpos] _ IH]; simpl; [done|].
  rewrite length_app. lia.
Qed.

Lemma singleton_groups st (srcs : list objid) (groups : list (list block)) m n :
  Forall2 (λ src g, length g = width st src ∧ 0 < length g) srcs groups →
  length (concat groups) ≤ length srcs →
  concat groups = np_sum_blocks m n <$> groups.
Proof.
  induction 1 as [|src g srcs groups [_ Hpos] Hg IH]; simpl; [done|].
  rewrite length_app. intros Hle.
  pose proof (length_concat_nonempty st srcs groups Hg).
  destruct g as [|b [|??]]; simpl in *; try lia.
  f_equal. apply IH. lia.
Qed.

(** The collection summation: when the rows of [B] are those of the
    top-level sources in order, a Collection with its members' rows (at
    least one) and any other source with its own row, the summation leaves
    one row per top-level source, the sum of its rows. *)
Theorem collection_sum_groups st (srcs : list objid) (groups : list (list block))
    (m n_pix : nat) :
  Forall2 (λ src g, length g = width st src ∧ 0 < length g) srcs groups →
  collection_sum st srcs (length (concat groups)) (length srcs) m n_pix (concat groups)
  = inr (np_sum_blocks m n_pix <$> groups).
Proof.
  intros Hg. unfold collection_sum. case_decide as Hl.
  - apply (collection_loop_groups st m n_pix srcs groups [] Hg).
  - cbn [mret res_ret]. f_equal. apply (singleton_groups st srcs); [done|lia].
Qed.

Lemma concat_fmap_nil {A B} (bs : list B) : concat ((λ _, @nil A) <$> bs) = [].
Proof. induction bs; simpl; [done|]. done. Qed.

Lemma Permutation_eq_refl {A} (l k : list A) : l = k → l ≡ₚ k.
Proof. by intros ->. Qed.

Lemma concat_cons_one {A} (x : A) (b0 : nat) (f : nat → list A) (bs : list nat) :
  NoDup bs → b0 ∈ bs →
  concat ((λ b, if decide (b = b0) then x :: f b else f b) <$> bs)
  ≡ₚ x :: concat (f <$> bs).
Proof.
  induction bs as [|b bs IH]; intros Hnd Hin; [by apply elem_of_nil in Hin|].
  apply NoDup_cons in Hnd as [Hb Hnd]. cbn [fmap list_fmap concat].
  case_decide as E.
  - subst b. apply Permutation_eq_refl. simpl. do 3 f_equal.
    apply list_fmap_ext. intros _ b' Hb'%list_elem_of_lookup_2.
    rewrite decide_False; [done|]. by intros ->.
  - apply elem_of_cons in Hin as [->|Hin]; [done|].
    change (list_fmap nat (list A) ?g bs) with (g <$> bs).
    rewrite IH by done. by rewrite Permutation_middle.
Qed.

Lemma buckets_partition {A} (c : A → option nat) (n : nat) (E : list A) :
  (∀ x b, c x = Some b → b < n) →
  concat ((λ b, filter (λ x, c x = Some b) E) <$> seq 0 n)
  ≡ₚ filter (λ x, is_Some (c x)) E.
Proof.
  intros Hc. induction E as [|x E IH].
  - apply Permutation_eq_refl. generalize (seq 0 n). intros bs.
    induction bs as [|b bs IHb]; [done|]. cbn [fmap list_fmap concat].
    by rewrite filter_nil.
  - destruct (c x) as [b0|] eqn:Hx.
    + rewrite (filter_cons_True (λ x, is_Some (c x))) by (by rewrite Hx).
      rewrite <- IH.
      rewrite <- (concat_cons_one x b0 (λ b, filter (λ x, c x = Some b) E) (seq 0 n)).
      * apply Permutation_eq_refl. f_equal. apply list_fmap_ext. intros _ b _.
        case_decide as E'.
        -- subst b. by rewrite filter_cons_True.
        -- rewrite filter_cons_False; [done|]. congruence.
      * apply NoDup_seq.
      * apply elem_of_seq. specialize (Hc x b0 Hx). lia.
    + rewrite (filter_cons_False (λ x, is_Some (c x))).
      2:{ rewrite Hx. by intros [? ?]. }
      rewrite <- IH. apply Permutation_eq_refl. f_equal.
      apply list_fmap_ext. intros _ b _.
      rewrite filter_cons_False; [done|]. congruence.
Qed.

Lemma fmap_concat {A B} (f : A → B) (X : list (list A)) :
  f <$> concat X = concat ((λ l : list A, f <$> l) <$> X).
Proof. induction X as [|x X IH]; simpl; [done|]. by rewrite fmap_app, IH. Qed.

Lemma filter_enumerate_sorted {A} (P : nat * A → Prop) `{!∀ e, Decision (P e)}
    (l : list A) : ∀ k,
  StronglySorted lt (fst <$> filter P (imap (λ i x, (k + i, x)) l))
  ∧ Forall (λ i, k ≤ i) (fst <$> filter P (imap (λ i x, (k + i, x)) l)).
Proof.
  induction l as [|x l IH]; intros k; cbn [imap]; [split; constructor|].
  destruct (IH (S k)) as [IH1 IH2].
  rewrite (imap_ext _ (λ i x0, (S k + i, x0)))
    by (intros; simpl; f_equal; lia).
  destruct (decide (P (k + 0, x))) as [HP|HP].
  - rewrite filter_cons_True by done. cbn [fmap list_fmap fst]. split.
    + constructor; [done|]. eapply Forall_impl; [exact IH2|]. simpl. lia.
    + constructor; [lia|]. eapply Forall_impl; [exact IH2|]. simpl. lia.
  - rewrite filter_cons_False by done. split; [done|].
    eapply Forall_impl; [exact IH2|]. simpl. lia.
Qed.

Lemma StronglySorted_lt_NoDup (l : list nat) : StronglySorted lt l → NoDup l.
Proof.
  induction 1 as [|x l _ IH Hx]; constructor; [|done].
  intros Hin. rewrite Forall_forall in Hx. specialize (Hx x Hin). lia.
Qed.

(** The grouping loop puts every source that carries one of the seven tags
    into exactly one bucket, together with its index in the flat list, and
    keeps the order of the flat list inside a bucket; a source with another
    tag gets into no bucket. *)
Theorem grouping_partitions_known_sources st (src_list : list objid) :
  let src_sorted := (group_sources st src_list).1 in
  let order := (group_sources st src_list).2 in
  length src_sorted = 7 ∧ length order = 7
  ∧ (∀ b k i, (order !!! b) !! k = Some i →
       (src_sorted !!! b) !! k = src_list !! i
       ∧ ∃ src, src_list !! i = Some src
                ∧ bucket_of (_object_type (st !!! src)) = Some b)
  ∧ (∀ b, StronglySorted lt (order !!! b))
  ∧ NoDup (concat order)
  ∧ (∀ i, i ∈ concat order ↔
          ∃ src, src_list !! i = Some src
                 ∧ is_Some (bucket_of (_object_type (st !!! src)))).
Proof.
  intros src_sorted order. unfold src_sorted, order. clear src_sorted order.
  rewrite group_sources_spec. cbn [fst snd].
  assert (Hlk : ∀ {A} `{!Inhabited A} (f : nat → A) b,
            b < 7 → (f <$> seq 0 7) !!! b = f b).
  { intros A ? f b Hb. rewrite list_lookup_total_alt, lookup_buckets.
    by rewrite decide_True. }
  assert (Hout : ∀ {A} (f : nat → list A) b, ¬ b < 7 → (f <$> seq 0 7) !!! b = []).
  { intros A f b Hb. rewrite list_lookup_total_alt, lookup_buckets.
    by rewrite decide_False. }
  assert (Henum : ∀ l : list objid, enumerate l = imap (λ i x, (0 + i, x)) l)
    by done.
  assert (Hperm : concat (bucket_order st src_list <$> seq 0 7)
            ≡ₚ fst <$> filter (λ e : nat * objid,
                                 is_Some (bucket_of (_object_type (st !!! e.2))))
                         (enumerate src_list)).
  { unfold bucket_order.
    rewrite <- (buckets_partition
                  (λ e : nat * objid, bucket_of (_object_type (st !!! e.2))) 7).
    2:{ intros e b. apply bucket_of_lt. }
    rewrite fmap_concat, <- list_fmap_compose. done. }
  split_and!.
  - by rewrite length_fmap, length_seq.
  - by rewrite length_fmap, length_seq.
  - intros b k i Hk. destruct (decide (b < 7)) as [Hb|Hb].
    2:{ by rewrite Hout in Hk. }
    rewrite Hlk in Hk by done. rewrite Hlk by done.
    unfold bucket_order, bucket_members in *.
    rewrite list_lookup_fmap in Hk. rewrite list_lookup_fmap.
    destruct (filter _ _ !! k) as [[i' src]|] eqn:E; [|done].
    injection Hk as ->. simpl.
    apply list_elem_of_lookup_2, list_elem_of_filter in E as [Hin He].
    apply elem_of_enumerate in He. rewrite He. split; [done|]. by exists src.
  - intros b. destruct (decide (b < 7)) as [Hb|Hb].
    2:{ rewrite Hout by done. constructor. }
    rewrite Hlk by done. unfold bucket_order. rewrite Henum.
    apply filter_enumerate_sorted.
  - rewrite Hperm. apply StronglySorted_lt_NoDup. rewrite Henum.
    apply filter_enumerate_sorted.
  - intros i. rewrite Hperm, list_elem_of_fmap. split.
    + intros ([j src] & -> & [Hb Hin]%list_elem_of_filter).
      apply elem_of_enumerate in Hin. by exists src.
    + intros (src & Hi & Hb). exists (i, src). split; [done|].
      apply list_elem_of_filter. split; [done|]. by apply elem_of_enumerate.
Qed.

End row_order.
(** ** Sensor frames *)

Section sensor_frames.

Context `{!Numerics, !InputChecks}.

Lemma lookup_back_rotate_px q a b c (px : list vec3) v :
  a ≤ b → b ≤ length px → px !! c = Some v →
  back_rotate_px q a b px !! c
  = Some (if decide (a ≤ c < b) then rot_apply (rot_inv q) v else v).
Proof.
  intros Hab Hb Hc. unfold back_rotate_px, set_slice.
  rewrite length_slice by done.
  pose proof (lookup_lt_Some _ _ _ Hc) as Hlt.
  destruct (decide (c < a)) as [Hca|Hca].
  { rewrite lookup_app_l by (rewrite length_take; lia).
    rewrite lookup_take_lt by done. rewrite decide_False by lia. done. }
  rewrite lookup_app_r by (rewrite length_take; lia).
  rewrite length_take, Nat.min_l by lia.
  destruct (decide (c < b)) as [Hcb|Hcb].
  - rewrite lookup_app_l by (rewrite length_fmap, length_slice; lia).
    rewrite list_lookup_fmap. unfold slice.
    rewrite lookup_take_lt by lia. rewrite lookup_drop.
    replace (a + (c - a)) with c by lia. rewrite Hc. simpl.
    by rewrite decide_True by lia.
  - rewrite lookup_app_r by (rewrite length_fmap, length_slice; lia).
    rewrite length_fmap, length_slice by done. rewrite lookup_drop.
    replace (a + (b - a) + (c - a - (b - a))) with c by lia. rewrite Hc.
    by rewrite decide_False by lia.
Qed.

Lemma at3_back_rotate qs a b l0 m n (B : list block) r j c v q :
  regular l0 m n B → a ≤ b → b ≤ n →
  qs !! j = Some q → at3 B r j c = Some v →
  at3 (back_rotate_block qs a b <$> B) r j c
  = Some (if decide (a ≤ c < b) then rot_apply (rot_inv q) v else v).
Proof.
  intros [_ HB] Hab Hb Hq Hv. unfold at3 in *. rewrite list_lookup_fmap.
  destruct (B !! r) as [blk|] eqn:Hr; [|done]. simpl in *.
  destruct (blk !! j) as [px|] eqn:Hj; [|done]. simpl in *.
  rewrite Forall_lookup in HB. destruct (HB _ _ Hr) as [_ Hpx].
  rewrite Forall_lookup in Hpx. specialize (Hpx _ _ Hj). simpl in Hpx.
  unfold back_rotate_block. rewrite lookup_zip_with, Hq. simpl. rewrite Hj. simpl.
  apply lookup_back_rotate_px; [done|lia|done].
Qed.

Lemma at3_bounds l0 m n (B : list block) r j c v :
  regular l0 m n B → at3 B r j c = Some v → r < l0 ∧ j < m ∧ c < n.
Proof.
  intros [Hl HB] Hv. unfold at3 in Hv.
  destruct (B !! r) as [blk|] eqn:Hr; [|done]. simpl in *.
  destruct (blk !! j) as [px|] eqn:Hj; [|done]. simpl in *.
  rewrite Forall_lookup in HB. destruct (HB _ _ Hr) as [Hm Hpx].
  rewrite Forall_lookup in Hpx. specialize (Hpx _ _ Hj). simpl in Hpx.
  apply lookup_lt_Some in Hr, Hj, Hv. lia.
Qed.

Lemma enumerate_lookup {A} (l : list A) i x :
  l !! i = Some x → enumerate l !! i = Some (i, x).
Proof. intros Hi. unfold enumerate. by rewrite list_lookup_imap, Hi. Qed.

Lemma length_enumerate {A} (l : list A) : length (enumerate l) = length l.
Proof. unfold enumerate. apply length_imap. Qed.

Lemma rotations_prefix st st1 sensors k_pixel l0 m (B : list block) :
  (∀ v, rot_apply (rot_inv unitQ) v = v) →
  sensors_tiled st st1 sensors m →
  regular l0 m (length sensors * k_pixel) B →
  ∀ t, t ≤ length sensors →
  ∃ Bt, foldlM (rotation_step st1 (unrotated_sensors st sensors)
                  (check_static_sensor_orient st sensors) k_pixel l0 m)
               B (take t (enumerate sensors)) = inr Bt
    ∧ regular l0 m (length sensors * k_pixel) Bt
    ∧ ∀ r j c v q, at3 B r j c = Some v →
        frame_of st1 sensors k_pixel j c = Some q →
        at3 Bt r j c
        = Some (if decide (c < t * k_pixel) then rot_apply (rot_inv q) v else v).
Proof.
  intros Hid Hs HB t. induction t as [|t IH]; intros Ht.
  { exists B. split; [done|]. split; [done|]. intros r j c v q Hv _.
    by rewrite decide_False by lia. }
  destruct IH as (Bt & Hfold & HBt & Hpt); [lia|].
  destruct (lookup_lt_is_Some_2 sensors t) as [sens Hsens]; [lia|].
  rewrite (take_S_r _ _ (t, sens)) by (by apply enumerate_lookup).
  rewrite foldlM_snoc, Hfold, inr_bind.
  destruct (Hs sens) as (Hne & Htl & Ho); [by eapply list_elem_of_lookup_2|].
  rewrite (rotation_step_general st st1 sensors k_pixel l0 m Bt t sens) by done.
  assert ((t + 1) * k_pixel ≤ length sensors * k_pixel) as Hn by nia.
  unfold olen in Ho.
  rewrite (rotate_general_spec _ _ _ _ _ _ _ HBt Hn) by lia.
  rewrite take_ge by lia.
  eexists. split; [done|]. split.
  { apply regular_back_rotate_block; [done|lia|done|done]. }
  intros r j c v q Hv Hq.
  destruct (at3_bounds _ _ _ _ _ _ _ _ HB Hv) as (Hr & Hj & Hc).
  specialize (Hpt r j c v q Hv Hq).
  destruct (lookup_lt_is_Some_2 (_orientation (st1 !!! sens)) j) as [qt Hqt]; [lia|].
  rewrite (at3_back_rotate _ _ _ l0 m (length sensors * k_pixel) Bt r j c _ qt
             HBt) by first [done|lia].
  f_equal. replace (S t * k_pixel) with ((t + 1) * k_pixel) by lia.
  destruct (decide (c < t * k_pixel)) as [Hlt|Hge].
  - rewrite decide_False by lia. rewrite decide_True by lia. done.
  - destruct (decide (c < (t + 1) * k_pixel)) as [Hlt'|Hge'].
    + rewrite decide_True by lia.
      assert (c / k_pixel = t) as Hdiv.
      { symmetry. apply Nat.div_unique with (r := c - t * k_pixel); nia. }
      unfold frame_of in Hq. rewrite Hdiv, Hsens in Hq. simpl in Hq.
      rewrite Hqt in Hq. by injection Hq as ->.
    + by rewrite decide_False by lia.
Qed.

(** After the rotation phase every field vector stands in the frame of the
    sensor its pixel belongs to: the vector of row [r], path step [j] and
    pixel column [c] is the computed one turned by the inverse of the
    orientation that the owner of column [c] has at step [j]. *)
Theorem fields_in_sensor_frames st st1 sensors k_pixel l0 m (B : list block) :
  (∀ v, rot_apply (rot_inv unitQ) v = v) →
  sensors_tiled st st1 sensors m →
  regular l0 m (length sensors * k_pixel) B →
  ∃ B', apply_sensor_rotations st1 sensors (unrotated_sensors st sensors)
          (check_static_sensor_orient st sensors) k_pixel l0 m B = inr B'
    ∧ regular l0 m (length sensors * k_pixel) B'
    ∧ ∀ r j c v q, at3 B r j c = Some v →
        frame_of st1 sensors k_pixel j c = Some q →
        at3 B' r j c = Some (rot_apply (rot_inv q) v).
Proof.
  intros Hid Hs HB.
  destruct (rotations_prefix st st1 sensors k_pixel l0 m B Hid Hs HB (length sensors))
    as (B' & Hfold & HB' & Hpt); [done|].
  rewrite take_ge in Hfold by (by rewrite length_enumerate).
  exists B'. split; [done|]. split; [done|].
  intros r j c v q Hv Hq.
  destruct (at3_bounds _ _ _ _ _ _ _ _ HB Hv) as (_ & _ & Hc).
  rewrite (Hpt r j c v q Hv Hq). by rewrite decide_True.
Qed.

End sensor_frames.

(** ** The Collection class *)

Section collection_facts.

Context `{!Numerics}.

Lemma list_remove_absent (x : objid) (l : list objid) :
  x ∉ l → Collection.list_remove x l = inl ValueError.
Proof.
  induction l as [|y l IH]; intros Hx; simpl; [done|].
  apply not_elem_of_cons in Hx as [Hxy Hx].
  rewrite decide_False by done. by rewrite IH.
Qed.

Lemma list_remove_first (x : objid) (l1 l2 : list objid) :
  x ∉ l1 → Collection.list_remove x (l1 ++ x :: l2) = inr (l1 ++ l2).
Proof.
  induction l1 as [|y l1 IH]; intros Hx; simpl.
  - by rewrite decide_True.
  - apply not_elem_of_cons in Hx as [Hxy Hx].
    rewrite decide_False by done. by rewrite IH.
Qed.

Lemma sources_after_update (h : Collection.heap) (a : nat) (l : list objid)
    (self : objid) :
  Collection._sources
    (Collection.Heap (Collection.instances h) (<[a := l]> (Collection.lists h))) self
  = if decide (Collection.instances h !!! self = a) then l
    else Collection._sources h self.
Proof.
  unfold Collection._sources. simpl. case_decide as E.
  - by rewrite E, lookup_total_insert_eq.
  - by rewrite lookup_total_insert_ne.
Qed.

(** [remove] takes the first occurrence of the source out of the list of
    the Collection and returns the Collection; when the source is not in the
    list it raises [ValueError] and changes nothing. *)
Theorem remove_first_or_raise (self source : objid) (h : Collection.heap) :
  (source ∉ Collection._sources h self →
     Collection.remove self source h = (h, inl ValueError))
  ∧ (∀ l1 l2, Collection._sources h self = l1 ++ source :: l2 → source ∉ l1 →
       ∃ h', Collection.remove self source h = (h', inr self)
         ∧ Collection._sources h' self = l1 ++ l2
         ∧ Collection.instances h' = Collection.instances h).
Proof.
  split.
  - intros Hx. unfold Collection.remove.
    fold (Collection._sources h self). by rewrite list_remove_absent.
  - intros l1 l2 Hl Hx. unfold Collection.remove.
    fold (Collection._sources h self). rewrite Hl, list_remove_first by done.
    eexists. split; [done|]. split; [|done].
    rewrite sources_after_update. by rewrite decide_True.
Qed.

(** A copy is shallow: the copy is a new instance that shows the same
    sources, and a source removed through the copy is removed from the
    original as well. *)
Theorem copy_shares_the_source_list (self source : objid) (h : Collection.heap) :
  self ∈ dom (Collection.instances h) →
  let h1 := (Collection.copy self h).1 in
  let new := (Collection.copy self h).2 in
  new ≠ self
  ∧ Collection._sources h1 new = Collection._sources h self
  ∧ Collection._sources h1 self = Collection._sources h self
  ∧ ∀ h2, Collection.remove new source h1 = (h2, inr new) →
      Collection._sources h2 self = Collection._sources h2 new
      ∧ length (Collection._sources h self)
        = S (length (Collection._sources h2 self)).
Proof.
  intros Hself h1 new. unfold h1, new, Collection.copy. cbn [fst snd].
  set (n := fresh (dom (Collection.instances h))).
  assert (Hn : n ≠ self).
  { intros E. rewrite <- E in Hself. by apply is_fresh in Hself. }
  assert (Hs_new : ∀ ls, Collection._sources
            (Collection.Heap (<[n := Collection.instances h !!! self]>
                                (Collection.instances h)) ls) n
          = ls !!! (Collection.instances h !!! self)).
  { intros ls. unfold Collection._sources. simpl. by rewrite lookup_total_insert_eq. }
  assert (Hs_self : ∀ ls, Collection._sources
            (Collection.Heap (<[n := Collection.instances h !!! self]>
                                (Collection.instances h)) ls) self
          = ls !!! (Collection.instances h !!! self)).
  { intros ls. unfold Collection._sources. simpl.
    by rewrite lookup_total_insert_ne. }
  split; [done|]. split; [apply Hs_new|]. split; [apply Hs_self|].
  intros h2 Hrem. unfold Collection.remove in Hrem. cbn [Collection.instances
    Collection.lists] in Hrem. rewrite lookup_total_insert_eq in Hrem.
  destruct (Collection.list_remove source _) as [e|l'] eqn:El; [done|].
  injection Hrem as <-. rewrite Hs_new, Hs_self. split; [done|].
  rewrite lookup_total_insert_eq. unfold Collection._sources.
  clear -El. revert l' El.
  induction (Collection.lists h !!! (Collection.instances h !!! self))
    as [|y l IH]; intros l' El; simpl in El; [done|].
  case_decide.
  - by injection El as <-.
  - destruct (Collection.list_remove source l) as [e|l''] eqn:E; [done|].
    injection El as <-. simpl. f_equal. by apply IH.
Qed.

Lemma for_sources_spec (method : obj → res obj) (l : list objid) :
  ∀ st, NoDup l →
  (∀ s, s ∈ l → is_ok (method (st !!! s))) →
  ∃ st', Collection.for_sources method l st = (st', inr tt)
    ∧ (∀ s, s ∈ l → method (st !!! s) = inr (st' !!! s))
    ∧ (∀ x, x ∉ l → st' !! x = st !! x).
Proof.
  induction l as [|s l IH]; intros st Hnd Hok; simpl.
  - exists st. split; [done|]. split; [|done]. by intros ? ?%elem_of_nil.
  - apply NoDup_cons in Hnd as [Hs Hnd].
    destruct (Hok s) as [o' Ho]; [left|]. rewrite Ho.
    destruct (IH (<[s := o']> st) Hnd) as (st' & Hrun & Hin & Hout).
    { intros y Hy. rewrite lookup_total_insert_ne by (intros ->; done).
      apply Hok. by right. }
    exists st'. split; [done|]. split.
    + intros y [->|Hy]%elem_of_cons.
      * rewrite Ho. f_equal. rewrite lookup_total_alt, Hout by done.
        by rewrite lookup_insert_eq.
      * rewrite <- Hin by done.
        by rewrite lookup_total_insert_ne by (intros ->; done).
    + intros x [Hxs Hx]%not_elem_of_cons.
      rewrite Hout by done. by rewrite lookup_insert_ne.
Qed.

(** A method of the Collection that loops over the sources ([move],
    [rotate], [rotate_from_angax], [reset_path]) calls the method of every
    source once, touches no other object and returns the Collection, when
    the sources are distinct and none of the calls raises. *)
Theorem loop_calls_each_source_once (method : obj → res obj) (self : objid)
    (h : Collection.heap) (st : gmap objid obj) :
  NoDup (Collection._sources h self) →
  (∀ s, s ∈ Collection._sources h self → is_ok (method (st !!! s))) →
  ∃ st', Collection.apply_to_sources method self h st = (st', inr self)
    ∧ (∀ s, s ∈ Collection._sources h self → method (st !!! s) = inr (st' !!! s))
    ∧ (∀ x, x ∉ Collection._sources h self → st' !! x = st !! x).
Proof.
  intros Hnd Hok. unfold Collection.apply_to_sources, Collection.__iter__.
  destruct (for_sources_spec method _ st Hnd Hok) as (st' & Hrun & Hin & Hout).
  exists st'. rewrite Hrun. done.
Qed.

Lemma for_sources_raise (method : obj → res obj) (l1 : list objid) :
  ∀ st (s : objid) (l2 : list objid) (e : exn),
  NoDup (l1 ++ s :: l2) →
  (∀ y, y ∈ l1 → is_ok (method (st !!! y))) →
  method (st !!! s) = inl e →
  ∃ st', Collection.for_sources method (l1 ++ s :: l2) st = (st', inl e)
    ∧ (∀ y, y ∈ l1 → method (st !!! y) = inr (st' !!! y))
    ∧ (∀ x, x ∉ l1 → st' !! x = st !! x).
Proof.
  induction l1 as [|y l1 IH]; intros st s l2 e Hnd Hok He; simpl.
  - rewrite He. exists st. split; [done|]. split; [|done]. by intros ? ?%elem_of_nil.
  - simpl in Hnd. apply NoDup_cons in Hnd as [Hy Hnd].
    destruct (Hok y) as [o' Ho]; [left|]. rewrite Ho.
    assert (Hys : y ≠ s).
    { intros ->. apply Hy. apply elem_of_app. right. left. }
    assert (Hyl : y ∉ l1).
    { intros Hin. apply Hy. apply elem_of_app. by left. }
    destruct (IH (<[y := o']> st) s l2 e Hnd) as (st' & Hrun & Hin & Hout).
    { intros z Hz. rewrite lookup_total_insert_ne by (intros ->; done).
      apply Hok. by right. }
    { by rewrite lookup_total_insert_ne. }
    exists st'. split; [done|]. split.
    + intros z [->|Hz]%elem_of_cons.
      * rewrite Ho. f_equal. rewrite lookup_total_alt, Hout by done.
        by rewrite lookup_insert_eq.
      * rewrite <- Hin by done.
        by rewrite lookup_total_insert_ne by (intros ->; done).
    + intros x [Hxy Hx]%not_elem_of_cons.
      rewrite Hout by done. by rewrite lookup_insert_ne.
Qed.

(** Such a loop does not undo anything when the method of a source raises:
    the sources in front of it keep what their calls did, and the sources
    behind it are not reached. *)
Theorem loop_keeps_changes_on_raise (method : obj → res obj) (self s : objid)
    (l1 l2 : list objid) (e : exn) (h : Collection.heap) (st : gmap objid obj) :
  Collection._sources h self = l1 ++ s :: l2 →
  NoDup (Collection._sources h self) →
  (∀ y, y ∈ l1 → is_ok (method (st !!! y))) →
  method (st !!! s) = inl e →
  ∃ st', Collection.apply_to_sources method self h st = (st', inl e)
    ∧ (∀ y, y ∈ l1 → method (st !!! y) = inr (st' !!! y))
    ∧ (∀ x, x ∈ l2 → st' !! x = st !! x).
Proof.
  intros Hl Hnd Hok He. unfold Collection.apply_to_sources, Collection.__iter__.
  rewrite Hl in *.
  destruct (for_sources_raise method l1 st s l2 e Hnd Hok He)
    as (st' & Hrun & Hin & Hout).
  exists st'. rewrite Hrun. split; [done|]. split; [done|].
  intros x Hx. apply Hout. intros Hx1.
  apply NoDup_app in Hnd as (_ & Hdis & _). apply (Hdis x Hx1). by right.
Qed.

End collection_facts.

(** A call known to raise, with the store it leaves behind. *)
Lemma call_raises `{!Numerics, !InputChecks} rt bh srcs sensors sumup squeeze st e :
  view (getBH_level2 rt bh srcs sensors sumup squeeze st).2 = inl e →
  getBH_level2 rt bh srcs sensors sumup squeeze st
  = ((getBH_level2 rt bh srcs sensors sumup squeeze st).1, inl e).
Proof.
  intros Hv. destruct (getBH_level2 _ _ _ _ _ _ _) as [st' [e'|B]]; simpl in *; [|done].
  by injection Hv as ->.
Qed.

(** ** Scatter-back and observation points *)

Section row_layout.

Context `{!Numerics, !InputChecks}.

Lemma elem_of_concat_2 {A} (x : A) (l : list A) (ls : list (list A)) :
  x ∈ l → l ∈ ls → x ∈ concat ls.
Proof.
  intros Hx Hl. induction ls as [|l' ls IH]; [by apply elem_of_nil in Hl|].
  simpl. apply elem_of_app. apply elem_of_cons in Hl as [->|Hl]; [by left|].
  right. by apply IH.
Qed.

Lemma scatter_prefix (ord : list nat) (Bg B : list block) :
  NoDup ord → Forall (λ i, i < length B) ord →
  ∀ lg, lg ≤ length ord →
    length (scatter ord Bg B lg) = length B
    ∧ (∀ k, k < lg → scatter ord Bg B lg !! (ord !!! k) = Some (Bg !!! k))
    ∧ (∀ i, i ∉ take lg ord → scatter ord Bg B lg !! i = B !! i).
Proof.
  intros Hnd Hlt lg. unfold scatter. induction lg as [|lg IH]; intros Hlg.
  { simpl. split; [done|]. split; [intros; lia|done]. }
  destruct IH as (IH1 & IH2 & IH3); [lia|].
  rewrite seq_S, foldl_app. cbn [foldl]. rewrite Nat.add_0_l.
  destruct (lookup_lt_is_Some_2 ord lg) as [i Hi]; [lia|].
  assert (Hti : ord !!! lg = i) by (by apply list_lookup_total_correct).
  rewrite Hti.
  assert (Hib : i < length B).
  { rewrite Forall_lookup in Hlt. by eapply Hlt. }
  split; [by rewrite length_insert|]. split.
  - intros k Hk. destruct (decide (k = lg)) as [->|Hne].
    + rewrite Hti. rewrite list_lookup_insert_eq by (by rewrite IH1). done.
    + destruct (lookup_lt_is_Some_2 ord k) as [i' Hi']; [lia|].
      assert (ord !!! k = i') as Hk' by (by apply list_lookup_total_correct).
      rewrite list_lookup_insert_ne.
      * apply IH2. lia.
      * rewrite Hk'. intros <-. apply Hne. symmetry.
        by eapply NoDup_lookup.
  - intros j Hj. rewrite (take_S_r _ _ i) in Hj by done.
    apply not_elem_of_app in Hj as [Hj1 Hj2].
    rewrite list_lookup_insert_ne.
    + by apply IH3.
    + intros <-. apply Hj2. left.
Qed.

Lemma scatter_spec (ord : list nat) (Bg B : list block) :
  NoDup ord → Forall (λ i, i < length B) ord →
  length (scatter ord Bg B (length ord)) = length B
  ∧ (∀ k i, ord !! k = Some i → scatter ord Bg B (length ord) !! i = Some (Bg !!! k))
  ∧ (∀ i, i ∉ ord → scatter ord Bg B (length ord) !! i = B !! i).
Proof.
  intros Hnd Hlt.
  destruct (scatter_prefix ord Bg B Hnd Hlt (length ord)) as (H1 & H2 & H3); [done|].
  split; [done|]. split.
  - intros k i Hk. rewrite <- (list_lookup_total_correct _ _ _ Hk).
    apply H2. by eapply lookup_lt_Some.
  - intros i Hi. apply H3. by rewrite take_ge.
Qed.

Lemma length_group_rows bh st m n_pix n_pp poso group (Bg : list block) :
  group_rows bh st m n_pix n_pp poso group = inr Bg → length Bg = length group.
Proof.
  unfold group_rows. intros Hg.
  destruct (get_src_dict _ _ _ _) as [e|d]; [done|]. rewrite inr_bind in Hg.
  destruct (getBH_level1 bh d) as [e|rows]; [done|]. rewrite inr_bind in Hg.
  unfold np_reshape4 in Hg. destruct (require _ _) as [e|[]]; [done|].
  rewrite inr_bind in Hg. injection Hg as <-.
  by rewrite length_reshape, length_replicate.
Qed.

Lemma bucket_order_NoDup st src_list b : NoDup (bucket_order st src_list b).
Proof.
  apply StronglySorted_lt_NoDup. unfold bucket_order.
  change (enumerate src_list) with (imap (λ i x, (0 + i, x)) src_list).
  apply filter_enumerate_sorted.
Qed.

Lemma bucket_order_disjoint st src_list b b' i :
  i ∈ bucket_order st src_list b → i ∈ bucket_order st src_list b' → b = b'.
Proof.
  intros (src & Hi & Hb)%elem_of_bucket_order (src' & Hi' & Hb')%elem_of_bucket_order.
  congruence.
Qed.

Lemma eval_buckets_spec bh st m n_pix n_pp poso src_list (bs : list nat) :
  ∀ B C : list block,
  NoDup bs → Forall (λ b, b < 7) bs →
  length B = length src_list →
  foldlM (eval_group bh st m n_pix n_pp poso (bucket_order st src_list <$> seq 0 7))
         B ((λ b, (b, bucket_members st src_list b)) <$> bs) = inr C →
  length C = length src_list
  ∧ (∀ b k i, b ∈ bs → bucket_order st src_list b !! k = Some i →
       ∃ Bg, group_rows bh st m n_pix n_pp poso (bucket_members st src_list b) = inr Bg
             ∧ C !! i = Bg !! k)
  ∧ (∀ i, (∀ b, b ∈ bs → i ∉ bucket_order st src_list b) → C !! i = B !! i).
Proof.
  induction bs as [|b bs IH]; intros B C Hnd Hlt HB Hrun.
  { injection Hrun as <-. split; [done|]. split; [|done].
    intros ??? ?%elem_of_nil. done. }
  apply NoDup_cons in Hnd as [Hb Hnd]. apply Forall_cons in Hlt as [Hb7 Hlt].
  cbn [fmap list_fmap foldlM] in Hrun. rewrite eval_group_rows in Hrun.
  assert (Hord : (bucket_order st src_list <$> seq 0 7) !!! b
                 = bucket_order st src_list b).
  { apply list_lookup_total_correct. rewrite lookup_buckets. by rewrite decide_True. }
  rewrite Hord in Hrun.
  case_bool_decide as Hg.
  - rewrite inr_bind in Hrun.
    destruct (IH B C Hnd Hlt HB Hrun) as (IH1 & IH2 & IH3).
    assert (Hempty : bucket_order st src_list b = []).
    { apply length_zero_iff_nil. by rewrite length_bucket, Hg. }
    split; [done|]. split.
    + intros b' k i [->|Hb']%elem_of_cons Hk; [by rewrite Hempty in Hk|].
      by apply IH2.
    + intros i Hi. apply IH3. intros b' Hb'. apply Hi. by right.
  - destruct (group_rows _ _ _ _ _ _ _) as [e|Bg] eqn:Hrows; [done|].
    rewrite inr_bind in Hrun.
    pose proof (length_group_rows _ _ _ _ _ _ _ _ Hrows) as HBg.
    rewrite <- (length_bucket st src_list b) in Hrun.
    destruct (scatter_spec (bucket_order st src_list b) Bg B) as (S1 & S2 & S3).
    { apply bucket_order_NoDup. }
    { apply Forall_forall. intros i Hi. rewrite HB. by eapply bucket_order_lt. }
    destruct (IH _ C Hnd Hlt (eq_trans S1 HB) Hrun) as (IH1 & IH2 & IH3).
    split; [done|]. split.
    + intros b' k i [->|Hb']%elem_of_cons Hk.
      * exists Bg. split; [done|]. rewrite IH3.
        -- rewrite (S2 k i Hk). symmetry. apply list_lookup_lookup_total_lt.
           rewrite HBg, <- length_bucket. by eapply lookup_lt_Some.
        -- intros b'' Hb'' Hin.
           assert (b = b'') as ->.
           { eapply bucket_order_disjoint; [|exact Hin].
             by eapply list_elem_of_lookup_2. }
           done.
      * by apply IH2.
    + intros i Hi. rewrite IH3.
      * apply S3. apply Hi. left.
      * intros b' Hb'. apply Hi. by right.
Qed.

(** Scatter-back: when the evaluation loop returns, the array has one row
    per source of the flat list; the row at the [k]-th recorded index of a
    bucket is the [k]-th row that the kernel call of that bucket returned,
    and a row that no bucket claims is the one that was there before. *)
Theorem rows_scattered_to_flat_order bh st m n_pix n_pp poso (src_list : list objid)
    (B C : list block) :
  length B = length src_list →
  foldlM (eval_group bh st m n_pix n_pp poso (group_sources st src_list).2) B
         (enumerate (group_sources st src_list).1) = inr C →
  length C = length src_list
  ∧ (∀ b k i, ((group_sources st src_list).2 !!! b) !! k = Some i →
       ∃ Bg, group_rows bh st m n_pix n_pp poso ((group_sources st src_list).1 !!! b)
             = inr Bg
             ∧ C !! i = Bg !! k)
  ∧ (∀ i, i ∉ concat (group_sources st src_list).2 → C !! i = B !! i).
Proof.
  rewrite group_sources_spec. cbn [fst snd]. intros HB Hrun.
  assert (Hes : enumerate (bucket_members st src_list <$> seq 0 7)
                = (λ b, (b, bucket_members st src_list b)) <$> seq 0 7) by done.
  rewrite Hes in Hrun.
  destruct (eval_buckets_spec bh st m n_pix n_pp poso src_list (seq 0 7) B C)
    as (H1 & H2 & H3); [apply NoDup_seq| |done|done|].
  { apply Forall_forall. intros b Hb%elem_of_seq. lia. }
  split; [done|]. split.
  - intros b k i Hk. destruct (decide (b < 7)) as [Hb|Hb].
    + assert (∀ {A} `{!Inhabited A} (f : nat → A), (f <$> seq 0 7) !!! b = f b) as Hlk.
      { intros A ? f. apply list_lookup_total_correct. rewrite lookup_buckets.
        by rewrite decide_True. }
      rewrite Hlk in Hk. rewrite Hlk. apply H2; [|done]. apply elem_of_seq. lia.
    + assert ((bucket_order st src_list <$> seq 0 7) !!! b = []) as Hnil.
      { rewrite list_lookup_total_alt, lookup_buckets. by rewrite decide_False. }
      by rewrite Hnil in Hk.
  - intros i Hi. apply H3. intros b Hb Hin. apply Hi.
    apply (elem_of_concat_2 _ (bucket_order st src_list b)); [done|].
    apply list_elem_of_fmap. by exists b.
Qed.

Lemma mapM_res_fmap {A B} (f : A → res B) (g : A → B) (l : list A) :
  (∀ x, x ∈ l → f x = inr (g x)) → mapM f l = inr (g <$> l).
Proof.
  induction l as [|x l IH]; intros Hf; simpl; [done|].
  rewrite (Hf x) by left. rewrite inr_bind.
  rewrite IH by (intros; apply Hf; by right). done.
Qed.

Lemma lookup_concat_regular {A} (n i p : nat) (X : list (list A)) (row : list A) :
  Forall (λ r, length r = n) X → X !! i = Some row → p < n →
  concat X !! (i * n + p) = row !! p.
Proof.
  intros HX. revert i. induction HX as [|r X Hr HX IH]; intros i Hi Hp; [done|].
  destruct i as [|i]; simpl in *.
  - injection Hi as ->. rewrite lookup_app_l by lia. done.
  - rewrite lookup_app_r by lia. rewrite <- (IH i Hi Hp). f_equal. lia.
Qed.

Lemma np_concatenate_axis1_regular (xs : list (list (list vec3))) (m : nat) :
  xs ≠ [] → 0 < m → Forall (λ y, length y = m) xs →
  np_concatenate_axis1 xs
  = inr ((λ j, concat ((λ y : list (list vec3), y !!! j) <$> xs)) <$> seq 0 m).
Proof.
  intros Hne Hm Hl. destruct xs as [|x xs]; [done|]. unfold np_concatenate_axis1.
  pose proof Hl as Hl'. apply Forall_cons in Hl' as [Hx _].
  rewrite forallb_Forall, require_true_bind.
  - by rewrite Hx.
  - eapply Forall_impl; [exact Hl|]. intros y Hy. simpl.
    apply bool_decide_eq_true_2. rewrite Hx, Hy. lia.
Qed.

(** The observation points of a call: for every path step the pixels of the
    sensors side by side, sensor by sensor; the point of pixel [p] of sensor
    [i] at step [j] is the pixel turned by the sensor's orientation at that
    step and moved to its position, and stands in column [i * P + p]. *)
Theorem observation_points_layout st (sensors : list objid) (m P : nat)
    (pxs : objid → list vec3) :
  sensors ≠ [] → 0 < m →
  (∀ sens, sens ∈ sensors →
     plen st sens = m ∧ olen st sens = m
     ∧ data (pixel (st !!! sens)) = concat (flat3 <$> pxs sens)
     ∧ length (pxs sens) = P) →
  ∃ poso,
    mapM (λ sens, sensor_poso (st !!! sens)) sensors ≫= np_concatenate_axis1
    = inr poso
    ∧ length poso = m
    ∧ Forall (λ row, length row = length sensors * P) poso
    ∧ ∀ i j p sens q pos v,
        sensors !! i = Some sens →
        _orientation (st !!! sens) !! j = Some q →
        _position (st !!! sens) !! j = Some pos →
        pxs sens !! p = Some v →
        poso !! j ≫= (.!! (i * P + p)) = Some (vadd (rot_apply q v) pos).
Proof.
  intros Hne Hm Hs.
  rewrite (mapM_res_fmap _ (λ sens, obs_steps (st !!! sens) (pxs sens))).
  2:{ intros s Hin. destruct (Hs s Hin) as (_ & _ & Hd & _).
      by apply sensor_poso_steps. }
  rewrite inr_bind.
  assert (Hlen : ∀ s, s ∈ sensors → length (obs_steps (st !!! s) (pxs s)) = m).
  { intros s Hin. destruct (Hs s Hin) as (Hp & Ho & _). unfold plen, olen in *.
    rewrite length_obs_steps; lia. }
  set (ss := sensors) in *.
  rewrite (np_concatenate_axis1_regular _ m); [|by destruct ss|done|].
  2:{ apply Forall_fmap, Forall_forall. intros s Hin. simpl. by apply Hlen. }
  eexists. split; [done|]. split; [by rewrite length_fmap, length_seq|].
  assert (Hrow : ∀ j, j < m →
            Forall (λ r : list vec3, length r = P)
              ((λ y : list (list vec3), y !!! j)
                 <$> ((λ sens, obs_steps (st !!! sens) (pxs sens)) <$> ss))).
  { intros j Hj. rewrite <- list_fmap_compose. apply Forall_fmap, Forall_forall.
    intros s Hin. simpl. destruct (Hs s Hin) as (_ & _ & _ & HP).
    pose proof (regular_obs_steps (st !!! s) (pxs s)) as Hreg.
    rewrite Forall_lookup in Hreg.
    destruct (lookup_lt_is_Some_2 (obs_steps (st !!! s) (pxs s)) j) as [row Hr];
      [by rewrite Hlen|].
    rewrite (list_lookup_total_correct _ _ _ Hr). rewrite <- HP. by eapply Hreg. }
  split.
  - apply Forall_fmap, Forall_forall. intros j Hj%elem_of_seq. simpl.
    rewrite (length_concat_regular P) by (apply Hrow; lia).
    by rewrite !length_fmap.
  - intros i j p sens q pos v Hi Hq Hpos Hv.
    assert (Hin : sens ∈ ss) by (by eapply list_elem_of_lookup_2).
    destruct (Hs sens Hin) as (Hp & Ho & _ & HP). unfold plen, olen in *.
    assert (Hj : j < m) by (rewrite <- Ho; by eapply lookup_lt_Some).
    rewrite list_lookup_fmap, lookup_seq_lt by done. cbn [fmap option_fmap option_map
      mbind option_bind]. rewrite Nat.add_0_l.
    assert (Hstep : obs_steps (st !!! sens) (pxs sens) !! j
                    = Some ((λ v, vadd (rot_apply q v) pos) <$> pxs sens)).
    { unfold obs_steps. rewrite list_lookup_fmap, lookup_zip_with, Hq. simpl.
      by rewrite Hpos. }
    rewrite (lookup_concat_regular P i p _
               ((λ v, vadd (rot_apply q v) pos) <$> pxs sens)).
    + by rewrite list_lookup_fmap, Hv.
    + by apply Hrow.
    + rewrite !list_lookup_fmap, Hi. simpl.
      by rewrite (list_lookup_total_correct _ _ _ Hstep).
    + rewrite <- HP. by eapply lookup_lt_Some.
Qed.

End row_layout.

(** ** Sources of the kinds without scalar attributes *)

Section vector_sources.

Context `{!Numerics, !InputChecks}.

Lemma bind_replicate_app {A} (n : nat) (l1 l2 : list A) :
  (l1 ++ l2) ≫= replicate n = (l1 ≫= replicate n) ++ (l2 ≫= replicate n).
Proof.
  induction l1 as [|x l1 IH]; [done|].
  change ((x :: l1) ++ l2) with (x :: (l1 ++ l2)).
  change ((x :: l1 ++ l2) ≫= replicate n)
    with (replicate n x ++ ((l1 ++ l2) ≫= replicate n)).
  change ((x :: l1) ≫= replicate n) with (replicate n x ++ (l1 ≫= replicate n)).
  by rewrite IH, app_assoc.
Qed.

Lemma imap_group (K : list F → vec3 → quat → vec3 → vec3) (A : obj → list F)
    (m n : nat) (steps : list (list vec3)) :
  length steps = m → Forall (λ s, length s = n) steps →
  ∀ (group : list obj) (argsf : nat → list F),
  Forall (λ o, length (_position o) = m ∧ length (_orientation o) = m) group →
  (∀ i o k, group !! i = Some o → k < m * n → argsf (i * (m * n) + k) = A o) →
  imap (λ r pos, K (argsf r) pos
                   (default unitQ (((group ≫= _orientation) ≫= replicate n) !! r))
                   (default vzero
                      (concat (replicate (length group) (concat steps)) !! r)))
       ((group ≫= _position) ≫= replicate n)
  = concat ((λ o, concat (zip_with (λ pq pts, K (A o) pq.1 pq.2 <$> pts)
                            (zip (_position o) (_orientation o)) steps))
              <$> group).
Proof.
  intros Hs Hreg. induction group as [|o group IH]; intros argsf Hg Hargs; [done|].
  apply Forall_cons in Hg as [[Hp Ho] Hg].
  assert (HP : length (concat steps) = m * n).
  { by rewrite (length_concat_regular n), Hs by done. }
  cbn [mbind list_bind fmap list_fmap concat length replicate].
  change (list_bind _ _ ?f ?l) with (l ≫= f).
  rewrite !bind_replicate_app, imap_app. f_equal.
  - assert (Hblk :
      imap (λ r p, K (A o) p
                     (default unitQ ((_orientation o ≫= replicate n) !! r))
                     (default vzero (concat steps !! r)))
           (_position o ≫= replicate n)
      = concat (zip_with (λ pq pts, K (A o) pq.1 pq.2 <$> pts)
                  (zip (_position o) (_orientation o)) steps)).
    { apply (imap_lookup_block (λ p q obs, K (A o) p q obs) unitQ vzero n
               (_position o) (_orientation o) steps); (done || lia). }
    rewrite <- Hblk. clear Hblk.
    apply imap_ext. intros r pos Hr. simpl.
    apply lookup_lt_Some in Hr. rewrite length_bind_replicate, Hp in Hr.
    replace (argsf r) with (A o) by (symmetry; apply (Hargs 0 o r); done).
    rewrite lookup_app_l by (rewrite length_bind_replicate; lia).
    rewrite lookup_app_l by lia. done.
  - rewrite length_bind_replicate, Hp.
    rewrite <- (IH (λ r, argsf (m * n + r))); [|done|].
    + apply imap_ext. intros r pos Hr. simpl.
      rewrite lookup_app_r by (rewrite length_bind_replicate; lia).
      rewrite lookup_app_r by lia.
      rewrite length_bind_replicate, Ho, HP.
      by replace (m * n + r - m * n) with r by lia.
    + intros i o' k Hi Hk. rewrite <- (Hargs (S i) o' k) by done. f_equal. lia.
Qed.

Lemma get_src_dict_vectors (t : string) (group : list obj) (m n_pix n_pp : nat)
    (poso : list vec3) :
  group ≠ [] → t ∈ vector_kinds →
  Forall (λ x, _object_type x = t ∧ wf_attributes x
               ∧ length (_position x) = m ∧ length (_orientation x) = m) group →
  get_src_dict group n_pix n_pp poso
  = inr (SrcDict t (vector_fields t group n_pp)
           ((group ≫= _position) ≫= replicate n_pix)
           (concat (replicate (length group) poso))
           ((group ≫= _orientation) ≫= replicate n_pix)).
Proof.
  intros Hne Ht Hg. unfold get_src_dict, vector_fields.
  erewrite bind_assoc_inr.
  2:{ apply (tile_positions_group _ m); [done|].
      eapply Forall_impl; [done|]. by intros ? (_ & _ & ? & _). }
  erewrite bind_assoc_inr.
  2:{ apply (tile_orientations_group _ m); [done|].
      eapply Forall_impl; [done|]. by intros ? (_ & _ & _ & ?). }
  destruct group as [|src group]; [done|].
  cbn [head fmap option_fmap option_map from_option]. rewrite inr_bind.
  assert (Hsrc : _object_type src = t).
  { apply Forall_cons in Hg as [[? _] _]. done. }
  rewrite Hsrc.
  set (g := src :: group) in *.
  assert (Hdim : ∀ c,
            (∀ x, _object_type x = t → wf_attributes x → length (dimension x) = c) →
            Forall (λ x, length (dimension x) = c) g).
  { intros c Hx. eapply Forall_impl; [done|]. intros x (? & ? & _). by apply Hx. }
  unfold np_tile_rows, vector_kinds in *.
  repeat (apply elem_of_cons in Ht as [->|Ht]); [..|by apply elem_of_nil in Ht].
  - rewrite decide_False, decide_True by done.
    rewrite tile_mag_group, inr_bind.
    destruct (tile_dimensions_rows g n_pp 3) as (Hd & _).
    { apply Hdim. intros x Hx (W & _). by apply W. }
    rewrite Hd by done. rewrite inr_bind. by rewrite decide_False by done.
  - do 2 rewrite decide_False by done. rewrite decide_True by done.
    rewrite tile_mag_group, inr_bind.
    destruct (tile_dimensions_rows g n_pp 2) as (_ & Hd & _).
    { apply Hdim. intros x Hx (_ & W & _). by apply W. }
    rewrite Hd by done. rewrite inr_bind. by rewrite decide_False by done.
  - do 3 rewrite decide_False by done. rewrite decide_True by done.
    rewrite tile_mag_group, inr_bind.
    destruct (tile_dimensions_rows g n_pp 5) as (_ & _ & Hd).
    { apply Hdim. intros x Hx (_ & _ & W). by apply W. }
    rewrite Hd by done. rewrite inr_bind. by rewrite decide_False by done.
  - do 4 rewrite decide_False by done. rewrite decide_True by done.
    rewrite tile_moment_group, inr_bind. by rewrite decide_True by done.
Qed.

Lemma packed_args_vectors (t : string) (o : obj) :
  t ∈ vector_kinds → _object_type o = t →
  packed_args o
  = if decide (t = "Dipole") then flat3 (moment o)
    else flat3 (magnetization o) ++ dimension o.
Proof.
  intros Ht Ho. unfold packed_args, vector_kinds in *. rewrite Ho.
  repeat (apply elem_of_cons in Ht as [->|Ht]); [..|by apply elem_of_nil in Ht];
    repeat (first [rewrite decide_False by done | rewrite decide_True by done]);
    done.
Qed.

Lemma args_at_vectors (t : string) (group : list obj) (n_pp i k : nat) (o : obj) :
  t ∈ vector_kinds → _object_type o = t →
  group !! i = Some o → k < n_pp →
  args_at (vector_fields t group n_pp) (i * n_pp + k) = packed_args o.
Proof.
  intros Ht Ho Hi Hk. rewrite (packed_args_vectors t) by done.
  pose proof (lookup_lt_Some _ _ _ Hi) as Hlt.
  assert (Hdiv : (i * n_pp + k) / n_pp = i).
  { symmetry. apply Nat.div_unique with (r := k); lia. }
  assert (Hr : i * n_pp + k < length group * n_pp) by nia.
  unfold args_at, vector_fields. case_decide.
  - cbn [fmap list_fmap snd concat].
    rewrite lookup_bind_replicate by (by rewrite length_fmap).
    rewrite Hdiv, list_lookup_fmap, Hi. simpl. by rewrite app_nil_r.
  - cbn [fmap list_fmap snd concat].
    rewrite !lookup_bind_replicate by (by rewrite length_fmap).
    rewrite Hdiv, !list_lookup_fmap, Hi. simpl. by rewrite app_nil_r.
Qed.

Lemma concat_concat {A} (X : list (list (list A))) :
  concat (concat X) = concat ((λ x : list (list A), concat x) <$> X).
Proof. induction X as [|x X IH]; simpl; [done|]. by rewrite concat_app, IH. Qed.

Lemma length_bind_const {A B} (f : A → list B) (m : nat) (l : list A) :
  Forall (λ x, length (f x) = m) l → length (l ≫= f) = length l * m.
Proof.
  induction 1 as [|x l Hx _ IH]; [done|].
  change ((x :: l) ≫= f) with (f x ++ (l ≫= f)). rewrite length_app, IH, Hx.
  simpl. lia.
Qed.

Lemma regular_field_blocks bh (group : list obj) m n (steps : list (list vec3)) :
  Forall (λ o, length (_position o) = m ∧ length (_orientation o) = m) group →
  length steps = m → Forall (λ pts, length pts = n) steps →
  regular (length group) m n ((λ o, field_block bh o steps) <$> group).
Proof.
  intros Hg Hs Hreg. split; [by rewrite length_fmap|].
  apply Forall_fmap. eapply Forall_impl; [exact Hg|]. intros o [Hp Ho]. simpl.
  destruct (regular_field_block bh o m n steps Hp Ho Hs Hreg) as [_ Hr].
  by apply Forall_cons in Hr as [Hr _].
Qed.

(** The rows of a bucket of one of these kinds: the field of every member
    along its path. *)
Lemma group_rows_vectors bh st (t : string) (group : list objid) m n_pix
    (steps : list (list vec3)) :
  group ≠ [] → t ∈ vector_kinds →
  Forall (λ x, _object_type (st !!! x) = t ∧ wf_attributes (st !!! x)
               ∧ plen st x = m ∧ olen st x = m) group →
  length steps = m → Forall (λ pts, length pts = n_pix) steps →
  group_rows bh st m n_pix (m * n_pix) (concat steps) group
  = inr ((λ x, field_block bh (st !!! x) steps) <$> group).
Proof.
  intros Hne Ht Hg Hs Hreg. unfold group_rows.
  set (objs := (λ x, st !!! x) <$> group).
  assert (Hobjs : Forall (λ o, _object_type o = t ∧ wf_attributes o
                    ∧ length (_position o) = m ∧ length (_orientation o) = m) objs).
  { unfold objs. by apply Forall_fmap. }
  assert (Hlens : Forall (λ o, length (_position o) = m ∧ length (_orientation o) = m)
                    objs).
  { eapply Forall_impl; [exact Hobjs|]. by intros o (_ & _ & ? & ?). }
  rewrite (get_src_dict_vectors t objs m) by (done || by destruct group).
  rewrite inr_bind. unfold getBH_level1.
  cbn [sd_position sd_observer sd_orientation sd_source_type sd_fields].
  assert (HP : length (concat steps) = m * n_pix).
  { by rewrite (length_concat_regular n_pix), Hs by done. }
  assert (Hlp : length ((objs ≫= _position) ≫= replicate n_pix) = length objs * (m * n_pix)).
  { rewrite length_bind_replicate, (length_bind_const _ m); [apply eq_sym, Nat.mul_assoc|].
    eapply Forall_impl; [exact Hlens|]. by intros o [? _]. }
  assert (Hlo : length ((objs ≫= _orientation) ≫= replicate n_pix) = length objs * (m * n_pix)).
  { rewrite length_bind_replicate, (length_bind_const _ m); [apply eq_sym, Nat.mul_assoc|].
    eapply Forall_impl; [exact Hlens|]. by intros o [_ ?]. }
  rewrite Hlp, Hlo, length_concat_replicate, HP.
  rewrite (bool_decide_eq_true_2
             (length objs * (m * n_pix) = length objs * (m * n_pix)
              ∧ length objs * (m * n_pix) = length objs * (m * n_pix))) by done.
  rewrite require_true_bind.
  assert (t ≠ "Line") as HnL.
  { intros ->. unfold vector_kinds in Ht.
    repeat (apply elem_of_cons in Ht as [Ht|Ht]; [discriminate Ht|]).
    by apply elem_of_nil in Ht. }
  rewrite decide_False by done.
  rewrite forallb_Forall, require_true_bind.
  2:{ unfold vector_fields. case_decide; repeat constructor; cbn [snd];
        apply bool_decide_eq_true_2;
        rewrite length_bind_replicate, length_fmap; done. }
  cbv beta.
  rewrite (imap_group (kernel_row bh t) packed_args m n_pix steps Hs Hreg objs
             (args_at (vector_fields t objs (m * n_pix)))); [|done|].
  2:{ intros i o k Hi Hk. apply (args_at_vectors t); try done.
      rewrite Forall_lookup in Hobjs. by destruct (Hobjs i o Hi) as [? _]. }
  rewrite mret_bind.
  assert (Hblocks : (λ o, concat (zip_with (λ pq pts, kernel_row bh t (packed_args o)
                                               pq.1 pq.2 <$> pts)
                              (zip (_position o) (_orientation o)) steps)) <$> objs
                    = (λ blk : block, concat blk)
                        <$> ((λ o, field_block bh o steps) <$> objs)).
  { rewrite <- list_fmap_compose. apply Forall_fmap_ext_1.
    eapply Forall_impl; [exact Hobjs|]. intros o (Ho & _). simpl.
    unfold field_block. by rewrite Ho. }
  rewrite Hblocks, <- concat_concat.
  replace (length group) with (length ((λ o, field_block bh o steps) <$> objs))
    by (unfold objs; by rewrite !length_fmap).
  rewrite np_reshape4_concat.
  - unfold objs. by rewrite <- list_fmap_compose.
  - rewrite length_fmap. by apply regular_field_blocks.
Qed.

Lemma bucket_of_inj (t1 t2 : string) (b : nat) :
  bucket_of t1 = Some b → bucket_of t2 = Some b → t1 = t2.
Proof.
  unfold bucket_of. intros H1 H2.
  repeat (case_decide; simplify_eq); congruence.
Qed.

Lemma bucket_of_vector_kind (t : string) : t ∈ vector_kinds → is_Some (bucket_of t).
Proof.
  unfold vector_kinds. intros Ht.
  repeat (apply elem_of_cons in Ht as [->|Ht]); [..|by apply elem_of_nil in Ht];
    by eexists.
Qed.

Lemma bucket_aligned st (src_list : list objid) b k i :
  bucket_order st src_list b !! k = Some i →
  bucket_members st src_list b !! k = src_list !! i
  ∧ is_Some (src_list !! i).
Proof.
  unfold bucket_order, bucket_members. rewrite !list_lookup_fmap.
  destruct (filter _ _ !! k) as [[i' src]|] eqn:E; [|done].
  intros [= ->]. simpl.
  apply list_elem_of_lookup_2, list_elem_of_filter in E as [_ He].
  apply elem_of_enumerate in He. rewrite He. split; [done|by eexists].
Qed.

Lemma eval_buckets_ok bh st m n_pix n_pp poso src_list (bs : list nat) :
  (∀ b, b ∈ bs → bucket_members st src_list b ≠ [] →
        is_ok (group_rows bh st m n_pix n_pp poso (bucket_members st src_list b))) →
  ∀ B : list block,
  is_ok (foldlM (eval_group bh st m n_pix n_pp poso
                   (bucket_order st src_list <$> seq 0 7))
                B ((λ b, (b, bucket_members st src_list b)) <$> bs)).
Proof.
  induction bs as [|b bs IH]; intros Hok B; [by eexists|].
  cbn [fmap list_fmap foldlM]. rewrite eval_group_rows. case_bool_decide as Hg.
  - rewrite inr_bind. apply IH. intros; apply Hok; [by right|done].
  - destruct (Hok b) as [Bg HBg]; [left|done|]. rewrite HBg, !inr_bind.
    apply IH. intros; apply Hok; [by right|done].
Qed.

Lemma eval_vectors_closed bh st m n_pix (steps : list (list vec3))
    (src_list : list objid) (B : list block) :
  (∀ x, x ∈ src_list →
     _object_type (st !!! x) ∈ vector_kinds ∧ wf_attributes (st !!! x)
     ∧ plen st x = m ∧ olen st x = m) →
  length steps = m → Forall (λ pts, length pts = n_pix) steps →
  length B = length src_list →
  foldlM (eval_group bh st m n_pix (m * n_pix) (concat steps)
            (group_sources st src_list).2)
         B (enumerate (group_sources st src_list).1)
  = inr ((λ x, field_block bh (st !!! x) steps) <$> src_list).
Proof.
  intros Hsrc Hs Hreg HB. rewrite group_sources_spec. cbn [fst snd].
  change (enumerate (bucket_members st src_list <$> seq 0 7))
    with ((λ b, (b, bucket_members st src_list b)) <$> seq 0 7).
  assert (Hrows : ∀ b, bucket_members st src_list b ≠ [] →
            group_rows bh st m n_pix (m * n_pix) (concat steps)
              (bucket_members st src_list b)
            = inr ((λ x, field_block bh (st !!! x) steps)
                     <$> bucket_members st src_list b)).
  { intros b Hne.
    destruct (bucket_members st src_list b) as [|x0 g] eqn:Eg; [done|].
    rewrite <- Eg.
    assert (Hx0 : x0 ∈ bucket_members st src_list b) by (rewrite Eg; left).
    apply elem_of_bucket_members in Hx0 as [Hx0 Hb0].
    apply (group_rows_vectors bh st (_object_type (st !!! x0)));
      [by rewrite Eg|by apply Hsrc| |done|done].
    apply Forall_forall. intros x [Hx Hb]%elem_of_bucket_members.
    destruct (Hsrc x Hx) as (_ & Hw & Hp & Ho).
    split; [by eapply bucket_of_inj|done]. }
  destruct (eval_buckets_ok bh st m n_pix (m * n_pix) (concat steps) src_list
              (seq 0 7)) with (B := B) as [C HC].
  { intros b _ Hne. eexists. by apply Hrows. }
  rewrite HC. f_equal.
  destruct (eval_buckets_spec bh st m n_pix (m * n_pix) (concat steps) src_list
              (seq 0 7) B C) as (H1 & H2 & _); [apply NoDup_seq| |done|done|].
  { apply Forall_forall. intros b Hb%elem_of_seq. lia. }
  apply list_eq. intros i. rewrite list_lookup_fmap.
  destruct (src_list !! i) as [x|] eqn:Hi.
  2:{ simpl. apply lookup_ge_None. apply lookup_ge_None in Hi. lia. }
  simpl. destruct (Hsrc x) as (Hk & _); [by eapply list_elem_of_lookup_2|].
  destruct (bucket_of_vector_kind _ Hk) as [b Hb].
  assert (Hin : i ∈ bucket_order st src_list b).
  { apply elem_of_bucket_order. by exists x. }
  apply list_elem_of_lookup_1 in Hin as [k Hk'].
  destruct (H2 b k i) as (Bg & HBg & Hlook); [|done|].
  { apply elem_of_seq. pose proof (bucket_of_lt _ _ Hb). lia. }
  rewrite Hlook. rewrite Hrows in HBg.
  2:{ intros E. apply (f_equal length) in E. rewrite <- length_bucket in E.
      apply lookup_lt_Some in Hk'. simpl in E. lia. }
  injection HBg as <-. rewrite list_lookup_fmap.
  destruct (bucket_aligned st src_list b k i Hk') as [-> _]. by rewrite Hi.
Qed.

(** The evaluation loop for sources of the kinds whose attributes are all
    tiled source by source (Cuboid, Cylinder, CylinderSegment, Dipole): it
    returns, and row [i] of the array is the field of source [i] of the
    flat list along its path, at the observation points of every step. *)
Theorem evaluation_rows_are_source_fields bh st m n_pix (steps : list (list vec3))
    (src_list : list objid) (B : list block) :
  (∀ x, x ∈ src_list →
     _object_type (st !!! x) ∈ vector_kinds ∧ wf_attributes (st !!! x)
     ∧ plen st x = m ∧ olen st x = m) →
  length steps = m → Forall (λ pts, length pts = n_pix) steps →
  length B = length src_list →
  foldlM (eval_group bh st m n_pix (m * n_pix) (concat steps)
            (group_sources st src_list).2)
         B (enumerate (group_sources st src_list).1)
  = inr ((λ x, field_block bh (st !!! x) steps) <$> src_list)
  ∧ regular (length src_list) m n_pix
      ((λ x, field_block bh (st !!! x) steps) <$> src_list).
Proof.
  intros Hsrc Hs Hreg HB. split; [by apply eval_vectors_closed|].
  replace ((λ x, field_block bh (st !!! x) steps) <$> src_list)
    with ((λ o, field_block bh o steps) <$> ((λ x, st !!! x) <$> src_list))
    by (by rewrite <- list_fmap_compose).
  rewrite <- (length_fmap (λ x, st !!! x) src_list).
  apply regular_field_blocks; [|done|done].
  apply Forall_fmap, Forall_forall. intros x Hx. simpl.
  by destruct (Hsrc x Hx) as (_ & _ & ? & ?).
Qed.

Lemma rotations_rows st st1 sensors k_pixel l0 m (B : list block) :
  (∀ v, rot_apply (rot_inv unitQ) v = v) →
  sensors_tiled st st1 sensors m →
  regular l0 m (length sensors * k_pixel) B →
  ∀ t, t ≤ length sensors →
  foldlM (rotation_step st1 (unrotated_sensors st sensors)
            (check_static_sensor_orient st sensors) k_pixel l0 m)
         B (take t (enumerate sensors))
  = inr ((λ blk, foldl (λ blk e, back_rotate_block (_orientation (st1 !!! e.2))
                                   (e.1 * k_pixel) ((e.1 + 1) * k_pixel) blk)
                       blk (take t (enumerate sensors))) <$> B)
  ∧ regular l0 m (length sensors * k_pixel)
      ((λ blk, foldl (λ blk e, back_rotate_block (_orientation (st1 !!! e.2))
                                 (e.1 * k_pixel) ((e.1 + 1) * k_pixel) blk)
                     blk (take t (enumerate sensors))) <$> B).
Proof.
  intros Hid Hs HB t. induction t as [|t IH]; intros Ht.
  { simpl. rewrite list_fmap_id. done. }
  destruct IH as (Hfold & HBt); [lia|].
  destruct (lookup_lt_is_Some_2 sensors t) as [sens Hsens]; [lia|].
  rewrite (take_S_r _ _ (t, sens)) by (by apply enumerate_lookup).
  rewrite foldlM_snoc, Hfold, inr_bind.
  destruct (Hs sens) as (Hne & Htl & Ho); [by eapply list_elem_of_lookup_2|].
  rewrite (rotation_step_general st st1 sensors k_pixel l0 m _ t sens) by done.
  assert ((t + 1) * k_pixel ≤ length sensors * k_pixel) as Hn by nia.
  unfold olen in Ho.
  rewrite (rotate_general_spec _ _ _ _ _ _ _ HBt Hn) by lia.
  rewrite take_ge by lia. rewrite <- list_fmap_compose.
  assert (Heq : (λ blk : block,
             foldl (λ blk e, back_rotate_block (_orientation (st1 !!! e.2))
                               (e.1 * k_pixel) ((e.1 + 1) * k_pixel) blk)
                   blk (take t (enumerate sensors) ++ [(t, sens)])) <$> B
          = (back_rotate_block (_orientation (st1 !!! sens)) (t * k_pixel)
               ((t + 1) * k_pixel)
             ∘ (λ blk : block,
                  foldl (λ blk e, back_rotate_block (_orientation (st1 !!! e.2))
                                    (e.1 * k_pixel) ((e.1 + 1) * k_pixel) blk)
                        blk (take t (enumerate sensors)))) <$> B).
  { apply list_fmap_ext. intros _ blk _. simpl. by rewrite foldl_app. }
  rewrite Heq. split; [done|].
  rewrite list_fmap_compose.
  apply regular_back_rotate_block; [done|lia|done|done].
Qed.

Lemma rotations_closed st st1 sensors k_pixel l0 m (B : list block) :
  (∀ v, rot_apply (rot_inv unitQ) v = v) →
  sensors_tiled st st1 sensors m →
  regular l0 m (length sensors * k_pixel) B →
  apply_sensor_rotations st1 sensors (unrotated_sensors st sensors)
    (check_static_sensor_orient st sensors) k_pixel l0 m B
  = inr (frames (λ x, st1 !!! x) sensors k_pixel <$> B)
  ∧ regular l0 m (length sensors * k_pixel)
      (frames (λ x, st1 !!! x) sensors k_pixel <$> B).
Proof.
  intros Hid Hs HB.
  destruct (rotations_rows st st1 sensors k_pixel l0 m B Hid Hs HB (length sensors))
    as [Hfold Hreg]; [done|].
  rewrite take_ge in Hfold, Hreg by (by rewrite length_enumerate).
  done.
Qed.

Lemma poso_closed st (sensors : list objid) (m P : nat) (pxs : objid → list vec3) :
  sensors ≠ [] → 0 < m →
  (∀ sens, sens ∈ sensors →
     plen st sens = m ∧ olen st sens = m
     ∧ data (pixel (st !!! sens)) = concat (flat3 <$> pxs sens)
     ∧ length (pxs sens) = P) →
  mapM (λ sens, sensor_poso (st !!! sens)) sensors ≫= np_concatenate_axis1
  = inr (obs_rows (λ x, st !!! x) sensors pxs m)
  ∧ length (obs_rows (λ x, st !!! x) sensors pxs m) = m
  ∧ Forall (λ row, length row = length sensors * P) (obs_rows (λ x, st !!! x) sensors pxs m).
Proof.
  intros Hne Hm Hs.
  rewrite (mapM_res_fmap _ (λ sens, obs_steps (st !!! sens) (pxs sens))).
  2:{ intros s Hin. destruct (Hs s Hin) as (_ & _ & Hd & _).
      by apply sensor_poso_steps. }
  rewrite inr_bind.
  assert (Hlen : ∀ s, s ∈ sensors → length (obs_steps (st !!! s) (pxs s)) = m).
  { intros s Hin. destruct (Hs s Hin) as (Hp & Ho & _). unfold plen, olen in *.
    rewrite length_obs_steps; lia. }
  rewrite (np_concatenate_axis1_regular _ m); [|by destruct sensors|done|].
  2:{ apply Forall_fmap, Forall_forall. intros s Hin. simpl. by apply Hlen. }
  unfold obs_rows. split.
  { f_equal. apply list_fmap_ext. intros _ j _. by rewrite <- list_fmap_compose. }
  split; [by rewrite length_fmap, length_seq|].
  apply Forall_fmap, Forall_forall. intros j Hj%elem_of_seq. simpl.
  rewrite (length_concat_regular P); [by rewrite length_fmap|].
  apply Forall_fmap, Forall_forall. intros s Hin. simpl.
  destruct (Hs s Hin) as (_ & _ & _ & HP).
  pose proof (regular_obs_steps (st !!! s) (pxs s)) as Hreg.
  rewrite Forall_lookup in Hreg.
  destruct (lookup_lt_is_Some_2 (obs_steps (st !!! s) (pxs s)) j) as [row Hr];
    [rewrite Hlen by done; lia|].
  rewrite (list_lookup_total_correct _ _ _ Hr). rewrite <- HP. by eapply Hreg.
Qed.

Lemma field_array_vectors rt bh st st1 (srcs sensors : list objid) (m : nat)
    (ps : list nat) (pxs : objid → list vec3) :
  (∀ v, rot_apply (rot_inv unitQ) v = v) →
  0 < m → sensors ≠ [] →
  (∀ x, x ∈ srcs →
     _object_type (st1 !!! x) ∈ vector_kinds ∧ wf_attributes (st1 !!! x)
     ∧ plen st1 x = m ∧ olen st1 x = m) →
  sensors_tiled st st1 sensors m →
  (∀ sens, sens ∈ sensors →
     plen st1 sens = m
     ∧ data (pixel (st1 !!! sens)) = concat (flat3 <$> pxs sens)
     ∧ length (pxs sens) = shape_size ps) →
  field_array rt bh st1 srcs srcs sensors (ps ++ [3]) (unrotated_sensors st sensors)
    (check_static_sensor_orient st sensors) m false false
  = inr (NdArray ([length srcs; m] ++ length sensors :: ps ++ [3])
           (flat_blocks
              ((λ x, frames (λ x, st1 !!! x) sensors (shape_size ps)
                       (field_block bh (st1 !!! x) (obs_rows (λ x, st1 !!! x) sensors pxs m)))
                 <$> srcs)))
  ∧ regular (length srcs) m (length sensors * shape_size ps)
      ((λ x, frames (λ x, st1 !!! x) sensors (shape_size ps)
               (field_block bh (st1 !!! x) (obs_rows (λ x, st1 !!! x) sensors pxs m)))
         <$> srcs).
Proof.
  intros Hid Hm Hne Hsrc Hst Hsens. unfold field_array.
  destruct (poso_closed st1 sensors m (shape_size ps) pxs Hne Hm)
    as (Hposo & Hlen & Hreg).
  { intros s Hin. destruct (Hsens s Hin) as (? & ? & ?).
    destruct (Hst s Hin) as (_ & _ & ?). done. }
  set (steps := obs_rows (λ x, st1 !!! x) sensors pxs m) in *.
  set (n_pix := length sensors * shape_size ps) in *.
  erewrite bind_assoc_inr; [|exact Hposo].
  rewrite (length_concat_regular n_pix) by done. rewrite Hlen.
  rewrite (bool_decide_eq_true_2 (m ≠ 0)) by lia. rewrite require_true_bind.
  rewrite Nat.mul_comm, Nat.div_mul by lia. rewrite (Nat.mul_comm n_pix m).
  destruct (group_sources st1 srcs) as [src_sorted order] eqn:Eg.
  replace src_sorted with (group_sources st1 srcs).1 by (by rewrite Eg).
  replace order with (group_sources st1 srcs).2 by (by rewrite Eg).
  rewrite (eval_vectors_closed bh st1 m n_pix steps srcs)
    by (done || apply length_np_empty).
  rewrite inr_bind.
  unfold collection_sum. rewrite decide_False by lia.
  rewrite mret_bind, drop_last_snoc.
  assert (HB : regular (length srcs) m n_pix
                 ((λ x, field_block bh (st1 !!! x) steps) <$> srcs)).
  { replace ((λ x, field_block bh (st1 !!! x) steps) <$> srcs)
      with ((λ o, field_block bh o steps) <$> ((λ x, st1 !!! x) <$> srcs))
      by (by rewrite <- list_fmap_compose).
    rewrite <- (length_fmap (λ x, st1 !!! x) srcs).
    apply regular_field_blocks; [|done|done].
    apply Forall_fmap, Forall_forall. intros x Hx. simpl.
    by destruct (Hsrc x Hx) as (_ & _ & ? & ?). }
  destruct (rotations_closed st st1 sensors (shape_size ps) (length srcs) m _
              Hid Hst HB) as [Hrot HB'].
  rewrite Hrot, inr_bind. rewrite <- list_fmap_compose.
  rewrite <- list_fmap_compose in HB'.
  split; [|exact HB'].
  unfold np_reshape.
  rewrite (length_flat_blocks (length srcs) m n_pix) by done.
  rewrite bool_decide_eq_true_2.
  2:{ change ([length srcs; m] ++ length sensors :: ps ++ [3])
        with ([length srcs; m; length sensors] ++ ps ++ [3]).
      rewrite !shape_size_app. unfold n_pix. simpl. lia. }
  by rewrite require_true_bind.
Qed.

Lemma frames_ext (look look' : objid → obj) sensors k_pixel blk :
  (∀ x, x ∈ sensors → look x = look' x) →
  frames look sensors k_pixel blk = frames look' sensors k_pixel blk.
Proof.
  intros Hext. unfold frames.
  assert (He : ∀ e, e ∈ enumerate sensors → look e.2 = look' e.2).
  { intros [i x] Hin%elem_of_enumerate. apply Hext. by eapply list_elem_of_lookup_2. }
  revert blk. induction (enumerate sensors) as [|e es IH]; intros blk; [done|].
  simpl. rewrite (He e) by left. apply IH. intros; apply He; by right.
Qed.

Lemma obs_rows_ext (look look' : objid → obj) sensors pxs m :
  (∀ x, x ∈ sensors → look x = look' x) →
  obs_rows look sensors pxs m = obs_rows look' sensors pxs m.
Proof.
  intros Hext. unfold obs_rows. apply list_fmap_ext. intros _ j _. f_equal.
  apply list_fmap_ext. intros i x Hx. rewrite Hext; [done|].
  by eapply list_elem_of_lookup_2.
Qed.

Lemma format_src_inputs_flat st (srcs : list objid) :
  Forall (λ x, _object_type (st !!! x) ≠ "Collection") srcs →
  format_src_inputs st srcs = (srcs, srcs).
Proof.
  intros Hn. unfold format_src_inputs. f_equal.
  induction Hn as [|x srcs Hx _ IH]; [done|].
  change ((x :: srcs) ≫= ?f) with (f x ++ (srcs ≫= f)).
  rewrite IH. by rewrite decide_False.
Qed.

Lemma vector_kind_not_collection (t : string) : t ∈ vector_kinds → t ≠ "Collection".
Proof. intros Ht. by apply bucket_not_collection, bucket_of_vector_kind. Qed.

Lemma all_same_const (sh : list nat) (l : list (list nat)) :
  Forall (λ s, s = sh) l → all_same l = true.
Proof.
  intros Hl. destruct l as [|s0 l]; [done|]. unfold all_same.
  apply forallb_Forall. pose proof Hl as Hl'. apply Forall_cons in Hl' as [-> _].
  eapply Forall_impl; [exact Hl|]. intros s ->. by apply bool_decide_eq_true_2.
Qed.

Lemma call_vectors rt bh st (srcs sensors : list objid) (m : nat) (ps : list nat)
    (pxs : objid → list vec3) :
  valid_iter rt →
  (∀ v, rot_apply (rot_inv unitQ) v = v) →
  sensors ≠ [] →
  (∀ x, x ∈ srcs →
     _object_type (st !!! x) ∈ vector_kinds ∧ wf_attributes (st !!! x)) →
  (∀ sens, sens ∈ sensors →
     shape (pixel (st !!! sens)) = ps ++ [3]
     ∧ data (pixel (st !!! sens)) = concat (flat3 <$> pxs sens)
     ∧ length (pxs sens) = shape_size ps) →
  wf_paths st (srcs ++ sensors) →
  aligned_length rt st srcs sensors = m →
  check_dimensions st srcs = true → check_excitations st srcs = true →
  (∃ st',
    getBH_level2 rt bh srcs sensors false false st
    = (st', inr (NdArray ([length srcs; m] ++ length sensors :: ps ++ [3])
                   (flat_blocks (call_rows bh st srcs sensors m ps pxs)))))
  ∧ regular (length srcs) m (length sensors * shape_size ps)
      (call_rows bh st srcs sensors m ps pxs).
Proof.
  intros Hv Hid Hne Hsrc Hsens Hwf Hm Hcd Hce.
  assert (Hfmt : format_src_inputs st srcs = (srcs, srcs)).
  { apply format_src_inputs_flat, Forall_forall. intros x Hx.
    apply vector_kind_not_collection. by destruct (Hsrc x Hx). }
  assert (Hpart : participants st srcs sensors = srcs ++ sensors).
  { unfold participants. by rewrite Hfmt. }
  set (ol := obj_list_of rt st srcs sensors).
  assert (Hol : ∀ x, x ∈ ol ↔ x ∈ srcs ++ sensors).
  { intros x. unfold ol, obj_list_of. by rewrite valid_iter_elem, Hpart. }
  assert (Hnd : NoDup ol) by (by apply valid_iter_NoDup).
  destruct sensors as [|s0 sensors']; [done|]. set (sensors := s0 :: sensors') in *.
  assert (Hs0 : s0 ∈ ol).
  { apply Hol, elem_of_app. right. left. }
  assert (Hnol : ol ≠ []).
  { intros E. rewrite E in Hs0. by apply elem_of_nil in Hs0. }
  assert (Hwfo : wf_paths st ol).
  { intros x Hx%Hol. by apply Hwf. }
  assert (Hmax : max_list (path_lengths st ol) = m) by done.
  assert (Hmpos : 0 < m).
  { pose proof (plen_le_max st ol s0 Hs0) as Hle. rewrite Hmax in Hle.
    destruct (Hwfo s0 Hs0) as [Hp _]. unfold plen in Hle.
    destruct (_position (st !!! s0)); [done|]. simpl in Hle. lia. }
  destruct (tile_paths_ok m st ol Hnd Hwfo) as [st1 Ht].
  pose proof Ht as Ht'. rewrite <- Hmax in Ht'.
  pose proof (tile_paths_aligned st ol st1 Hnd Hnol Hwfo Ht') as Hal.
  rewrite Hmax in Hal.
  assert (Hlook_src : ∀ x, x ∈ srcs → st1 !!! x = aligned st m x).
  { intros x Hx. destruct (Hal x) as [? _]; [apply Hol, elem_of_app; by left|done]. }
  assert (Hlook_sens : ∀ x, x ∈ sensors → st1 !!! x = aligned st m x).
  { intros x Hx. destruct (Hal x) as [? _]; [apply Hol, elem_of_app; by right|done]. }
  assert (Hrows : call_rows bh st srcs sensors m ps pxs
            = (λ x, frames (λ x, st1 !!! x) sensors (shape_size ps)
                 (field_block bh (st1 !!! x) (obs_rows (λ x, st1 !!! x) sensors pxs m)))
                <$> srcs).
  { unfold call_rows. apply list_fmap_ext.
    intros i x Hx%list_elem_of_lookup_2.
    rewrite (frames_ext (λ x, st1 !!! x) (aligned st m)) by done.
    rewrite (obs_rows_ext (λ x, st1 !!! x) (aligned st m)) by done.
    by rewrite Hlook_src. }
  destruct (field_array_vectors rt bh st st1 srcs sensors m ps pxs Hid Hmpos)
    as [Hfa Hreg]; [done| | | |].
  - intros x Hx. destruct (Hal x) as (Hx1 & Hx2 & Hx3); [apply Hol, elem_of_app; by left|].
    destruct (Hsrc x Hx) as [Hk Hw]. rewrite Hx1. done.
  - intros s Hs. destruct (Hal s) as (Hs1 & Hs2 & Hs3); [apply Hol, elem_of_app; by right|].
    destruct (Hwf s) as [Hp Ho]; [apply elem_of_app; by right|].
    split; [|done]. intros E. rewrite E in Ho. simpl in Ho.
    by destruct (_position (st !!! s)).
  - intros s Hs. destruct (Hal s) as (Hs1 & Hs2 & Hs3); [apply Hol, elem_of_app; by right|].
    destruct (Hsens s Hs) as (_ & Hd & Hl). rewrite Hs1. done.
  - rewrite Hrows. split; [|exact Hreg].
    exists (reset_loop st1 (reset_pairs st ol)).
    apply getBH_level2_inr. cbv zeta. fold ol.
    unfold aligned_length. fold ol. rewrite Hmax, Hfmt. cbn [fst snd].
    split; [done|]. split; [done|]. split.
    { apply (all_same_const (ps ++ [3])). apply Forall_fmap, Forall_forall.
      intros s Hs. simpl. by destruct (Hsens s Hs). }
    split; [done|].
    exists (ps ++ [3]), st1.
    split.
    { destruct (Hsens s0) as [Hsh _]; [left|]. unfold sensors. simpl. by rewrite Hsh. }
    split; [done|]. split; [|done].
    by rewrite Hfa.
Qed.

Lemma flat_blocks_concat (B : list block) :
  flat_blocks B = concat ((λ blk, flat_blocks [blk]) <$> B).
Proof.
  unfold flat_blocks. induction B as [|blk B IH]; [done|].
  cbn [concat fmap list_fmap]. rewrite app_nil_r.
  rewrite concat_app, fmap_app, concat_app. f_equal. apply IH.
Qed.

Lemma take_one_drop {A} (l : list A) (i : nat) (x : A) :
  l !! i = Some x → take 1 (drop i l) = [x].
Proof.
  intros Hi. rewrite (drop_S _ _ _ Hi). simpl. by rewrite take_0.
Qed.

Lemma flat_blocks_row (l m n : nat) (B : list block) (i : nat) (blk : block) :
  regular l m n B → B !! i = Some blk →
  slice (i * (m * n * 3)) ((i + 1) * (m * n * 3)) (flat_blocks B)
  = flat_blocks [blk].
Proof.
  intros [Hl HB] Hi. rewrite flat_blocks_concat.
  rewrite (slice_concat_regular (m * n * 3)).
  - rewrite (take_one_drop _ _ (flat_blocks [blk])).
    + simpl. by rewrite app_nil_r.
    + by rewrite list_lookup_fmap, Hi.
  - apply Forall_fmap. eapply Forall_impl; [exact HB|]. intros b Hb. simpl.
    rewrite (length_flat_blocks 1 m n); [lia|]. split; [done|]. by constructor.
Qed.

(** For sources of the kinds whose attributes are all tiled source by
    source (Cuboid, Cylinder, CylinderSegment, Dipole) a joint call gives,
    in row [i], the array that the call with source [i] alone gives, when
    both calls align the paths to the same length. *)
Theorem joint_rows_are_single_source_results rt bh st (srcs sensors : list objid)
    (m : nat) (ps : list nat) (pxs : objid → list vec3) (i : nat) (s : objid) :
  valid_iter rt →
  (∀ v, rot_apply (rot_inv unitQ) v = v) →
  sensors ≠ [] →
  (∀ x, x ∈ srcs →
     _object_type (st !!! x) ∈ vector_kinds ∧ wf_attributes (st !!! x)) →
  (∀ sens, sens ∈ sensors →
     shape (pixel (st !!! sens)) = ps ++ [3]
     ∧ data (pixel (st !!! sens)) = concat (flat3 <$> pxs sens)
     ∧ length (pxs sens) = shape_size ps) →
  wf_paths st (srcs ++ sensors) →
  srcs !! i = Some s →
  aligned_length rt st srcs sensors = m →
  aligned_length rt st [s] sensors = m →
  check_dimensions st srcs = true → check_excitations st srcs = true →
  check_dimensions st [s] = true → check_excitations st [s] = true →
  let n := shape_size ([m; length sensors] ++ ps ++ [3]) in
  ∃ st' st'' B Bi,
    getBH_level2 rt bh srcs sensors false false st = (st', inr B)
    ∧ getBH_level2 rt bh [s] sensors false false st = (st'', inr Bi)
    ∧ shape B = [length srcs; m; length sensors] ++ ps ++ [3]
    ∧ shape Bi = [1; m; length sensors] ++ ps ++ [3]
    ∧ data Bi = slice (i * n) ((i + 1) * n) (data B).
Proof.
  intros Hv Hid Hne Hsrc Hsens Hwf Hi Hm Hm1 Hcd Hce Hcd1 Hce1 n.
  assert (Hin : s ∈ srcs) by (by eapply list_elem_of_lookup_2).
  destruct (call_vectors rt bh st srcs sensors m ps pxs) as [[st' Hjoint] Hreg];
    try done.
  destruct (call_vectors rt bh st [s] sensors m ps pxs) as [[st'' Hsingle] _];
    try done.
  { intros x ->%list_elem_of_singleton. by apply Hsrc. }
  { intros x [->%list_elem_of_singleton|Hx]%elem_of_app; apply Hwf, elem_of_app;
      [by left|by right]. }
  eexists _, _, _, _. split; [exact Hjoint|]. split; [exact Hsingle|].
  split; [done|]. split; [done|]. cbn [data].
  assert (Hn : n = m * (length sensors * shape_size ps) * 3).
  { unfold n. rewrite !shape_size_app. simpl. lia. }
  rewrite Hn.
  rewrite (flat_blocks_row (length srcs) m (length sensors * shape_size ps) _ i
             (frames (aligned st m) sensors (shape_size ps)
                (field_block bh (aligned st m s)
                   (obs_rows (aligned st m) sensors pxs m)))); [done|done|].
  unfold call_rows. by rewrite list_lookup_fmap, Hi.
Qed.

End vector_sources.

(** ** A Collection and the sum over its members *)

Section collection_field.
Context `{!Numerics, !InputChecks}.

Lemma concat_zip_with {A} (f : A → A → A) (X Y : list (list A)) :
  Forall2 (λ x y, length x = length y) X Y →
  concat (zip_with (zip_with f) X Y) = zip_with f (concat X) (concat Y).
Proof.
  induction 1 as [|x y X Y Hxy _ IH]; [done|].
  simpl. rewrite zip_with_app by done. by rewrite IH.
Qed.

Lemma flat3_vadd (u v : vec3) :
  flat3 (vadd u v) = zip_with Fadd (flat3 u) (flat3 v).
Proof. by destruct u as [[??]?], v as [[??]?]. Qed.

Lemma flat3_zip_with_vadd (U V : list vec3) :
  concat (flat3 <$> zip_with vadd U V)
  = zip_with Fadd (concat (flat3 <$> U)) (concat (flat3 <$> V)).
Proof.
  revert V. induction U as [|u U IH]; intros [|v V]; try done.
  - simpl. by destruct u as [[??]?].
  - cbn [zip_with fmap list_fmap concat].
    rewrite zip_with_app by (by rewrite !length_flat3).
    by rewrite IH, flat3_vadd.
Qed.

Lemma shaped_same_rows m n (a b : block) :
  shaped m n a → shaped m n b → Forall2 (λ x y, length x = length y) a b.
Proof.
  intros [Ha Hra] [Hb Hrb]. apply Forall2_same_length_lookup_2; [lia|].
  intros i x y Hx Hy.
  rewrite Forall_lookup in Hra. rewrite Forall_lookup in Hrb.
  by rewrite (Hra i x Hx), (Hrb i y Hy).
Qed.

Lemma shaped_block_add m n (a b : block) :
  shaped m n a → shaped m n b → shaped m n (block_add a b).
Proof.
  intros Ha Hb. pose proof (shaped_same_rows m n a b Ha Hb) as Hab.
  destruct Ha as [Ha Hra], Hb as [Hb Hrb]. unfold block_add. split.
  - rewrite length_zip_with. lia.
  - clear Ha Hb. induction Hab as [|x y a b Hxy _ IH]; [constructor|].
    apply Forall_cons in Hra as [Hx Hra]. apply Forall_cons in Hrb as [Hy Hrb].
    simpl. constructor; [|by apply IH]. rewrite length_zip_with. lia.
Qed.

Lemma flat_blocks_add m n (a b : block) :
  shaped m n a → shaped m n b →
  flat_blocks [block_add a b] = zip_with Fadd (flat_blocks [a]) (flat_blocks [b]).
Proof.
  intros Ha Hb. unfold flat_blocks, block_add. cbn [concat]. rewrite !app_nil_r.
  rewrite (concat_zip_with vadd) by (by eapply shaped_same_rows).
  apply flat3_zip_with_vadd.
Qed.

Lemma flat_blocks_sum m n (bs : list block) : ∀ b : block,
  shaped m n b → Forall (shaped m n) bs →
  flat_blocks [foldl block_add b bs]
  = foldl (zip_with Fadd) (flat_blocks [b]) ((λ blk, flat_blocks [blk]) <$> bs)
  ∧ shaped m n (foldl block_add b bs).
Proof.
  induction bs as [|c bs IH]; intros b Hb Hbs; [done|].
  apply Forall_cons in Hbs as [Hc Hbs]. cbn [foldl fmap list_fmap].
  rewrite <- (flat_blocks_add m n) by done.
  apply IH; [by apply shaped_block_add|done].
Qed.

Lemma regular_shaped l m n (B : list block) :
  regular l m n B ↔ length B = l ∧ Forall (shaped m n) B.
Proof. done. Qed.

Lemma regular_sum g m n (rows : list block) :
  regular g m n rows → 0 < g → regular 1 m n [np_sum_blocks m n rows].
Proof.
  intros [Hl Hr] Hg. destruct rows as [|b bs]; [simpl in Hl; lia|].
  apply Forall_cons in Hr as [Hb Hbs].
  split; [done|]. constructor; [|constructor].
  by apply (flat_blocks_sum m n bs b).
Qed.

(** The sum over the leading axis of the assembled array is the sum of its
    rows. *)
Lemma np_sum_axis0_rows g m n (sh : list nat) (rows : list block) :
  regular g m n rows → 0 < g → shape_size sh = m * n * 3 →
  np_sum_axis0 (NdArray (g :: sh) (flat_blocks rows))
  = NdArray sh (flat_blocks [np_sum_blocks m n rows]).
Proof.
  intros [Hl Hr] Hg Hsz. unfold np_sum_axis0. cbn [shape data tail hd]. f_equal.
  rewrite Hsz, flat_blocks_concat, <- Hl.
  rewrite <- (length_fmap (λ blk, flat_blocks [blk]) rows).
  rewrite reshape_concat.
  2:{ apply Forall_fmap. eapply Forall_impl; [exact Hr|]. intros blk Hb. simpl.
      rewrite (length_flat_blocks 1 m n); [lia|]. split; [done|]. by constructor. }
  destruct rows as [|b bs]; [simpl in Hl; lia|].
  apply Forall_cons in Hr as [Hb Hbs]. cbn [fmap list_fmap np_sum_blocks].
  symmetry. by apply (flat_blocks_sum m n bs b).
Qed.

Lemma tile_paths_sources m l st st1 :
  NoDup l.*1 → tile_paths m st l = (st1, inr tt) →
  ∀ x, sources (st1 !!! x) = sources (st !!! x).
Proof.
  intros Hnd Ht x. unfold tile_paths in Ht. case_decide; [|by injection Ht as <-].
  destruct (tile_loop_inr _ _ _ _ _ Hnd Ht) as [Hin1 Hout].
  destruct (decide (x ∈ l.*1)) as [Hin|Hin].
  - apply list_elem_of_fmap in Hin as ([y m0] & -> & Hin). simpl.
    by destruct (Hin1 _ _ Hin) as (-> & _).
  - by rewrite !lookup_total_alt, Hout.
Qed.

Lemma rotations_skipped st1 (sensors : list objid) (unrot static : list bool)
    k_pixel l0 m (B : list block) :
  (∀ i, i < length sensors → unrot !!! i = true) →
  apply_sensor_rotations st1 sensors unrot static k_pixel l0 m B = inr B.
Proof.
  intros Hu. unfold apply_sensor_rotations.
  assert (He : ∀ e, e ∈ enumerate sensors → unrot !!! e.1 = true).
  { intros [i x] Hin%elem_of_enumerate. apply Hu. by eapply lookup_lt_Some. }
  induction (enumerate sensors) as [|[i x] es IH]; [done|].
  cbn [foldlM rotation_step]. pose proof (He (i, x)) as Hi. cbn [fst] in Hi.
  rewrite Hi by left. rewrite mret_bind. apply IH. intros; apply He; by right.
Qed.

Lemma unrotated_flags st (sensors : list objid) :
  (∀ sens q, sens ∈ sensors → q ∈ _orientation (st !!! sens) → q = unitQ) →
  ∀ i, i < length sensors → unrotated_sensors st sensors !!! i = true.
Proof.
  intros Hq i Hi. destruct (lookup_lt_is_Some_2 sensors i Hi) as [sens Hs].
  unfold unrotated_sensors.
  rewrite (list_lookup_total_correct _ i
             (forallb (λ r, bool_decide (r = unitQ)) (_orientation (st !!! sens))))
    by (by rewrite list_lookup_fmap, Hs).
  apply forallb_Forall, Forall_forall. intros q Hin.
  apply bool_decide_eq_true_2. apply (Hq sens); [by eapply list_elem_of_lookup_2|done].
Qed.

(** The array of a call whose sensors are all skipped by the rotation
    phase, from the rows that the summation over the Collections leaves. *)
Lemma field_array_unrotated rt bh st1 (srcs src_list sensors : list objid) (m : nat)
    (ps : list nat) (pxs : objid → list vec3) (unrot static : list bool)
    (rows : list block) :
  0 < m → sensors ≠ [] →
  (∀ x, x ∈ src_list →
     _object_type (st1 !!! x) ∈ vector_kinds ∧ wf_attributes (st1 !!! x)
     ∧ plen st1 x = m ∧ olen st1 x = m) →
  (∀ sens, sens ∈ sensors →
     plen st1 sens = m ∧ olen st1 sens = m
     ∧ data (pixel (st1 !!! sens)) = concat (flat3 <$> pxs sens)
     ∧ length (pxs sens) = shape_size ps) →
  (∀ i, i < length sensors → unrot !!! i = true) →
  collection_sum st1 srcs (length src_list) (length srcs) m
    (length sensors * shape_size ps)
    ((λ x, field_block bh (st1 !!! x) (obs_rows (λ x, st1 !!! x) sensors pxs m))
       <$> src_list)
  = inr rows →
  regular (length srcs) m (length sensors * shape_size ps) rows →
  field_array rt bh st1 srcs src_list sensors (ps ++ [3]) unrot static m false false
  = inr (NdArray ([length srcs; m] ++ length sensors :: ps ++ [3]) (flat_blocks rows)).
Proof.
  intros Hm Hne Hsrc Hsens Hu Hsum Hrows. unfold field_array.
  destruct (poso_closed st1 sensors m (shape_size ps) pxs Hne Hm Hsens)
    as (Hposo & Hlen & Hreg).
  set (steps := obs_rows (λ x, st1 !!! x) sensors pxs m) in *.
  set (n_pix := length sensors * shape_size ps) in *.
  erewrite bind_assoc_inr; [|exact Hposo].
  rewrite (length_concat_regular n_pix) by done. rewrite Hlen.
  rewrite (bool_decide_eq_true_2 (m ≠ 0)) by lia. rewrite require_true_bind.
  rewrite Nat.mul_comm, Nat.div_mul by lia. rewrite (Nat.mul_comm n_pix m).
  destruct (group_sources st1 src_list) as [src_sorted order] eqn:Eg.
  replace src_sorted with (group_sources st1 src_list).1 by (by rewrite Eg).
  replace order with (group_sources st1 src_list).2 by (by rewrite Eg).
  rewrite (eval_vectors_closed bh st1 m n_pix steps src_list)
    by (done || apply length_np_empty).
  rewrite inr_bind, Hsum, inr_bind.
  rewrite rotations_skipped by done. rewrite inr_bind.
  unfold np_reshape.
  rewrite (length_flat_blocks (length srcs) m n_pix) by done.
  rewrite bool_decide_eq_true_2.
  2:{ change ([length srcs; m] ++ length sensors :: ps ++ [3])
        with ([length srcs; m; length sensors] ++ ps ++ [3]).
      rewrite !shape_size_app. unfold n_pix. simpl. lia. }
  by rewrite require_true_bind.
Qed.

(** The summation phase for a single Collection: its members' rows become
    one row, their sum. *)
Lemma collection_sum_single st1 (col : objid) (m n : nat) (rows : list block) :
  _object_type (st1 !!! col) = "Collection" →
  length (sources (st1 !!! col)) = length rows → rows ≠ [] →
  collection_sum st1 [col] (length rows) 1 m n rows
  = inr [np_sum_blocks m n rows].
Proof.
  intros Ht Hl Hne. unfold collection_sum. case_decide as Hg.
  - cbn [enumerate imap foldlM].
    pose proof (collection_step_group st1 m n [] rows [] col) as Hstep.
    rewrite app_nil_r in Hstep. cbn [app length] in Hstep.
    rewrite Hstep; [done| |lia].
    unfold width. by rewrite decide_True.
  - destruct rows as [|b [|??]]; [done| |simpl in Hg; lia].
    by rewrite np_sum_blocks_single.
Qed.

Lemma format_src_inputs_collection st (col : objid) :
  _object_type (st !!! col) = "Collection" →
  format_src_inputs st [col] = ([col], sources (st !!! col)).
Proof.
  intros Ht. unfold format_src_inputs. f_equal.
  change ([col] ≫= ?f) with (f col ++ []). cbv beta.
  by rewrite decide_True, app_nil_r.
Qed.

(** A call with a single Collection of Cuboid, Cylinder, CylinderSegment and
    Dipole members, observed by sensors that are not rotated, returns what
    the call with the members and [sumup=True] returns, under one more
    leading axis of length 1; both calls leave the same store. *)
Theorem collection_call_is_summed_member_call rt bh st (col : objid)
    (members sensors : list objid) (m : nat) (ps : list nat)
    (pxs : objid → list vec3) :
  valid_iter rt →
  sensors ≠ [] →
  _object_type (st !!! col) = "Collection" →
  sources (st !!! col) = members → members ≠ [] →
  (∀ x, x ∈ members →
     _object_type (st !!! x) ∈ vector_kinds ∧ wf_attributes (st !!! x)) →
  (∀ sens, sens ∈ sensors →
     shape (pixel (st !!! sens)) = ps ++ [3]
     ∧ data (pixel (st !!! sens)) = concat (flat3 <$> pxs sens)
     ∧ length (pxs sens) = shape_size ps) →
  (∀ sens q, sens ∈ sensors → q ∈ _orientation (st !!! sens) → q = unitQ) →
  wf_paths st (members ++ sensors) →
  aligned_length rt st members sensors = m →
  check_dimensions st [col] = true → check_excitations st [col] = true →
  check_dimensions st members = true → check_excitations st members = true →
  ∃ st' Bc Bm,
    getBH_level2 rt bh [col] sensors false false st = (st', inr Bc)
    ∧ getBH_level2 rt bh members sensors true false st = (st', inr Bm)
    ∧ shape Bm = [m; length sensors] ++ ps ++ [3]
    ∧ shape Bc = 1 :: shape Bm
    ∧ data Bc = data Bm.
Proof.
  intros Hv Hne Htc Hsrcs Hmem Hsrc Hsens Hunit Hwf Hm Hcd Hce Hcdm Hcem.
  assert (Hfc : format_src_inputs st [col] = ([col], members)).
  { rewrite <- Hsrcs. by apply format_src_inputs_collection. }
  assert (Hfm : format_src_inputs st members = (members, members)).
  { apply format_src_inputs_flat, Forall_forall. intros x Hx.
    apply vector_kind_not_collection. by destruct (Hsrc x Hx). }
  set (ol := set_iter rt (list_to_set (members ++ sensors))).
  assert (Holc : obj_list_of rt st [col] sensors = ol).
  { unfold obj_list_of, participants. by rewrite Hfc. }
  assert (Holm : obj_list_of rt st members sensors = ol).
  { unfold obj_list_of, participants. by rewrite Hfm. }
  assert (Hmax : max_list (path_lengths st ol) = m).
  { rewrite <- Hm. unfold aligned_length. by rewrite Holm. }
  assert (Hmc : aligned_length rt st [col] sensors = m).
  { unfold aligned_length. by rewrite Holc. }
  assert (Hol : ∀ x, x ∈ ol ↔ x ∈ members ++ sensors).
  { intros x. unfold ol. by rewrite valid_iter_elem. }
  assert (Hnd : NoDup ol) by (by apply valid_iter_NoDup).
  destruct sensors as [|s0 sensors']; [done|]. set (sensors := s0 :: sensors') in *.
  assert (Hs0 : s0 ∈ ol).
  { apply Hol, elem_of_app. right. left. }
  assert (Hnol : ol ≠ []).
  { intros E. rewrite E in Hs0. by apply elem_of_nil in Hs0. }
  assert (Hwfo : wf_paths st ol).
  { intros x Hx%Hol. by apply Hwf. }
  assert (Hmpos : 0 < m).
  { pose proof (plen_le_max st ol s0 Hs0) as Hle. rewrite Hmax in Hle.
    destruct (Hwfo s0 Hs0) as [Hp _]. unfold plen in Hle.
    destruct (_position (st !!! s0)); [done|]. simpl in Hle. lia. }
  destruct (tile_paths_ok m st ol Hnd Hwfo) as [st1 Ht].
  pose proof Ht as Ht'. rewrite <- Hmax in Ht'.
  pose proof (tile_paths_aligned st ol st1 Hnd Hnol Hwfo Ht') as Hal.
  rewrite Hmax in Hal.
  assert (Hndp : NoDup (reset_pairs st ol).*1) by (by apply reset_pairs_NoDup).
  assert (Htc1 : _object_type (st1 !!! col) = "Collection").
  { by rewrite (tile_paths_type _ _ _ _ Hndp Ht). }
  assert (Hsrcs1 : sources (st1 !!! col) = members).
  { by rewrite (tile_paths_sources _ _ _ _ Hndp Ht). }
  set (n := length sensors * shape_size ps).
  set (rows := (λ x, field_block bh (st1 !!! x)
                       (obs_rows (λ x, st1 !!! x) sensors pxs m)) <$> members).
  assert (Hsrc1 : ∀ x, x ∈ members →
            _object_type (st1 !!! x) ∈ vector_kinds ∧ wf_attributes (st1 !!! x)
            ∧ plen st1 x = m ∧ olen st1 x = m).
  { intros x Hx.
    destruct (Hal x) as (Hx1 & Hx2 & Hx3); [apply Hol, elem_of_app; by left|].
    destruct (Hsrc x Hx) as [Hk Hw]. rewrite Hx1. done. }
  assert (Hsens1 : ∀ sens, sens ∈ sensors →
            plen st1 sens = m ∧ olen st1 sens = m
            ∧ data (pixel (st1 !!! sens)) = concat (flat3 <$> pxs sens)
            ∧ length (pxs sens) = shape_size ps).
  { intros s Hs.
    destruct (Hal s) as (Hs1 & Hs2 & Hs3); [apply Hol, elem_of_app; by right|].
    destruct (Hsens s Hs) as (_ & Hd & Hl). rewrite Hs1. done. }
  assert (Hflags : ∀ i, i < length sensors → unrotated_sensors st sensors !!! i = true)
    by (by apply unrotated_flags).
  assert (Hposo : length (obs_rows (λ x, st1 !!! x) sensors pxs m) = m
                  ∧ Forall (λ row, length row = n)
                      (obs_rows (λ x, st1 !!! x) sensors pxs m)).
  { by destruct (poso_closed st1 sensors m (shape_size ps) pxs Hne Hmpos Hsens1)
      as (_ & ? & ?). }
  assert (Hrows : regular (length members) m n rows).
  { unfold rows.
    replace ((λ x, field_block bh (st1 !!! x) (obs_rows (λ x, st1 !!! x) sensors pxs m))
               <$> members)
      with ((λ o, field_block bh o (obs_rows (λ x, st1 !!! x) sensors pxs m))
              <$> ((λ x, st1 !!! x) <$> members))
      by (by rewrite <- list_fmap_compose).
    rewrite <- (length_fmap (λ x, st1 !!! x) members).
    destruct Hposo as [Hl Hr].
    apply regular_field_blocks; [|done|done].
    apply Forall_fmap, Forall_forall. intros x Hx. simpl.
    by destruct (Hsrc1 x Hx) as (_ & _ & ? & ?). }
  assert (Hg : 0 < length members) by (destruct members; [done|simpl; lia]).
  assert (Hfam : field_array rt bh st1 members members sensors (ps ++ [3])
                   (unrotated_sensors st sensors)
                   (check_static_sensor_orient st sensors) m false false
                 = inr (NdArray ([length members; m] ++ length sensors :: ps ++ [3])
                          (flat_blocks rows))).
  { apply (field_array_unrotated rt bh st1 members members sensors m ps pxs);
      try done.
    unfold collection_sum. by rewrite decide_False by lia. }
  assert (Hfac : field_array rt bh st1 [col] members sensors (ps ++ [3])
                   (unrotated_sensors st sensors)
                   (check_static_sensor_orient st sensors) m false false
                 = inr (NdArray ([1; m] ++ length sensors :: ps ++ [3])
                          (flat_blocks [np_sum_blocks m n rows]))).
  { apply (field_array_unrotated rt bh st1 [col] members sensors m ps pxs);
      try done.
    - fold rows. fold n. rewrite <- (proj1 Hrows).
      apply collection_sum_single; [done| |].
      + rewrite Hsrcs1. symmetry. apply Hrows.
      + intros E. destruct Hrows as [Hl _]. rewrite E in Hl. simpl in Hl. lia.
    - by apply (regular_sum (length members)). }
  assert (Hshape : ∀ sens, sens ∈ sensors → shape (pixel (st !!! sens)) = ps ++ [3]).
  { intros s Hs. by destruct (Hsens s Hs). }
  assert (Hsame : all_same ((λ sens, shape (pixel (st !!! sens))) <$> sensors) = true).
  { apply (all_same_const (ps ++ [3])). apply Forall_fmap, Forall_forall.
    intros s Hs. simpl. by apply Hshape. }
  assert (Hhead : head ((λ sens, shape (pixel (st !!! sens))) <$> sensors)
                  = Some (ps ++ [3])).
  { unfold sensors. simpl. rewrite (Hshape s0); [done|left]. }
  exists (reset_loop st1 (reset_pairs st ol)).
  exists (NdArray ([1; m] ++ length sensors :: ps ++ [3])
            (flat_blocks [np_sum_blocks m n rows])).
  exists (NdArray ([m] ++ length sensors :: ps ++ [3])
            (flat_blocks [np_sum_blocks m n rows])).
  split.
  { apply getBH_level2_inr. cbv zeta. rewrite Holc, Hmc, Hfc. cbn [fst snd].
    split; [done|]. split; [done|]. split; [done|]. split; [done|].
    by exists (ps ++ [3]), st1. }
  split; [|done].
  apply getBH_level2_inr. cbv zeta. rewrite Holm, Hm, Hfm. cbn [fst snd].
  split; [done|]. split; [done|]. split; [done|]. split; [done|].
  exists (ps ++ [3]), st1. split; [done|]. split; [done|]. split; [|done].
  rewrite field_array_flags, Hfam. cbn [fmap res_fmap finish]. f_equal.
  change ([length members; m] ++ length sensors :: ps ++ [3])
    with (length members :: ([m; length sensors] ++ ps ++ [3])).
  rewrite (np_sum_axis0_rows (length members) m n); [done|done|done|].
  rewrite !shape_size_app. unfold n. simpl. lia.
Qed.

End collection_field.

(** * Examples on the integer instance *)

Import ZInstance.
Local Open Scope Z_scope.

(** A box magnet with a static path and a sensor that moves along three
    positions. *)
Definition st_moving_sensor : gmap nat obj :=
  <[1%nat := source "Cuboid" (0,0,1000) [1;1;1] 0 [(0,0,0)] [unit_quat]]>
  (<[2%nat := sensor [3%nat] [0;0;2] [(0,0,0);(1,0,0);(2,0,0)]
                [unit_quat; unit_quat; unit_quat]]> ∅).

Lemma valid_iter_rtZ : valid_iter rtZ.
Proof. intros X. reflexivity. Qed.

Lemma rotZ_unit (v : Z * Z * Z) : rotZ (invZ unit_quat) v = v.
Proof. destruct v as [[a b] c]. unfold rotZ, invZ, unit_quat. f_equal; [f_equal|]; lia. Qed.

Ltac decide_members H :=
  repeat (apply elem_of_cons in H as [->|H]); [..|by apply elem_of_nil in H].

Lemma moving_sensor_call :
  getBH_level2 rtZ true [1%nat] [2%nat] false false st_moving_sensor
  = ((getBH_level2 rtZ true [1%nat] [2%nat] false false st_moving_sensor).1,
     inr (NdArray [1; 3; 1; 3]%nat [0; 1; 0; 0; 1; 1; 0; 1; 2])).
Proof. apply call_returns. vm_compute. reflexivity. Qed.

Lemma moving_sensor_wf :
  wf_paths st_moving_sensor (participants st_moving_sensor [1%nat] [2%nat]).
Proof.
  assert (participants st_moving_sensor [1%nat] [2%nat] = [1%nat; 2%nat]) as ->.
  { vm_compute. reflexivity. }
  intros y Hy.
  decide_members Hy; (split; [vm_compute; discriminate|vm_compute; reflexivity]).
Qed.

Lemma paths_restored_after_call_witness :
  (getBH_level2 rtZ true [1%nat] [2%nat] false false st_moving_sensor).1 !!! 1%nat
  = st_moving_sensor !!! 1%nat
  ∧ plen (getBH_level2 rtZ true [1%nat] [2%nat] false false st_moving_sensor).1 1%nat
    = plen st_moving_sensor 1%nat.
Proof.
  destruct (paths_restored_after_call rtZ true [1%nat] [2%nat] false false
              st_moving_sensor _ _ valid_iter_rtZ moving_sensor_wf
              moving_sensor_call)
    as (st1 & _ & _ & _ & Hrest & Hlen).
  split; [apply Hrest|apply Hlen].
Defined.

Definition st_two_shapes : gmap nat obj :=
  <[3%nat := sensor [2%nat; 3%nat] [0;0;2;0;0;3] [(0,0,0)] [unit_quat]]>
    st_moving_sensor.

Lemma pixel_shape_mismatch_rejected_witness :
  getBH_level2 rtZ true [1%nat] [2%nat; 3%nat] false false st_two_shapes
  = (st_two_shapes, inl MagpylibBadUserInput).
Proof. apply pixel_shape_mismatch_rejected. vm_compute. reflexivity. Defined.



Lemma output_shape_witness :
  shape (NdArray [1; 3; 1; 3]%nat [0; 1; 0; 0; 1; 1; 0; 1; 2])
  = out_shape false false
      ([1%nat; aligned_length rtZ st_moving_sensor [1%nat] [2%nat]; 1%nat]
       ++ [] ++ [3%nat]).
Proof.
  destruct (output_shape rtZ true [1%nat] [2%nat] false false st_moving_sensor
              _ _ [] moving_sensor_call) as (_ & B0 & _ & _ & _ & HB).
  - exists 2%nat. split; [left|]. vm_compute. reflexivity.
  - exact HB.
Defined.

(** A sensor turned by half a turn about the z axis, tiled to three steps. *)
Definition st_turned : gmap nat obj :=
  <[2%nat := sensor [3%nat] [0;0;2] [(0,0,0)] [(0,0,1,0)]]> st_moving_sensor.
Definition st_turned_tiled : gmap nat obj :=
  <[2%nat := tiled 3 1 (st_turned !!! 2%nat)]> st_turned.

Lemma turned_sensor_tiled : sensors_tiled st_turned st_turned_tiled [2%nat] 3.
Proof.
  intros y Hy. decide_members Hy. split_and!.
  - vm_compute. discriminate.
  - unfold st_turned_tiled. rewrite lookup_total_insert_eq. f_equal.
  - vm_compute. reflexivity.
Qed.

Lemma fast_rotation_paths_agree_witness :
  apply_sensor_rotations st_turned_tiled [2%nat] (unrotated_sensors st_turned [2%nat])
    (check_static_sensor_orient st_turned [2%nat]) 1 1 3
    [[[(1,2,3)]; [(4,5,6)]; [(7,8,9)]]]
  = apply_sensor_rotations st_turned_tiled [2%nat] [false] [false] 1 1 3
    [[[(1,2,3)]; [(4,5,6)]; [(7,8,9)]]].
Proof.
  apply (fast_rotation_paths_agree st_turned st_turned_tiled [2%nat] 1 1 3).
  - apply rotZ_unit.
  - apply turned_sensor_tiled.
  - split; [reflexivity|]. repeat constructor.
Defined.

(** A runtime that walks a set backwards and hands out dirty memory. *)
Definition rt_reversed : runtime :=
  Runtime (λ X, reverse (elements X)) (λ i, 7 + Z.of_nat i).

Lemma valid_iter_reversed : valid_iter rt_reversed.
Proof. intros X. simpl. apply reverse_Permutation. Qed.

Lemma moving_sensor_known :
  known_tags st_moving_sensor (format_src_inputs st_moving_sensor [1%nat]).2.
Proof.
  assert ((format_src_inputs st_moving_sensor [1%nat]).2 = [1%nat]) as ->.
  { vm_compute. reflexivity. }
  intros y Hy. decide_members Hy. vm_compute. by eexists.
Qed.

Lemma evaluation_deterministic_witness :
  (getBH_level2 rtZ true [1%nat] [2%nat] false false st_moving_sensor).2
  = (getBH_level2 rt_reversed true [1%nat] [2%nat] false false st_moving_sensor).2.
Proof.
  apply (evaluation_deterministic rtZ rt_reversed true [1%nat] [2%nat] false false
           st_moving_sensor valid_iter_rtZ valid_iter_reversed moving_sensor_known).
Defined.

(** Two spheres that differ in magnetization and diameter, a Collection of
    both, and a static sensor with two pixels. The kernel of the instance
    returns (first attribute, last attribute, x offset): for a sphere the x
    component of the magnetization and the diameter the row was packed
    with. *)
Definition st_spheres : gmap nat obj :=
  <[1%nat := source "Sphere" (10,0,0) [] 7 [(0,0,0)] [unit_quat]]>
  (<[2%nat := source "Sphere" (20,0,0) [] 9 [(0,0,0)] [unit_quat]]>
  (<[3%nat := sensor [2%nat; 3%nat] [1;2;3;4;5;6] [(0,0,0)] [unit_quat]]>
  (<[4%nat := collection [1%nat; 2%nat]]> ∅))).

(** The packed diameters of the two spheres for two observation points:
    the magnetization is tiled source by source, the diameter is not. *)
Lemma sphere_diameters_interleaved :
  tile_mag ((λ x, st_spheres !!! x) <$> [1%nat; 2%nat]) 2
  = inr [[10;0;0]; [10;0;0]; [20;0;0]; [20;0;0]]
  ∧ tile_dia ((λ x, st_spheres !!! x) <$> [1%nat; 2%nat]) 2
    = inr [[7]; [9]; [7]; [9]].
Proof. split; vm_compute; reflexivity. Qed.

(** C3 on the code: in the joint call the row of the first sphere carries
    the diameter of the second one at the second pixel, and the row of the
    second sphere the diameter of the first one at the first pixel; alone,
    each sphere is evaluated with its own diameter. *)
Theorem spheres_rows_differ_from_single_calls :
  view (getBH_level2 rtZ true [1%nat; 2%nat] [3%nat] false false st_spheres).2
  = inr ([2; 1; 1; 2; 3]%nat, [10; 7; 1; 10; 9; 4] ++ [20; 7; 1; 20; 9; 4])
  ∧ view (getBH_level2 rtZ true [1%nat] [3%nat] false false st_spheres).2
    = inr ([1; 1; 1; 2; 3]%nat, [10; 7; 1; 10; 7; 4])
  ∧ view (getBH_level2 rtZ true [2%nat] [3%nat] false false st_spheres).2
    = inr ([1; 1; 1; 2; 3]%nat, [20; 9; 1; 20; 9; 4]).
Proof. split_and!; vm_compute; reflexivity. Qed.

(** C2 on the code: the Collection of the two spheres, summed, is not the
    sum of the two spheres evaluated one by one. *)
Theorem collection_sum_differs_from_member_sum :
  view (getBH_level2 rtZ true [4%nat] [3%nat] true false st_spheres).2
  = inr ([1; 1; 2; 3]%nat, [30; 14; 2; 30; 18; 8])
  ∧ view (getBH_level2 rtZ true [1%nat] [3%nat] true false st_spheres).2
    = inr ([1; 1; 2; 3]%nat, [10; 7; 1; 10; 7; 4])
  ∧ view (getBH_level2 rtZ true [2%nat] [3%nat] true false st_spheres).2
    = inr ([1; 1; 2; 3]%nat, [20; 9; 1; 20; 9; 4])
  ∧ zip_with Z.add [10; 7; 1; 10; 7; 4] [20; 9; 1; 20; 9; 4]
    = [30; 16; 2; 30; 16; 8].
Proof. split_and!; vm_compute; reflexivity. Qed.

(** A source whose tag is none of the seven kinds, and a runtime whose fresh
    memory holds 7, 8, 9, ... *)
Definition st_facet : gmap nat obj :=
  <[1%nat := source "Facet" (10,0,0) [] 7 [(0,0,0)] [unit_quat]]>
  (<[2%nat := sensor [3%nat] [1;2;3] [(0,0,0)] [unit_quat]]> ∅).
Definition rt_dirty : runtime := Runtime elements (λ i, 7 + Z.of_nat i).

(** C5 on the code: the call returns an array, and the row of the source
    with the unknown tag is the uninitialised memory of [np.empty]. *)
Theorem unknown_tag_returns_uninitialised_row :
  view (getBH_level2 rt_dirty true [1%nat] [2%nat] false false st_facet).2
  = inr ([1; 1; 1; 3]%nat, [7; 8; 9]).
Proof. vm_compute. reflexivity. Qed.

Lemma valid_iter_dirty : valid_iter rt_dirty.
Proof. intros X. reflexivity. Qed.

(** C9 on the code: the same call on the same store returns different
    arrays under two runtimes that iterate sets alike and differ only in the
    content of freshly allocated memory. The source carries none of the
    seven tags, so its row of [np.empty] is never written. *)
Theorem unknown_tag_result_depends_on_fresh_memory :
  valid_iter rtZ ∧ valid_iter rt_dirty
  ∧ view (getBH_level2 rtZ true [1%nat] [2%nat] false false st_facet).2
    = inr ([1; 1; 1; 3]%nat, [0; 0; 0])
  ∧ view (getBH_level2 rt_dirty true [1%nat] [2%nat] false false st_facet).2
    = inr ([1; 1; 1; 3]%nat, [7; 8; 9])
  ∧ (getBH_level2 rtZ true [1%nat] [2%nat] false false st_facet).2
    ≠ (getBH_level2 rt_dirty true [1%nat] [2%nat] false false st_facet).2.
Proof.
  assert (H0 : view (getBH_level2 rtZ true [1%nat] [2%nat] false false st_facet).2
               = inr ([1; 1; 1; 3]%nat, [0; 0; 0])) by (vm_compute; reflexivity).
  assert (H7 : view (getBH_level2 rt_dirty true [1%nat] [2%nat] false false st_facet).2
               = inr ([1; 1; 1; 3]%nat, [7; 8; 9])) by (vm_compute; reflexivity).
  split; [apply valid_iter_rtZ|]. split; [apply valid_iter_dirty|].
  split; [exact H0|]. split; [exact H7|].
  intros E. rewrite E, H7 in H0. discriminate H0.
Qed.

(** A box magnet at rest, and a sensor with two pixels that moves along
    three states and is turned by half a turn about the z axis at the
    second one. *)
Definition st_turning : gmap nat obj :=
  <[1%nat := source "Cuboid" (0,0,1000) [1;1;1] 0 [(0,0,0)] [unit_quat]]>
  (<[2%nat := sensor [2%nat; 3%nat] [1;0;0; 0;1;0] [(0,0,0);(5,0,0);(7,0,0)]
                [unit_quat; (0,0,1,0); unit_quat]]> ∅).

Lemma static_source_field_at_each_index_witness :
  ∃ st' stj' B Bj,
    getBH_level2 rtZ true [1%nat] [2%nat] false false st_turning = (st', inr B)
    ∧ getBH_level2 rtZ true [1%nat] [2%nat] false false
        (<[2%nat := at_step 1 (st_turning !!! 2%nat)]> st_turning) = (stj', inr Bj)
    ∧ shape B = [1; 3; 1; 2; 3]%nat
    ∧ shape Bj = [1; 1; 1; 2; 3]%nat
    ∧ data Bj = slice 6 12 (data B).
Proof.
  apply (static_source_field_at_each_index rtZ true st_turning 1%nat 2%nat 3%nat
           [2%nat] [(1,0,0); (0,1,0)] 1%nat).
  - apply valid_iter_rtZ.
  - apply rotZ_unit.
  - discriminate.
  - exists 0%nat. vm_compute. reflexivity.
  - split_and!; intros E; vm_compute in E; try discriminate E; reflexivity.
  - vm_compute. reflexivity.
  - vm_compute. reflexivity.
  - vm_compute. reflexivity.
  - vm_compute. reflexivity.
  - lia.
  - vm_compute. reflexivity.
  - vm_compute. reflexivity.
  - reflexivity.
  - reflexivity.
  - reflexivity.
  - reflexivity.
  - reflexivity.
Defined.

(** ** Examples for the tiling helpers and the kernel input *)

Definition box_magnet : obj :=
  source "Cuboid" (0,0,1000) [1;2;3] 0 [(0,0,0)] [unit_quat].

Lemma tile_dimensions_source_major_witness :
  tile_dim_cuboid [box_magnet; box_magnet] 2
  = inr ((dimension <$> [box_magnet; box_magnet]) ≫= replicate 2).
Proof.
  destruct (tile_dimensions_source_major [box_magnet; box_magnet] 2 3) as (H3 & _).
  - repeat constructor.
  - exact (H3 eq_refl).
Defined.

Definition facet : obj := source "Facet" (10,0,0) [] 7 [(0,0,0)] [unit_quat].

Lemma get_src_dict_unknown_type_witness :
  get_src_dict [facet] 1 1 [(1,2,3)] = inl MagpylibInternalError.
Proof.
  apply (get_src_dict_unknown_type facet [] 1).
  - rewrite !not_elem_of_cons. split_and!; try discriminate. apply not_elem_of_nil.
  - repeat constructor.
Defined.

Definition ball (mag dia : Z) : obj :=
  source "Sphere" (mag,0,0) [] dia [(0,0,0)] [unit_quat].

Lemma get_src_dict_layout_witness :
  ∃ d, get_src_dict [ball 10 7; ball 20 9] 2 2 [(1,2,3); (4,5,6)] = inr d
    ∧ sd_source_type d = "Sphere"
    ∧ sd_observer d = [(1,2,3); (4,5,6); (1,2,3); (4,5,6)]
    ∧ length (sd_position d) = 4%nat.
Proof.
  destruct (get_src_dict_layout "Sphere" [ball 10 7; ball 20 9] 1 2 2
              [(1,2,3); (4,5,6)])
    as (d & Hd & Ht & Hp & _ & Ho & _).
  - discriminate.
  - left.
  - repeat constructor; intros E; discriminate E.
  - exists d. split; [exact Hd|]. split; [exact Ht|]. split; [exact Ho|].
    rewrite Hp. reflexivity.
Defined.

(** ** Examples for what a call leaves behind *)

(** A cylinder whose dimension has three entries: the reshape of the tiled
    dimensions fails for the three observation tuples of the moving sensor. *)
Definition st_bad_cylinder : gmap nat obj :=
  <[1%nat := source "Cylinder" (0,0,1000) [1;1;1] 0 [(0,0,0)] [unit_quat]]>
    st_moving_sensor.

Lemma bad_cylinder_call :
  getBH_level2 rtZ true [1%nat] [2%nat] false false st_bad_cylinder
  = ((getBH_level2 rtZ true [1%nat] [2%nat] false false st_bad_cylinder).1,
     inl ValueError).
Proof. apply call_raises. vm_compute. reflexivity. Qed.

Lemma bad_cylinder_wf :
  wf_paths st_bad_cylinder (participants st_bad_cylinder [1%nat] [2%nat]).
Proof.
  assert (participants st_bad_cylinder [1%nat] [2%nat] = [1%nat; 2%nat]) as ->.
  { vm_compute. reflexivity. }
  intros y Hy.
  decide_members Hy; (split; [vm_compute; discriminate|vm_compute; reflexivity]).
Qed.

Lemma failed_call_leaves_paths_padded_witness :
  plen st_bad_cylinder 1%nat = 1%nat
  ∧ plen (getBH_level2 rtZ true [1%nat] [2%nat] false false st_bad_cylinder).1 1%nat
    = 3%nat.
Proof.
  split; [vm_compute; reflexivity|].
  assert (Hx : 1%nat ∈ participants st_bad_cylinder [1%nat] [2%nat]).
  { assert (participants st_bad_cylinder [1%nat] [2%nat] = [1%nat; 2%nat]) as ->.
    { vm_compute. reflexivity. }
    left. }
  assert (Hs : [2%nat] ≠ []) by discriminate.
  assert (He : ValueError ≠ MagpylibBadUserInput) by discriminate.
  destruct (failed_call_leaves_paths_padded rtZ true [1%nat] [2%nat] false false
              st_bad_cylinder _ ValueError valid_iter_rtZ bad_cylinder_wf Hs
              bad_cylinder_call He 1%nat Hx) as (_ & Hlen & _).
  rewrite Hlen. vm_compute. reflexivity.
Defined.

Lemma call_touches_only_short_paths_witness :
  (getBH_level2 rtZ true [1%nat] [2%nat] false false st_moving_sensor).1 !! 2%nat
  = st_moving_sensor !! 2%nat.
Proof.
  apply call_touches_only_short_paths.
  - apply valid_iter_rtZ.
  - right. vm_compute. reflexivity.
Defined.

(** ** Examples for the collection rows and the sensor frames *)

Lemma collection_sum_groups_witness :
  collection_sum st_spheres [4%nat; 1%nat] 3 2 1 1
    [[[(1,0,0)]]; [[(0,2,0)]]; [[(0,0,3)]]]
  = inr [[[(1,2,0)]]; [[(0,0,3)]]].
Proof.
  apply (collection_sum_groups st_spheres [4%nat; 1%nat]
           [[[[(1,0,0)]]; [[(0,2,0)]]]; [[[(0,0,3)]]]] 1 1).
  repeat constructor.
Defined.

Lemma fields_in_sensor_frames_witness :
  ∃ B', apply_sensor_rotations st_turned_tiled [2%nat]
          (unrotated_sensors st_turned [2%nat])
          (check_static_sensor_orient st_turned [2%nat]) 1 1 3
          [[[(1,2,3)]; [(4,5,6)]; [(7,8,9)]]] = inr B'
    ∧ at3 B' 0 1 0 = Some (-4, -5, 6).
Proof.
  destruct (fields_in_sensor_frames st_turned st_turned_tiled [2%nat] 1 1 3
              [[[(1,2,3)]; [(4,5,6)]; [(7,8,9)]]])
    as (B' & HB' & _ & Hpt).
  - apply rotZ_unit.
  - apply turned_sensor_tiled.
  - split; [reflexivity|]. repeat constructor.
  - exists B'. split; [exact HB'|].
    apply (Hpt 0%nat 1%nat 0%nat (4,5,6) (0,0,1,0)); vm_compute; reflexivity.
Defined.

(** ** Examples for the Collection class *)

Ltac refute_member H :=
  repeat (apply elem_of_cons in H as [H|H]; [discriminate H|]);
  by apply elem_of_nil in H.

(** The Collection 9 with the sources 5, 6 and 7. *)
Definition heap_567 : Collection.heap :=
  Collection.Heap {[9%nat := 0%nat]} {[0%nat := [5%nat; 6%nat; 7%nat]]}.

Lemma remove_first_or_raise_witness :
  Collection.remove 9%nat 8%nat heap_567 = (heap_567, inl ValueError).
Proof.
  destruct (remove_first_or_raise 9%nat 8%nat heap_567) as [Habsent _].
  apply Habsent. vm_compute. intros Hin. refute_member Hin.
Defined.

Lemma copy_shares_the_source_list_witness :
  (Collection.copy 9%nat heap_567).2 ≠ 9%nat
  ∧ Collection._sources (Collection.copy 9%nat heap_567).1
      (Collection.copy 9%nat heap_567).2
    = Collection._sources heap_567 9%nat.
Proof.
  destruct (copy_shares_the_source_list 9%nat 6%nat heap_567) as (Hnew & Hsrc & _).
  - vm_compute. set_solver.
  - split; [exact Hnew|exact Hsrc].
Defined.

(** A move by one step along x for a magnet; a sensor refuses it. *)
Definition shift_magnet (o : obj) : res obj :=
  if decide (_object_type o = "Sensor") then raise MagpylibBadUserInput
  else mret (set_position o [(1,0,0)]).

Definition heap_spheres : Collection.heap :=
  Collection.Heap {[4%nat := 0%nat]} {[0%nat := [1%nat; 2%nat]]}.

Lemma loop_calls_each_source_once_witness :
  ∃ st', Collection.apply_to_sources shift_magnet 4%nat heap_spheres st_spheres
         = (st', inr 4%nat)
    ∧ shift_magnet (st_spheres !!! 2%nat) = inr (st' !!! 2%nat)
    ∧ st' !! 3%nat = st_spheres !! 3%nat.
Proof.
  destruct (loop_calls_each_source_once shift_magnet 4%nat heap_spheres st_spheres)
    as (st' & Hrun & Hin & Hout).
  - vm_compute. repeat constructor; intros Hin; refute_member Hin.
  - intros s Hs. vm_compute in Hs. decide_members Hs; by eexists.
  - exists st'. split; [exact Hrun|]. split.
    + apply Hin. vm_compute. right. left.
    + apply Hout. vm_compute. intros Hx. refute_member Hx.
Defined.

Definition heap_mixed : Collection.heap :=
  Collection.Heap {[4%nat := 0%nat]} {[0%nat := [1%nat; 3%nat; 2%nat]]}.

Lemma loop_keeps_changes_on_raise_witness :
  ∃ st', Collection.apply_to_sources shift_magnet 4%nat heap_mixed st_spheres
         = (st', inl MagpylibBadUserInput)
    ∧ shift_magnet (st_spheres !!! 1%nat) = inr (st' !!! 1%nat)
    ∧ st' !! 2%nat = st_spheres !! 2%nat.
Proof.
  destruct (loop_keeps_changes_on_raise shift_magnet 4%nat 3%nat [1%nat] [2%nat]
              MagpylibBadUserInput heap_mixed st_spheres)
    as (st' & Hrun & Hin & Hout).
  - vm_compute. reflexivity.
  - vm_compute. repeat constructor; intros Hin; refute_member Hin.
  - intros s Hs. decide_members Hs. by eexists.
  - reflexivity.
  - exists st'. split; [exact Hrun|]. split.
    + apply Hin. left.
    + apply Hout. left.
Defined.

(** ** Examples for the scatter-back and the observation points *)

Lemma spheres_evaluated :
  foldlM (eval_group true st_spheres 1 2 2 [(1,2,3); (4,5,6)]
            (group_sources st_spheres [1%nat; 2%nat]).2)
         (np_empty (uninit rtZ) 2 1 2)
         (enumerate (group_sources st_spheres [1%nat; 2%nat]).1)
  = inr [[[(10,7,1); (10,9,4)]]; [[(20,7,1); (20,9,4)]]].
Proof. vm_compute. reflexivity. Qed.

Lemma rows_scattered_to_flat_order_witness :
  ∃ Bg, group_rows true st_spheres 1 2 2 [(1,2,3); (4,5,6)]
          ((group_sources st_spheres [1%nat; 2%nat]).1 !!! 3%nat) = inr Bg
    ∧ [[[(10,7,1); (10,9,4)]]; [[(20,7,1); (20,9,4)]]] !! 1%nat = Bg !! 1%nat.
Proof.
  destruct (rows_scattered_to_flat_order true st_spheres 1 2 2 [(1,2,3); (4,5,6)]
              [1%nat; 2%nat] (np_empty (uninit rtZ) 2 1 2)
              [[[(10,7,1); (10,9,4)]]; [[(20,7,1); (20,9,4)]]])
    as (_ & Hrows & _).
  - reflexivity.
  - exact spheres_evaluated.
  - apply (Hrows 3%nat 1%nat 1%nat). vm_compute. reflexivity.
Defined.

Lemma observation_points_layout_witness :
  ∃ poso,
    mapM (λ sens, sensor_poso (st_spheres !!! sens)) [3%nat; 3%nat]
      ≫= np_concatenate_axis1 = inr poso
    ∧ poso !! 0%nat ≫= (.!! 3%nat) = Some (4, 5, 6).
Proof.
  destruct (observation_points_layout st_spheres [3%nat; 3%nat] 1 2
              (λ _, [(1,2,3); (4,5,6)]))
    as (poso & Hposo & _ & _ & Hpt).
  - discriminate.
  - lia.
  - intros sens Hin. decide_members Hin; split_and!; vm_compute; reflexivity.
  - exists poso. split; [exact Hposo|].
    apply (Hpt 1%nat 0%nat 1%nat 3%nat unit_quat (0,0,0) (4,5,6)); vm_compute; reflexivity.
Defined.

(** ** Examples for the kinds without scalar attributes *)

(** Two box magnets at rest and the moving sensor of [st_moving_sensor]. *)
Definition st_boxes : gmap nat obj :=
  <[5%nat := source "Cuboid" (5,0,0) [4;5;6] 0 [(1,0,0)] [unit_quat]]>
    st_moving_sensor.

Lemma boxes_known (x : nat) :
  x ∈ [1%nat; 5%nat] →
  _object_type (st_boxes !!! x) ∈ vector_kinds ∧ wf_attributes (st_boxes !!! x).
Proof.
  intros Hx. decide_members Hx.
  - split; [left|]. split_and!; intros E; vm_compute in E; try discriminate E; reflexivity.
  - split; [left|]. split_and!; intros E; vm_compute in E; try discriminate E; reflexivity.
Qed.

Lemma evaluation_rows_are_source_fields_witness :
  foldlM (eval_group true st_boxes 1 2 (1 * 2) (concat [[(1,2,3); (4,5,6)]])
            (group_sources st_boxes [1%nat; 5%nat]).2)
         (np_empty (uninit rtZ) 2 1 2)
         (enumerate (group_sources st_boxes [1%nat; 5%nat]).1)
  = inr ((λ x, field_block true (st_boxes !!! x) [[(1,2,3); (4,5,6)]])
           <$> [1%nat; 5%nat]).
Proof.
  apply (evaluation_rows_are_source_fields true st_boxes 1 2 [[(1,2,3); (4,5,6)]]
           [1%nat; 5%nat]).
  - intros x Hx. destruct (boxes_known x Hx) as [Hk Hw].
    split; [done|]. split; [done|]. decide_members Hx; split; vm_compute; reflexivity.
  - reflexivity.
  - repeat constructor.
  - reflexivity.
Defined.

Lemma boxes_wf : wf_paths st_boxes ([1%nat; 5%nat] ++ [2%nat]).
Proof.
  intros y Hy. simpl in Hy.
  decide_members Hy; (split; [vm_compute; discriminate|vm_compute; reflexivity]).
Qed.

Lemma joint_rows_are_single_source_results_witness :
  ∃ st' st'' B Bi,
    getBH_level2 rtZ true [1%nat; 5%nat] [2%nat] false false st_boxes = (st', inr B)
    ∧ getBH_level2 rtZ true [5%nat] [2%nat] false false st_boxes = (st'', inr Bi)
    ∧ shape B = [2; 3; 1; 3]%nat
    ∧ shape Bi = [1; 3; 1; 3]%nat
    ∧ data Bi = slice 9 18 (data B).
Proof.
  apply (joint_rows_are_single_source_results rtZ true st_boxes [1%nat; 5%nat]
           [2%nat] 3 [] (λ _, [(0,0,2)]) 1%nat 5%nat).
  - apply valid_iter_rtZ.
  - apply rotZ_unit.
  - discriminate.
  - apply boxes_known.
  - intros sens Hs. decide_members Hs. split_and!; vm_compute; reflexivity.
  - apply boxes_wf.
  - reflexivity.
  - vm_compute. reflexivity.
  - vm_compute. reflexivity.
  - reflexivity.
  - reflexivity.
  - reflexivity.
  - reflexivity.
Defined.

(** ** A Collection of the two box magnets *)

Definition st_box_collection : gmap nat obj :=
  <[7%nat := collection [1%nat; 5%nat]]> st_boxes.

Lemma collection_call_is_summed_member_call_witness :
  ∃ st' Bc Bm,
    getBH_level2 rtZ true [7%nat] [2%nat] false false st_box_collection = (st', inr Bc)
    ∧ getBH_level2 rtZ true [1%nat; 5%nat] [2%nat] true false st_box_collection
      = (st', inr Bm)
    ∧ shape Bm = [3; 1; 3]%nat
    ∧ shape Bc = (1 :: shape Bm)%nat
    ∧ data Bc = data Bm.
Proof.
  apply (collection_call_is_summed_member_call rtZ true st_box_collection 7%nat
           [1%nat; 5%nat] [2%nat] 3 [] (λ _, [(0,0,2)])).
  - apply valid_iter_rtZ.
  - discriminate.
  - reflexivity.
  - reflexivity.
  - discriminate.
  - intros x Hx. decide_members Hx.
    + split; [left|]. split_and!; intros E; vm_compute in E; try discriminate E; reflexivity.
    + split; [left|]. split_and!; intros E; vm_compute in E; try discriminate E; reflexivity.
  - intros sens Hs. decide_members Hs. split_and!; vm_compute; reflexivity.
  - intros sens q Hs Hq. decide_members Hs. vm_compute in Hq.
    decide_members Hq; reflexivity.
  - intros y Hy. simpl in Hy.
    decide_members Hy; (split; [vm_compute; discriminate|vm_compute; reflexivity]).
  - vm_compute. reflexivity.
  - reflexivity.
  - reflexivity.
  - reflexivity.
  - reflexivity.
Defined.
